(** * kvpdemo: the key registry and the command dispatcher

    A shallow embedding of [src/keyregistry.c] and of [src/server.c], with
    the properties of the key/value grammar, the registry store, the
    registry loader, the dispatcher, the command line and the sockets.

    Conventions of the embedding.
    - A [char] is its byte value, a [Z] in [0, 255]; the program never calls
      [setlocale], so [isalpha], [isdigit] and [tolower] are those of the
      "C" locale.
    - Fixed-width integers ([uint8_t], [uint16_t], [size_t]) are [Z] with the
      wrap-around written out ([CInt]); [size_t] and pointers are 64 bits
      wide.
    - A character buffer is a [list Z]; a pointer into it is the index of the
      byte it addresses.  A read or a write outside the buffer has no C
      semantics: the embedding reports it as a fault ([None], [ParseFault]).
    - A key or a value on the heap is the list of the bytes that [memcpy]
      puts into its block: [malloc(keyLen)] leaves no room for a terminator.
      Where the program reads such a block as a string ([strcmp] in
      [searchKey], [%s] in [sprintf]), the store and the dispatcher are given
      with the contents of the blocks, which is what these calls see when a
      NUL follows each block on the heap; [Blocks] has the store with the
      bounds of the blocks, where such a read is a fault like any other.
      [malloc] is taken to succeed. *)

From stdpp Require Import base numbers option list strings.

Local Open Scope Z_scope.

(** ** Fixed-width integers *)

Module CInt.

Definition wrap (w x : Z) : Z := x `mod` 2 ^ w.

Definition uint8_t : Z → Z := wrap 8.
Definition uint16_t : Z → Z := wrap 16.
Definition size_t : Z → Z := wrap 64.

(** The value of a [size_t] offset once added to a pointer: addresses are
    64 bits wide and wrap, so an offset of [2^64 - 1] moves one byte back. *)
Definition ptrdiff_t (x : Z) : Z :=
  let y := wrap 64 x in if bool_decide (y < 2 ^ 63) then y else y - 2 ^ 64.

End CInt.

(** ** Characters *)

Module Char.

Definition NUL : Z := 0.
Definition LF : Z := 10.
Definition CR : Z := 13.
Definition SPACE : Z := 32.

Definition isdigit (c : Z) : bool := bool_decide (48 ≤ c ≤ 57).
Definition isupper (c : Z) : bool := bool_decide (65 ≤ c ≤ 90).
Definition islower (c : Z) : bool := bool_decide (97 ≤ c ≤ 122).
Definition isalpha (c : Z) : bool := isupper c || islower c.
Definition tolower (c : Z) : Z := if isupper c then c + 32 else c.

(** The byte of an [ascii] character, and a string literal as bytes. *)
Definition of_ascii (a : Ascii.ascii) : Z := Z.of_N (Ascii.N_of_ascii a).
Definition bytes (s : string) : list Z := of_ascii <$> String.list_ascii_of_string s.

End Char.

(** ** Character buffers *)

Module Mem.

Definition load (m : list Z) (p : Z) : option Z :=
  if bool_decide (0 ≤ p) then m !! Z.to_nat p else None.

Definition store (m : list Z) (p : Z) (c : Z) : option (list Z) :=
  if bool_decide (0 ≤ p < Z.of_nat (length m)) then Some (<[Z.to_nat p := c]> m) else None.

(** [memcpy(dst, m + p, n)] into a fresh block: the [n] bytes copied. *)
Definition memcpy (m : list Z) (p n : Z) : option (list Z) :=
  if bool_decide (0 ≤ p ∧ 0 ≤ n ∧ p + n ≤ Z.of_nat (length m))
  then Some (take (Z.to_nat n) (drop (Z.to_nat p) m))
  else None.

(** The bytes from [p] on, for the loops that walk a pointer forward. *)
Definition from (m : list Z) (p : Z) : list Z :=
  if bool_decide (0 ≤ p) then drop (Z.to_nat p) m else [].

(** [strlen]: the number of bytes before the first NUL. *)
Fixpoint strlen (s : list Z) : option Z :=
  match s with
  | [] => None
  | c :: s' => if bool_decide (c = Char.NUL) then Some 0 else Z.succ <$> strlen s'
  end.

End Mem.

(** ** keyregistry.h *)

Inductive kreg_ret : Set :=
  | KREG_OK
  | KREG_ERR_REG_OPEN
  | KREG_KEY_EMPTY
  | KREG_KEY_INVALID
  | KREG_KEY_TOO_LONG
  | KREG_KEY_NOT_FOUND
  | KREG_VAL_TOO_LONG
  | KREG_KEY_EXISTS.

#[global] Instance kreg_ret_eq_dec : EqDecision kreg_ret.
Proof. solve_decision. Defined.

Definition KREG_MAX_KEY_LEN : Z := 16.
Definition KREG_MAX_VAL_LEN : Z := 32.

(** ** keyregistry.c: the grammar parser *)

(** What [parseKeyValue] hands back.  [*key] and [*value] are out-parameters
    that every caller initialises to [NULL]: [ParseOk k v] has [*key = k]
    and [*value = v], with [v = None] when [*value] is not written.
    [ParseErr code k pos] has the return code, [*key = k] (written on the
    way to [KREG_VAL_TOO_LONG] only) and [*errPos = pos]. *)
Inductive parse_result : Type :=
  | ParseOk (key : list Z) (value : option (list Z))
  | ParseErr (code : kreg_ret) (key : option (list Z)) (errPos : Z)
  | ParseFault.

#[global] Instance parse_result_eq_dec : EqDecision parse_result.
Proof. solve_decision. Defined.

(** The loop that removes leading spaces, [linePtr++; len--;] as long as
    [linePtr] addresses a space, run over the bytes from [linePtr] on; the
    result is the new [(linePtr, len)]. *)
Fixpoint skipSpaces (rest : list Z) (linePtr len : Z) : option (Z * Z) :=
  match rest with
  | [] => None
  | c :: rest' =>
      if bool_decide (c = Char.SPACE)
      then skipSpaces rest' (linePtr + 1) (CInt.size_t (len - 1))
      else Some (linePtr, len)
  end.

(** One round of the loop that removes a trailing line terminator:
    [if (linePtr[len - 1] == '\n' || linePtr[len - 1] == '\r')
       { linePtr[len - 1] = '\0'; len--; }]. *)
Definition stripEol (linePtr : Z) (st : list Z * Z) : option (list Z * Z) :=
  let '(buf, len) := st in
  let p := linePtr + CInt.ptrdiff_t (CInt.size_t (len - 1)) in
  c ← Mem.load buf p;
  if bool_decide (c = Char.LF) || bool_decide (c = Char.CR)
  then buf' ← Mem.store buf p Char.NUL; Some (buf', CInt.size_t (len - 1))
  else Some (buf, len).

(** How the key loop ends, with [linePtr] and [keyLen] at that moment. *)
Inductive key_scan : Type :=
  | KeyTooLong (linePtr : Z)
  | KeySeparator (linePtr keyLen : Z)
  | KeyTerminal (linePtr keyLen : Z)
  | KeyInvalid (linePtr : Z)
  | KeyFault.

(** The [while (1)] loop over the bytes from [linePtr] on. *)
Fixpoint keyLoop (rest : list Z) (linePtr keyLen : Z) : key_scan :=
  match rest with
  | [] => KeyFault
  | c :: rest' =>
      if Char.isalpha c || Char.isdigit c then
        let keyLen := CInt.uint16_t (keyLen + 1) in
        if bool_decide (keyLen > KREG_MAX_KEY_LEN) then KeyTooLong linePtr
        else keyLoop rest' (linePtr + 1) keyLen
      else if bool_decide (c = Char.SPACE) then KeySeparator linePtr keyLen
      else if bool_decide (c = Char.NUL) then KeyTerminal linePtr keyLen
      else KeyInvalid linePtr
  end.

Definition from_option_fault (r : option parse_result) : parse_result :=
  match r with Some res => res | None => ParseFault end.

(** The second half of [parseKeyValue], from "start position of the key"
    on: the key loop at [start], then the value.  [buf] and [len] are the
    buffer and the length the terminator loop has left. *)
Definition parseKeyAt (buf : list Z) (line start len : Z) : option parse_result :=
  match keyLoop (Mem.from buf start) start 0 with
  | KeyFault => None
  | KeyTooLong linePtr =>
      Some (ParseErr KREG_KEY_TOO_LONG None (CInt.uint16_t (linePtr - line + 1)))
  | KeyInvalid linePtr =>
      Some (ParseErr KREG_KEY_INVALID None (CInt.uint16_t (linePtr - line + 1)))
  | KeyTerminal linePtr keyLen =>
      if bool_decide (keyLen = 0)
      then Some (ParseErr KREG_KEY_EMPTY None (CInt.uint16_t (linePtr - line + 1)))
      else
        _key ← Mem.memcpy buf start keyLen;
        Some (ParseOk _key None)
  | KeySeparator linePtr keyLen =>
      _key ← Mem.memcpy buf start keyLen;
      let linePtr := linePtr + 1 in
      let valLen := CInt.uint8_t (CInt.size_t (len - (linePtr - start))) in
      if bool_decide (valLen > KREG_MAX_VAL_LEN)
      then Some (ParseErr KREG_VAL_TOO_LONG (Some _key)
                   (CInt.uint16_t (linePtr - line + KREG_MAX_VAL_LEN + 1)))
      else if bool_decide (valLen ≠ 0)
      then _value ← Mem.memcpy buf linePtr valLen; Some (ParseOk _key (Some _value))
      else Some (ParseOk _key None)
  end.

(** [parseKeyValue(&key, &value, line, len, &errPos)], where [line] points
    into the buffer [buf]: the leading spaces, two rounds of the terminator
    loop, then the key and the value. *)
Definition parseKeyValue (buf : list Z) (line len : Z) : parse_result :=
  from_option_fault (
    '(linePtr, len) ← skipSpaces (Mem.from buf line) line len;
    '(buf, len) ← stripEol linePtr (buf, len) ≫= stripEol linePtr;
    parseKeyAt buf line linePtr len).

(** ** keyregistry.c: the registry store *)

(** A cell of the linked list.  The list [keyValuePairs] is the list of its
    cells in order; [lastKey] is its last cell, where [storeKey] appends.
    A [NULL] value pointer is [None]. *)
Record KeyValuePair : Type := {
  key : list Z;
  value : option (list Z);
}.

#[global] Instance KeyValuePair_eq_dec : EqDecision KeyValuePair.
Proof. solve_decision. Defined.

(** The build-time switch [KREG_ALLOW_UPDATE]. *)
Inductive feature_switch : Set := FS_DISABLED | FS_ENABLED.

(** [searchKey]: the first cell whose key compares equal, as its position
    in the list.  The keys are blocks of the parser, without a NUL inside and
    without a terminator: they are compared by their contents, which is the
    result of [strcmp] when a NUL follows each block on the heap.
    [Blocks.searchKey] below has [strcmp] with the bounds of the blocks. *)
Fixpoint searchKey (k : list Z) (iter : list KeyValuePair) : option nat :=
  match iter with
  | [] => None
  | kv :: next => if bool_decide (k = key kv) then Some 0%nat else S <$> searchKey k next
  end.

(** [readKey(key, &value)]: the return code and the new [*value]. *)
Definition readKey (keyValuePairs : list KeyValuePair) (k : list Z)
    (v : option (list Z)) : kreg_ret * option (list Z) :=
  match searchKey k keyValuePairs ≫= (keyValuePairs !!.) with
  | None => (KREG_KEY_NOT_FOUND, v)
  | Some keyValue => (KREG_OK, value keyValue)
  end.

(** [storeKey(key, value)]: the return code and the new list. *)
Definition storeKey (KREG_ALLOW_UPDATE : feature_switch)
    (keyValuePairs : list KeyValuePair) (k : list Z) (v : option (list Z))
    : kreg_ret * list KeyValuePair :=
  match searchKey k keyValuePairs with
  | Some newKey =>
      match KREG_ALLOW_UPDATE with
      | FS_DISABLED => (KREG_KEY_EXISTS, keyValuePairs)
      | FS_ENABLED =>
          (KREG_OK, alter (λ kv, {| key := key kv; value := v |}) newKey keyValuePairs)
      end
  | None => (KREG_OK, keyValuePairs ++ [{| key := k; value := v |}])
  end.

(** ** keyregistry.c: the store, with the bounds of the key blocks

    [parseKeyValue] copies a key of [keyLen] bytes into [malloc(keyLen)] and
    a value of [valLen] bytes into [malloc(valLen)]: neither block has a
    terminator.  [searchKey], [readKey] and [storeKey] above compare the
    contents of the blocks, which is what [strcmp] returns when a NUL follows
    each block on the heap.  Here they are with the bounds of the blocks, as
    for every other buffer: a read behind a block is a fault. *)

Module Blocks.

(** [strcmp(a, b) == 0] for two blocks: the bytes are compared up to the
    first difference or the first NUL; [None] when that leaves a block. *)
Fixpoint strcmp_eq (a b : list Z) : option bool :=
  match a, b with
  | ca :: a', cb :: b' =>
      if bool_decide (ca = cb)
      then if bool_decide (ca = Char.NUL) then Some true else strcmp_eq a' b'
      else Some false
  | _, _ => None
  end.

(** The string that a pointer to a block is for [strlen], [strcmp] and
    [%s]: the bytes before the first NUL of the block; [None] when the block
    has no NUL. *)
Definition c_string (block : list Z) : option (list Z) :=
  n ← Mem.strlen block; Some (take (Z.to_nat n) block).

(** [searchKey]: the position of the first cell whose key compares equal,
    if there is one. *)
Fixpoint searchKey (k : list Z) (iter : list KeyValuePair) : option (option nat) :=
  match iter with
  | [] => Some None
  | kv :: next =>
      match strcmp_eq k (key kv) with
      | None => None
      | Some true => Some (Some 0%nat)
      | Some false =>
          match searchKey k next with
          | None => None
          | Some found => Some (S <$> found)
          end
      end
  end.

(** [readKey(key, &value)]. *)
Definition readKey (keyValuePairs : list KeyValuePair) (k : list Z)
    (v : option (list Z)) : option (kreg_ret * option (list Z)) :=
  found ← searchKey k keyValuePairs;
  Some match found ≫= (keyValuePairs !!.) with
       | None => (KREG_KEY_NOT_FOUND, v)
       | Some keyValue => (KREG_OK, value keyValue)
       end.

(** [storeKey(key, value)]. *)
Definition storeKey (KREG_ALLOW_UPDATE : feature_switch)
    (keyValuePairs : list KeyValuePair) (k : list Z) (v : option (list Z))
    : option (kreg_ret * list KeyValuePair) :=
  found ← searchKey k keyValuePairs;
  Some match found with
       | Some newKey =>
           match KREG_ALLOW_UPDATE with
           | FS_DISABLED => (KREG_KEY_EXISTS, keyValuePairs)
           | FS_ENABLED =>
               (KREG_OK,
                alter (λ kv, {| key := key kv; value := v |}) newKey keyValuePairs)
           end
       | None => (KREG_OK, keyValuePairs ++ [{| key := k; value := v |}])
       end.

End Blocks.

(** ** keyregistry.c: the module interface *)

(** The lines of a file as successive calls of [getline] return them: each
    ends with its LF, except a last line that the file leaves unterminated. *)
Fixpoint getlines (file : list Z) : list (list Z) :=
  match file with
  | [] => []
  | c :: file' =>
      if bool_decide (c = Char.LF) then [c] :: getlines file'
      else match getlines file' with
           | [] => [[c]]
           | l :: ls => (c :: l) :: ls
           end
  end.

(** The state a run of [KREG_ReadRegistryFile] leaves: the return code, the
    out-parameters [*lineNr] and [*errPos], and the list. *)
Record load_state : Type := {
  ld_ret : kreg_ret;
  ld_lineNr : Z;
  ld_errPos : Z;
  ld_keyValuePairs : list KeyValuePair;
}.

(** The [while (getline ...)] loop over the lines still to read.  [None] is
    a fault inside [parseKeyValue]. *)
Fixpoint readLoop (KREG_ALLOW_UPDATE : feature_switch) (lines : list (list Z))
    (lineCnt lineNr errPos : Z) (keyValuePairs : list KeyValuePair)
    : option load_state :=
  match lines with
  | [] => Some {| ld_ret := KREG_OK; ld_lineNr := lineNr; ld_errPos := errPos;
                  ld_keyValuePairs := keyValuePairs |}
  | line :: lines' =>
      let nread := Z.of_nat (length line) in
      let line := line ++ [Char.NUL] in
      let lineCnt := CInt.uint16_t (lineCnt + 1) in
      c ← Mem.load line 0;
      if bool_decide (c ≠ Char.CR) && bool_decide (c ≠ Char.LF) then
        match parseKeyValue line 0 nread with
        | ParseFault => None
        | ParseErr retVal _ errPos =>
            Some {| ld_ret := retVal; ld_lineNr := lineCnt; ld_errPos := errPos;
                    ld_keyValuePairs := keyValuePairs |}
        | ParseOk k v =>
            readLoop KREG_ALLOW_UPDATE lines' lineCnt 0 0
              (storeKey KREG_ALLOW_UPDATE keyValuePairs k v).2
        end
      else readLoop KREG_ALLOW_UPDATE lines' lineCnt lineNr errPos keyValuePairs
  end.

(** [KREG_ReadRegistryFile(fileName, &lineNr, &errPos)].  [file] is the
    content of the file, [None] when [fopen] fails; [lineNr] and [errPos] are
    the values the out-parameters have on entry. *)
Definition KREG_ReadRegistryFile (KREG_ALLOW_UPDATE : feature_switch)
    (file : option (list Z)) (lineNr errPos : Z)
    (keyValuePairs : list KeyValuePair) : option load_state :=
  match file with
  | None => Some {| ld_ret := KREG_ERR_REG_OPEN; ld_lineNr := lineNr;
                    ld_errPos := errPos; ld_keyValuePairs := keyValuePairs |}
  | Some content =>
      readLoop KREG_ALLOW_UPDATE (getlines content) 0 lineNr errPos keyValuePairs
  end.

(** What [KREG_GetKey] and [KREG_PutKey] leave: the return code, the
    out-parameters [*key] and [*value] ([None] is [NULL]), [*errPos] when it
    has been written, and the list. *)
Record kreg_call : Type := {
  retVal : kreg_ret;
  out_key : option (list Z);
  out_value : option (list Z);
  out_errPos : option Z;
  out_keyValuePairs : list KeyValuePair;
}.

(** [KREG_GetKey(str, &key, &value, &errPos)], [str] pointing into [buf]. *)
Definition KREG_GetKey (keyValuePairs : list KeyValuePair) (buf : list Z) (str : Z)
    : option kreg_call :=
  len ← Mem.strlen (Mem.from buf str);
  match parseKeyValue buf str len with
  | ParseFault => None
  | ParseErr code k errPos =>
      Some {| retVal := code; out_key := k; out_value := None;
              out_errPos := Some errPos; out_keyValuePairs := keyValuePairs |}
  | ParseOk k v =>
      let '(r, v') := readKey keyValuePairs k v in
      Some {| retVal := r; out_key := Some k; out_value := v';
              out_errPos := None; out_keyValuePairs := keyValuePairs |}
  end.

(** [KREG_PutKey(str, &key, &value, &errPos)], [str] pointing into [buf]. *)
Definition KREG_PutKey (KREG_ALLOW_UPDATE : feature_switch)
    (keyValuePairs : list KeyValuePair) (buf : list Z) (str : Z)
    : option kreg_call :=
  len ← Mem.strlen (Mem.from buf str);
  match parseKeyValue buf str len with
  | ParseFault => None
  | ParseErr code k errPos =>
      Some {| retVal := code; out_key := k; out_value := None;
              out_errPos := Some errPos; out_keyValuePairs := keyValuePairs |}
  | ParseOk k v =>
      let '(r, kvs) := storeKey KREG_ALLOW_UPDATE keyValuePairs k v in
      Some {| retVal := r; out_key := Some k; out_value := v;
              out_errPos := None; out_keyValuePairs := kvs |}
  end.

(** ** server.c: the command dispatcher *)

Module Server.

(** What [sprintf] prints for a [%s] argument: the bytes up to the first
    NUL, the string taken to end with the bytes copied into it, which is
    what is printed when a NUL follows the block on the heap
    ([Blocks.c_string] is the string within the bounds of the block).  For
    a [NULL] argument ISO C leaves the behaviour undefined; the GNU C library
    prints [(null)], and that is what is modelled. *)
Fixpoint c_str (s : list Z) : list Z :=
  match s with
  | [] => []
  | c :: s' => if bool_decide (c = Char.NUL) then [] else c :: c_str s'
  end.

Definition fmt_s (arg : option (list Z)) : list Z :=
  match arg with
  | Some s => c_str s
  | None => Char.bytes "(null)"
  end.

(** [createErrMsgToClient(sock, key, kregErr, errPos)]: the text left in
    [sendBuf].  [%d] prints the constants [KREG_MAX_KEY_LEN = 16] and
    [KREG_MAX_VAL_LEN = 32]. *)
Definition createErrMsgToClient (k : option (list Z)) (kregErr : kreg_ret) : list Z :=
  match kregErr with
  | KREG_KEY_EMPTY => Char.bytes "Key has not been provided" ++ [Char.LF]
  | KREG_KEY_INVALID =>
      Char.bytes "Key is invalid ... keys can contain digits and letters only" ++ [Char.LF]
  | KREG_KEY_TOO_LONG =>
      Char.bytes "Key is too long ... max key length is 16" ++ [Char.LF]
  | KREG_KEY_NOT_FOUND =>
      Char.bytes "Key [" ++ fmt_s k ++ Char.bytes "] not found in regisry" ++ [Char.LF]
  | KREG_KEY_EXISTS =>
      Char.bytes "Key [" ++ fmt_s k
        ++ Char.bytes "] already exists, updating keys are not allowed" ++ [Char.LF]
  | KREG_VAL_TOO_LONG =>
      Char.bytes "Value is too long ... max value length is 32" ++ [Char.LF]
  | _ => Char.bytes "Server Error" ++ [Char.LF]
  end.

(** [strncmp(lit, message, 3) == 0], [lit] a three-letter literal; [None]
    when the comparison leaves the buffer. *)
Fixpoint strncmp_eq (a b : list Z) (n : nat) : option bool :=
  match n with
  | O => Some true
  | S n' =>
      match a, b with
      | ca :: a', cb :: b' =>
          if bool_decide (ca = cb)
          then if bool_decide (ca = Char.NUL) then Some true else strncmp_eq a' b' n'
          else Some false
      | _, _ => None
      end
  end.

(** The loop [message[i] = tolower(message[i])] for [i < 3]. *)
Definition lowerCommand (message : list Z) : list Z :=
  foldl (λ m i, alter Char.tolower i m) message [0%nat; 1%nat; 2%nat].

(** What handling one message does: the bytes written to the socket, if any,
    whether the client has been removed, and the list afterwards. *)
Record handled : Type := {
  written : option (list Z);
  removed : bool;
  keyValuePairs : list KeyValuePair;
}.

(** The final [write(sock, sendBuf, strlen(sendBuf))]. *)
Definition reply (sendBuf : list Z) (kvs : list KeyValuePair) : option handled :=
  Some {| written := Some (c_str sendBuf); removed := false; keyValuePairs := kvs |}.

(** [processClientMessage(sock, message)], where [readSocket] has put the
    bytes [data] it read into the buffer and a NUL after them. *)
Definition processClientMessage (KREG_ALLOW_UPDATE : feature_switch)
    (kvs : list KeyValuePair) (data : list Z) : option handled :=
  let message := data ++ [Char.NUL] in
  messageLen ← Mem.strlen message;
  let message := if bool_decide (messageLen >= 3) then lowerCommand message else message in
  isput ← strncmp_eq (Char.bytes "put" ++ [Char.NUL]) message 3;
  if (isput : bool) then
    r ← KREG_PutKey KREG_ALLOW_UPDATE kvs message 3;
    match retVal (r : kreg_call) with
    | KREG_OK =>
        reply (Char.bytes "[" ++ fmt_s (out_key r) ++ Char.bytes "] <= ["
                 ++ fmt_s (out_value r) ++ Char.bytes "]" ++ [Char.LF])
              (out_keyValuePairs r)
    | e => reply (createErrMsgToClient (out_key r) e) (out_keyValuePairs r)
    end
  else
    isget ← strncmp_eq (Char.bytes "get" ++ [Char.NUL]) message 3;
    if (isget : bool) then
      r ← KREG_GetKey kvs message 3;
      match retVal (r : kreg_call) with
      | KREG_OK =>
          reply (Char.bytes "[" ++ fmt_s (out_key r) ++ Char.bytes "] => ["
                   ++ fmt_s (out_value r) ++ Char.bytes "]" ++ [Char.LF])
                (out_keyValuePairs r)
      | e => reply (createErrMsgToClient (out_key r) e) (out_keyValuePairs r)
      end
    else
      isbye ← strncmp_eq (Char.bytes "bye" ++ [Char.NUL]) message 3;
      if (isbye : bool) then
        Some {| written := None; removed := true; keyValuePairs := kvs |}
      else reply (Char.bytes "???" ++ [Char.LF]) kvs.

(** How [main] goes on after the registry has been read: it exits with
    [EXIT_FAILURE] after a diagnostic naming the result and [lineNr, colNr],
    or it enters [serverTask] with the list it has loaded. *)
Inductive startup : Type :=
  | Exit_failure (res : kreg_ret) (lineNr colNr : Z)
  | ServerTask (keyValuePairs : list KeyValuePair).

(** [main], from the call of [KREG_ReadRegistryFile] on. *)
Definition main (KREG_ALLOW_UPDATE : feature_switch) (file : option (list Z))
    : option startup :=
  st ← KREG_ReadRegistryFile KREG_ALLOW_UPDATE file 0 0 [];
  match ld_ret st with
  | KREG_OK => Some (ServerTask (ld_keyValuePairs st))
  | res => Some (Exit_failure res (ld_lineNr st) (ld_errPos st))
  end.

End Server.

(** ** server.c: the command line and the sockets *)

Module Daemon.

Import Server.

Definition DEFAULT_PORT : Z := 5555.
Definition READ_BUF_SIZE : Z := 256.
Definition DEFAULT_REGISTRY : list Z := Char.bytes "capitals.txt".
Definition UINT16_MAX : Z := 65535.
Definition FD_SETSIZE : Z := 1024.

(** A character constant. *)
Definition chr (s : string) : Z := default Char.NUL (head (Char.bytes s)).

(** The module variables that the command line sets.  As for the keys, the
    file name on the heap is the bytes that [sprintf] copies before the
    terminator.  What the functions print on [stdout] and [stderr] is left
    out throughout. *)
Record options : Type := {
  listeningPort : Z;
  keyRegistryFileName : option (list Z);
}.

Definition setDefaultPort (g : options) : options :=
  {| listeningPort := DEFAULT_PORT; keyRegistryFileName := keyRegistryFileName g |}.

Definition setDefaultRegistryFile (g : options) : options :=
  {| listeningPort := listeningPort g;
     keyRegistryFileName := Some (c_str DEFAULT_REGISTRY) |}.

(** What a call of [getopt(argc, argv, "p:f:")] gives the loop: the option
    [p] with the number that [strtol(optarg, NULL, 0)] finds in its
    argument, the option [f] with its argument, ['?'] with [optopt] for an
    option that is unknown or lacks its argument, or any other character. *)
Inductive getopt_ret : Type :=
  | opt_p (port : Z)
  | opt_f (optarg : list Z)
  | opt_error (optopt : Z)
  | opt_other (opt : Z).

(** The body of the [while] loop: the module variables and the two flags. *)
Definition optStep (st : options * (bool * bool)) (o : getopt_ret)
    : options * (bool * bool) :=
  let '(g, (pFlag, fFlag)) := st in
  match o with
  | opt_p port =>
      (if bool_decide (port < 1024) || bool_decide (port > UINT16_MAX)
       then {| listeningPort := DEFAULT_PORT;
               keyRegistryFileName := keyRegistryFileName g |}
       else {| listeningPort := CInt.uint16_t port;
               keyRegistryFileName := keyRegistryFileName g |},
       (true, fFlag))
  | opt_f optarg =>
      ({| listeningPort := listeningPort g;
          keyRegistryFileName := Some (c_str optarg) |},
       (pFlag, true))
  | opt_error optopt =>
      if bool_decide (optopt = chr "p") then (setDefaultPort g, (pFlag, fFlag))
      else if bool_decide (optopt = chr "f")
      then (setDefaultRegistryFile g, (pFlag, fFlag))
      else (g, (pFlag, fFlag))
  | opt_other _ => (g, (pFlag, fFlag))
  end.

(** [processCmdLineOpts(argc, argv)], over what [getopt] returns until it
    returns -1. *)
Definition processCmdLineOpts (g : options) (opts : list getopt_ret) : options :=
  let '(g, (pFlag, fFlag)) := foldl optStep (g, (false, false)) opts in
  let g := if pFlag then g else setDefaultPort g in
  if fFlag then g else setDefaultRegistryFile g.

(** The descriptor sets: a bit for each descriptor below [FD_SETSIZE].
    The macros index the array with the descriptor as it is. *)
Definition FD_ISSET (fd : Z) (set : list bool) : option bool :=
  if bool_decide (0 ≤ fd) then set !! Z.to_nat fd else None.

Definition FD_write (fd : Z) (b : bool) (set : list bool) : option (list bool) :=
  if bool_decide (0 ≤ fd < Z.of_nat (length set))
  then Some (<[Z.to_nat fd := b]> set) else None.

Definition FD_SET : Z → list bool → option (list bool) := λ fd, FD_write fd true.
Definition FD_CLR : Z → list bool → option (list bool) := λ fd, FD_write fd false.

(** What [read(sock, buffer, READ_BUF_SIZE)] returns: -1, or the number of
    the bytes that it has put at the start of the buffer, none at the end of
    the file. *)
Inductive read_ret : Type :=
  | read_error
  | read_bytes (data : list Z).

(** How a function that can end the process comes back. *)
Inductive run (A : Type) : Type :=
  | Exit_FAILURE
  | Returns (a : A).
Arguments Exit_FAILURE {A}.
Arguments Returns {A} _.

(** The state of the server between two requests. *)
Record server : Type := {
  active_fd_set : list bool;
  registry : list KeyValuePair;
}.

(** [removeClient(sock)] and [addClient(sock, &client)]. *)
Definition removeClient (sock : Z) (s : server) : option server :=
  set ← FD_CLR sock (active_fd_set s);
  Some {| active_fd_set := set; registry := registry s |}.

Definition addClient (sock : Z) (s : server) : option server :=
  set ← FD_SET sock (active_fd_set s);
  Some {| active_fd_set := set; registry := registry s |}.

(** [readSocket(sock)], for the content [buffer] of the array on entry and
    the result [r] of [read]: the return value, what has been written to
    the socket, and the state.  [processClientMessage] works on the string
    at the start of the buffer, that is on the bytes read and the terminator
    behind them. *)
Definition readSocket (KREG_ALLOW_UPDATE : feature_switch) (sock : Z)
    (buffer : list Z) (r : read_ret) (s : server)
    : option (run (Z * option (list Z) * server)) :=
  match r with
  | read_error => Some Exit_FAILURE
  | read_bytes data =>
      let nbytes := Z.of_nat (length data) in
      let buffer := data ++ drop (length data) buffer in
      if bool_decide (nbytes = 0) then Some (Returns (-1, None, s))
      else
        _ ← Mem.store buffer nbytes Char.NUL;
        h ← processClientMessage KREG_ALLOW_UPDATE (registry s) data;
        let s := {| active_fd_set := active_fd_set s; registry := keyValuePairs h |} in
        s ← (if removed h then removeClient sock s else Some s);
        Some (Returns (0, written h, s))
  end.

(** The body of the loop of [serverTask] over the descriptors, for a
    descriptor [i] that is set in [read_fd_set]: [new] is what [accept]
    returns, [buffer] and [r] are those of [readSocket].  When [accept]
    fails the code calls [perror] and goes on to [addClient]. *)
Definition serviceDescriptor (KREG_ALLOW_UPDATE : feature_switch) (sock i : Z)
    (new : Z) (buffer : list Z) (r : read_ret) (s : server)
    : option (run (option (list Z) * server)) :=
  if bool_decide (i = sock) then
    s ← addClient new s;
    Some (Returns (None, s))
  else
    res ← readSocket KREG_ALLOW_UPDATE i buffer r s;
    match res with
    | Exit_FAILURE => Some Exit_FAILURE
    | Returns (ret, written, s) =>
        if bool_decide (ret < 0)
        then s ← removeClient i s; Some (Returns (written, s))
        else Some (Returns (written, s))
    end.

End Daemon.

(** * The vocabulary of the properties *)

(** A line as [KREG_ReadRegistryFile] passes it: [getline] hands the line
    out at the start of a NUL-terminated buffer, with its length. *)
Definition parseLine (s : list Z) : parse_result :=
  parseKeyValue (s ++ [Char.NUL]) 0 (Z.of_nat (length s)).

(** Letters and digits; line terminators. *)
Definition alnum (c : Z) : Prop := Char.isalpha c || Char.isdigit c = true.
Definition eol (c : Z) : Prop := c = Char.LF ∨ c = Char.CR.

#[global] Instance alnum_dec c : Decision (alnum c).
Proof. unfold alnum. apply _. Defined.
#[global] Instance eol_dec c : Decision (eol c).
Proof. unfold eol. apply _. Defined.

(** The separator and the value that follow a key on a line: nothing when
    the value is empty. *)
Definition valuePart (V : list Z) : list Z :=
  match V with [] => [] | _ => Char.SPACE :: V end.

(** The value pointer the parser leaves: [NULL] for the empty value. *)
Definition valueOut (V : list Z) : option (list Z) :=
  match V with [] => None | _ => Some V end.

Definition lastNotEol (V : list Z) : Prop := ∀ c, last V = Some c → ¬ eol c.

(** The command of a message: its first three bytes in lower case. *)
Definition command (data : list Z) : option (list Z) :=
  match data with
  | a :: b :: c :: _ => Some [Char.tolower a; Char.tolower b; Char.tolower c]
  | _ => None
  end.

Definition cmd_put : list Z := Char.bytes "put".
Definition cmd_get : list Z := Char.bytes "get".
Definition cmd_bye : list Z := Char.bytes "bye".

(** What the first lines of [processClientMessage] establish: the length of
    the message, and the message with its command in lower case. *)
Definition lowered (data : list Z) : option (list Z) :=
  let message := data ++ [Char.NUL] in
  messageLen ← Mem.strlen message;
  Some (if bool_decide (messageLen >= 3) then Server.lowerCommand message else message).

(** The line counter of the loader after [n] more lines. *)
Fixpoint countLines (n : nat) (lineCnt : Z) : Z :=
  match n with
  | O => lineCnt
  | S n' => countLines n' (CInt.uint16_t (lineCnt + 1))
  end.

(** Bytes that a C string can hold before its terminator. *)
Definition nonNUL (c : Z) : Prop := c ≠ Char.NUL.

(** A registry file whose third line has a character that no key admits in
    column 5. *)
Definition capitals : list Z :=
  Char.bytes "hungary Budapest" ++ [Char.LF] ++ Char.bytes "japan Tokyo" ++ [Char.LF]
  ++ Char.bytes "abcd!" ++ [Char.LF] ++ Char.bytes "france Paris" ++ [Char.LF].

(** What [KREG_GetKey] and [KREG_PutKey] get from [parseKeyValue] for the
    text behind the three bytes of the command [cmd]. *)
Definition argument (cmd data : list Z) : parse_result :=
  let message := cmd ++ drop 3 data ++ [Char.NUL] in
  from_option_fault (len ← Mem.strlen (Mem.from message 3);
                     Some (parseKeyValue message 3 len)).

(** An option that leaves the port and its flag as they are. *)
Definition keepsPort (o : Daemon.getopt_ret) : Prop :=
  match o with
  | Daemon.opt_p _ => False
  | Daemon.opt_error optopt => optopt ≠ Daemon.chr "p"
  | _ => True
  end.

(** A decidable proposition about concrete data, settled by evaluation. *)
Ltac by_evaluation := apply (bool_decide_unpack _); vm_compute; exact I.

(** * Properties *)

(** ** Fixed-width arithmetic *)

Section CIntFacts.

Import CInt.

Lemma wrap_small w x : 0 ≤ x < 2 ^ w → wrap w x = x.
Proof. intros. unfold wrap. by apply Z.mod_small. Qed.

Lemma size_t_small x : 0 ≤ x < 2 ^ 64 → size_t x = x.
Proof. apply wrap_small. Qed.

Lemma size_t_sub_l x y : size_t (size_t x - y) = size_t (x - y).
Proof. unfold size_t, wrap. by rewrite Zminus_mod_idemp_l. Qed.

Lemma ptrdiff_t_small x : 0 ≤ x < 2 ^ 63 → ptrdiff_t (size_t x) = x.
Proof.
  intros Hx. unfold ptrdiff_t, size_t, wrap.
  rewrite Z.mod_mod by lia. rewrite Z.mod_small by lia.
  by rewrite bool_decide_true by lia.
Qed.

Lemma ptrdiff_t_minus_one : ptrdiff_t (size_t (0 - 1)) = -1.
Proof. reflexivity. Qed.

Lemma uint8_t_size_t x : uint8_t (size_t x) = uint8_t x.
Proof.
  unfold uint8_t, size_t, wrap.
  apply Z.mod_mod_divide. exists (2 ^ 56). lia.
Qed.

Lemma uint8_t_le x : 0 ≤ x → 0 ≤ uint8_t x ≤ x.
Proof.
  intros Hx. unfold uint8_t, wrap. split; [apply Z.mod_pos_bound; lia |].
  apply Z.mod_le; lia.
Qed.

End CIntFacts.

(** ** Buffers *)

Section MemFacts.

Implicit Types (m pre post l : list Z) (i n : nat).

Lemma load_of_nat m i : Mem.load m (Z.of_nat i) = m !! i.
Proof.
  unfold Mem.load. rewrite bool_decide_true by lia. by rewrite Nat2Z.id.
Qed.

Lemma load_Some m p c :
  Mem.load m p = Some c ↔ 0 ≤ p ∧ m !! Z.to_nat p = Some c.
Proof.
  unfold Mem.load. case_bool_decide as Hp.
  - split; [by intros ? | by intros [_ ?]].
  - split; [done | intros [? _]; lia].
Qed.

Lemma from_of_nat m i : Mem.from m (Z.of_nat i) = drop i m.
Proof.
  unfold Mem.from. rewrite bool_decide_true by lia. by rewrite Nat2Z.id.
Qed.

Lemma from_app pre l : Mem.from (pre ++ l) (Z.of_nat (length pre)) = l.
Proof. rewrite from_of_nat. by rewrite drop_app_length. Qed.

Lemma memcpy_of_nat m i n :
  (i + n ≤ length m)%nat →
  Mem.memcpy m (Z.of_nat i) (Z.of_nat n) = Some (take n (drop i m)).
Proof.
  intros H. unfold Mem.memcpy. rewrite bool_decide_true by lia.
  by rewrite !Nat2Z.id.
Qed.

Lemma memcpy_app pre l post :
  Mem.memcpy (pre ++ l ++ post) (Z.of_nat (length pre)) (Z.of_nat (length l)) = Some l.
Proof.
  rewrite memcpy_of_nat by (rewrite !length_app; lia).
  by rewrite drop_app_length, take_app_length.
Qed.

Lemma memcpy_is_Some m p (n : Z) :
  0 ≤ p → 0 ≤ n → p + n ≤ Z.of_nat (length m) → is_Some (Mem.memcpy m p n).
Proof.
  intros. unfold Mem.memcpy. rewrite bool_decide_true by lia. eauto.
Qed.

End MemFacts.

(** ** The stages of the parser *)

Lemma alnum_range c :
  alnum c ↔ (48 ≤ c ≤ 57) ∨ (65 ≤ c ≤ 90) ∨ (97 ≤ c ≤ 122).
Proof.
  unfold alnum, Char.isalpha, Char.isupper, Char.islower, Char.isdigit.
  rewrite !orb_true_iff, !bool_decide_eq_true. tauto.
Qed.

Lemma alnum_not_special c :
  alnum c → c ≠ Char.SPACE ∧ c ≠ Char.NUL ∧ ¬ eol c.
Proof.
  rewrite alnum_range. unfold eol, Char.SPACE, Char.NUL, Char.LF, Char.CR. lia.
Qed.

Section Stages.

Import CInt.

Lemma skipSpaces_spaces (s : nat) c rest p len :
  c ≠ Char.SPACE → 0 ≤ len < 2 ^ 64 →
  skipSpaces (replicate s Char.SPACE ++ c :: rest) p len
  = Some (p + Z.of_nat s, size_t (len - Z.of_nat s)).
Proof.
  intros Hc. revert p len.
  induction s as [|s IH]; intros p len Hlen; cbn [replicate app skipSpaces].
  - rewrite bool_decide_false by done.
    rewrite Z.add_0_r, Z.sub_0_r, size_t_small by done. done.
  - rewrite bool_decide_true by done.
    rewrite IH by (apply Z.mod_pos_bound; lia).
    rewrite size_t_sub_l. do 2 f_equal; [lia|]. f_equal. lia.
Qed.

(** A round of the terminator loop leaves a line alone when its last byte
    is no terminator. *)
Lemma stripEol_keep p buf len c :
  0 ≤ p → 1 ≤ len < 2 ^ 63 →
  buf !! Z.to_nat (p + len - 1) = Some c → ¬ eol c →
  stripEol p (buf, len) = Some (buf, len).
Proof.
  intros Hp Hlen Hc Hne. unfold stripEol.
  rewrite ptrdiff_t_small by lia.
  replace (p + (len - 1)) with (p + len - 1) by lia.
  assert (Mem.load buf (p + len - 1) = Some c) as ->.
  { apply load_Some. split; [lia | done]. }
  simpl. unfold eol in Hne.
  destruct (bool_decide (c = Char.LF)) eqn:E1; [apply bool_decide_eq_true in E1; tauto|].
  destruct (bool_decide (c = Char.CR)) eqn:E2; [apply bool_decide_eq_true in E2; tauto|].
  done.
Qed.

(** What a round of the terminator loop keeps, whatever the last byte is.
    With [len = 0] the byte examined is the one before [linePtr]: the round
    is harmless when that byte exists and is no terminator. *)
Lemma stripEol_inv p buf len :
  0 ≤ p → 0 ≤ len < 2 ^ 63 →
  (len = 0 → ∃ c, 1 ≤ p ∧ buf !! Z.to_nat (p - 1) = Some c ∧ ¬ eol c) →
  buf !! Z.to_nat (p + len) = Some Char.NUL →
  ∃ buf' len',
    stripEol p (buf, len) = Some (buf', len') ∧
    len - 1 ≤ len' ≤ len ∧ 0 ≤ len' ∧
    length buf' = length buf ∧
    buf' !! Z.to_nat (p + len') = Some Char.NUL ∧
    (∀ i c, buf !! i = Some c → ¬ eol c → buf' !! i = Some c).
Proof.
  intros Hp Hlen Hguard Hnul. unfold stripEol.
  destruct (decide (len = 0)) as [-> | Hpos].
  - destruct (Hguard eq_refl) as (c & Hp1 & Hc & Hne).
    rewrite ptrdiff_t_minus_one.
    assert (Mem.load buf (p + -1) = Some c) as ->.
    { apply load_Some. split; [lia|]. by replace (p + -1) with (p - 1) by lia. }
    simpl. unfold eol in Hne.
    rewrite !bool_decide_false by tauto. simpl.
    exists buf, 0. repeat split; auto; lia.
  - rewrite ptrdiff_t_small by lia.
    assert (Z.to_nat (p + (len - 1)) < length buf)%nat as Hin.
    { apply lookup_lt_Some in Hnul. lia. }
    destruct (lookup_lt_is_Some_2 _ _ Hin) as [c Hc].
    assert (Mem.load buf (p + (len - 1)) = Some c) as ->.
    { apply load_Some. split; [lia | done]. }
    simpl.
    destruct (bool_decide (c = Char.LF) || bool_decide (c = Char.CR)) eqn:E.
    + unfold Mem.store. rewrite bool_decide_true by lia. simpl.
      rewrite size_t_small by lia.
      exists (<[Z.to_nat (p + (len - 1)) := Char.NUL]> buf), (len - 1).
      repeat split; try lia.
      * by rewrite length_insert.
      * replace (p + (len - 1)) with (p + (len - 1)) by lia.
        by apply list_lookup_insert_eq.
      * intros i c' Hi Hne.
        destruct (decide (i = Z.to_nat (p + (len - 1)))) as [-> | Hi'].
        -- rewrite Hc in Hi. injection Hi as <-.
           apply orb_true_iff in E. unfold eol in Hne.
           rewrite !bool_decide_eq_true in E. tauto.
        -- by rewrite list_lookup_insert_ne.
    + exists buf, len. repeat split; auto; lia.
Qed.

(** The key loop runs through a run of letters and digits. *)
Lemma keyLoop_alnum K rest p keyLen :
  Forall alnum K → 0 ≤ keyLen → keyLen + Z.of_nat (length K) ≤ KREG_MAX_KEY_LEN →
  keyLoop (K ++ rest) p keyLen
  = keyLoop rest (p + Z.of_nat (length K)) (keyLen + Z.of_nat (length K)).
Proof.
  unfold KREG_MAX_KEY_LEN.
  intros HK. revert p keyLen. induction HK as [|c K Hc HK IH]; intros p keyLen H0 Hle.
  - simpl. by rewrite !Z.add_0_r.
  - simpl in Hle. cbn [app keyLoop]. unfold alnum in Hc. rewrite Hc.
    unfold uint16_t. rewrite wrap_small by lia.
    unfold KREG_MAX_KEY_LEN. rewrite bool_decide_false by lia.
    rewrite IH by lia. simpl length. f_equal; lia.
Qed.

End Stages.

(** ** The key and the value *)

Section KeyAndValue.

Import CInt.

Lemma parseKeyAt_accept A K V post line :
  Forall alnum K → (1 ≤ length K ≤ 16)%nat → (length V ≤ 32)%nat →
  parseKeyAt (A ++ K ++ valuePart V ++ Char.NUL :: post) line
    (Z.of_nat (length A)) (Z.of_nat (length (K ++ valuePart V)))
  = Some (ParseOk K (valueOut V)).
Proof.
  intros HK HlenK HlenV. unfold parseKeyAt.
  rewrite from_app, keyLoop_alnum by (unfold KREG_MAX_KEY_LEN; done || lia).
  rewrite Z.add_0_l.
  assert (∀ tail, Mem.memcpy (A ++ K ++ tail)
            (Z.of_nat (length A)) (Z.of_nat (length K)) = Some K) as HcpK
    by (intros; apply memcpy_app).
  destruct V as [|v V]; cbn [valuePart valueOut app keyLoop].
  - assert (Char.isalpha Char.NUL || Char.isdigit Char.NUL = false) as -> by done.
    rewrite bool_decide_false by done. rewrite bool_decide_true by done.
    rewrite bool_decide_false by lia. by rewrite HcpK.
  - assert (Char.isalpha Char.SPACE || Char.isdigit Char.SPACE = false) as -> by done.
    rewrite bool_decide_true by done. rewrite HcpK. cbn [mbind option_bind].
    rewrite uint8_t_size_t. rewrite length_app. cbn [length] in *.
    match goal with |- context [uint8_t ?x] =>
      replace x with (Z.of_nat (S (length V))) by lia end.
    unfold uint8_t. rewrite wrap_small by lia.
    unfold KREG_MAX_VAL_LEN.
    rewrite bool_decide_false by lia. rewrite bool_decide_true by lia.
    replace (Z.of_nat (length A) + Z.of_nat (length K) + 1)
      with (Z.of_nat (length (A ++ K ++ [Char.SPACE])))
      by (rewrite !length_app; cbn [length]; lia).
    change (S (length V)) with (length (v :: V)).
    assert (A ++ K ++ Char.SPACE :: v :: V ++ Char.NUL :: post
            = (A ++ K ++ [Char.SPACE]) ++ (v :: V) ++ Char.NUL :: post) as ->
      by (by rewrite <- !app_assoc).
    by rewrite memcpy_app.
Qed.

Lemma parseKeyAt_value_too_long A K V post line :
  Forall alnum K → (1 ≤ length K ≤ 16)%nat → (33 ≤ length V ≤ 255)%nat →
  parseKeyAt (A ++ K ++ valuePart V ++ Char.NUL :: post) line
    (Z.of_nat (length A)) (Z.of_nat (length (K ++ valuePart V)))
  = Some (ParseErr KREG_VAL_TOO_LONG (Some K)
            (uint16_t (Z.of_nat (length A) + Z.of_nat (length K) + 1 - line
                       + KREG_MAX_VAL_LEN + 1))).
Proof.
  intros HK HlenK HlenV. unfold parseKeyAt.
  rewrite from_app, keyLoop_alnum by (unfold KREG_MAX_KEY_LEN; done || lia).
  rewrite Z.add_0_l.
  assert (∀ tail, Mem.memcpy (A ++ K ++ tail)
            (Z.of_nat (length A)) (Z.of_nat (length K)) = Some K) as HcpK
    by (intros; apply memcpy_app).
  destruct V as [|v V]; [simpl in HlenV; lia|]. cbn [valuePart app keyLoop].
  assert (Char.isalpha Char.SPACE || Char.isdigit Char.SPACE = false) as -> by done.
  rewrite bool_decide_true by done. rewrite HcpK. cbn [mbind option_bind].
  rewrite uint8_t_size_t. rewrite length_app. cbn [length] in *.
  match goal with |- context [uint8_t ?x] =>
    replace x with (Z.of_nat (S (length V))) by lia end.
  unfold uint8_t. rewrite wrap_small by lia.
  unfold KREG_MAX_VAL_LEN.
  by rewrite bool_decide_true by lia.
Qed.

Lemma parseKeyAt_too_long buf K rest line (start : nat) len :
  Forall alnum K → length K = 17%nat →
  drop start buf = K ++ rest →
  parseKeyAt buf line (Z.of_nat start) len
  = Some (ParseErr KREG_KEY_TOO_LONG None (uint16_t (Z.of_nat start + 17 - line))).
Proof.
  intros HK Hlen Hbuf. unfold parseKeyAt.
  rewrite from_of_nat, Hbuf.
  destruct K as [|c K16 _] using rev_ind; [done|].
  rewrite length_app in Hlen. cbn [length] in Hlen.
  apply Forall_app in HK as [HK16 Hc]. rewrite Forall_singleton in Hc.
  rewrite <- app_assoc.
  rewrite keyLoop_alnum by (unfold KREG_MAX_KEY_LEN; done || lia).
  cbn [app keyLoop]. unfold alnum in Hc. rewrite Hc.
  replace (0 + Z.of_nat (length K16) + 1) with 17 by lia.
  rewrite bool_decide_true by done.
  do 3 f_equal. lia.
Qed.

(** The key loop stops at the first NUL at the latest. *)
Lemma keyLoop_bounds rest (j : nat) p keyLen :
  rest !! j = Some Char.NUL → 0 ≤ keyLen ≤ KREG_MAX_KEY_LEN →
  match keyLoop rest p keyLen with
  | KeyFault => False
  | KeySeparator q kl =>
      p ≤ q < p + Z.of_nat j ∧ kl = keyLen + (q - p) ∧ kl ≤ KREG_MAX_KEY_LEN
  | KeyTerminal q kl =>
      p ≤ q ≤ p + Z.of_nat j ∧ kl = keyLen + (q - p) ∧ kl ≤ KREG_MAX_KEY_LEN
  | KeyTooLong _ | KeyInvalid _ => True
  end.
Proof.
  revert j p keyLen. induction rest as [|c rest IH]; intros j p keyLen Hj Hk; [done|].
  cbn [keyLoop].
  destruct (Char.isalpha c || Char.isdigit c) eqn:Hc.
  - destruct (decide (keyLen + 1 > KREG_MAX_KEY_LEN)) as [Hgt | Hle];
      unfold KREG_MAX_KEY_LEN in *.
    + unfold uint16_t. rewrite wrap_small by lia. by rewrite bool_decide_true.
    + unfold uint16_t. rewrite wrap_small by lia. rewrite bool_decide_false by done.
      destruct j as [|j]; [injection Hj as ->; done|].
      specialize (IH j (p + 1) (keyLen + 1) Hj ltac:(lia)).
      destruct (keyLoop rest (p + 1) (keyLen + 1)); try done; lia.
  - destruct (bool_decide (c = Char.SPACE)) eqn:Hs.
    + destruct j as [|j]; [injection Hj as ->; done|]. lia.
    + destruct (bool_decide (c = Char.NUL)) eqn:Hn; [lia | done].
Qed.

End KeyAndValue.

(** ** Lines the parser accepts *)

Section Accept.

Import CInt.

Lemma line_last K V :
  Forall alnum K → K ≠ [] → lastNotEol V →
  ∃ front c, K ++ valuePart V = front ++ [c] ∧ ¬ eol c.
Proof.
  intros HK HK0 HV.
  destruct V as [|c V _] using rev_ind.
  - destruct K as [|c K _] using rev_ind; [done|].
    exists K, c. split; [by rewrite app_nil_r|].
    apply Forall_app in HK as [_ Hc]. rewrite Forall_singleton in Hc.
    by apply alnum_not_special.
  - exists (K ++ Char.SPACE :: V), c. split.
    + destruct V; by rewrite <- app_assoc.
    + apply HV. by rewrite last_snoc.
Qed.

(** On a line that starts, after [s] spaces, with a byte that is no space
    and that does not end in a line terminator, the first two loops only
    move [linePtr] over the spaces. *)
Lemma parseKeyValue_plain pre (s : nat) c0 body front c post :
  head body = Some c0 → c0 ≠ Char.SPACE →
  body = front ++ [c] → ¬ eol c →
  Z.of_nat (length (replicate s Char.SPACE ++ body)) < 2 ^ 63 →
  parseKeyValue (pre ++ (replicate s Char.SPACE ++ body) ++ Char.NUL :: post)
    (Z.of_nat (length pre))
    (Z.of_nat (length (replicate s Char.SPACE ++ body)))
  = from_option_fault
      (parseKeyAt ((pre ++ replicate s Char.SPACE) ++ body ++ Char.NUL :: post)
         (Z.of_nat (length pre))
         (Z.of_nat (length (pre ++ replicate s Char.SPACE)))
         (Z.of_nat (length body))).
Proof.
  intros Hhead Hc0 Hfront Hc Hsize.
  rewrite length_app, length_replicate in Hsize.
  unfold parseKeyValue. rewrite from_app.
  destruct body as [|b0 body'] eqn:Ebody; [done|]. injection Hhead as ->.
  rewrite <- Ebody in *.
  assert ((replicate s Char.SPACE ++ body) ++ Char.NUL :: post
          = replicate s Char.SPACE ++ c0 :: (body' ++ Char.NUL :: post)) as ->.
  { rewrite Ebody. by rewrite <- !app_assoc. }
  rewrite skipSpaces_spaces; [| done | rewrite !length_app, length_replicate; lia].
  cbn [mbind option_bind].
  rewrite size_t_small by (rewrite !length_app, length_replicate; lia).
  replace (Z.of_nat (length (replicate s Char.SPACE ++ body)) - Z.of_nat s)
    with (Z.of_nat (length body))
    by (rewrite !length_app, length_replicate; lia).
  set (A := pre ++ replicate s Char.SPACE).
  replace (Z.of_nat (length pre) + Z.of_nat s) with (Z.of_nat (length A))
    by (unfold A; rewrite length_app, length_replicate; lia).
  assert (pre ++ replicate s Char.SPACE ++ c0 :: body' ++ Char.NUL :: post
          = A ++ body ++ Char.NUL :: post) as ->.
  { unfold A. rewrite Ebody. by rewrite <- !app_assoc. }
  assert (stripEol (Z.of_nat (length A))
            (A ++ body ++ Char.NUL :: post, Z.of_nat (length body))
          = Some (A ++ body ++ Char.NUL :: post, Z.of_nat (length body))) as Hstrip.
  { assert (1 ≤ length body)%nat by (rewrite Ebody; cbn [length]; lia).
    apply (stripEol_keep _ _ _ c); [lia | lia | | done].
    rewrite Hfront, length_app. cbn [length].
    replace (Z.to_nat (Z.of_nat (length A) + Z.of_nat (length front + 1) - 1))
      with (length (A ++ front)) by (rewrite length_app; lia).
    rewrite <- (app_assoc front), (app_assoc A). cbn [app].
    apply list_lookup_middle. done. }
  rewrite Hstrip. cbn [mbind option_bind]. rewrite Hstrip.
  done.
Qed.

(** A line of [s] spaces, a key of 1 to 16 letters and digits and, after one
    space, a value of at most 32 bytes that does not end in a line terminator
    is accepted, with that key and that value, wherever the line lies in
    its buffer. *)
Lemma parseKeyValue_accept pre (s : nat) K V post :
  Forall alnum K → (1 ≤ length K ≤ 16)%nat →
  (length V ≤ 32)%nat → lastNotEol V →
  Z.of_nat s < 2 ^ 62 →
  parseKeyValue (pre ++ (replicate s Char.SPACE ++ K ++ valuePart V) ++ Char.NUL :: post)
    (Z.of_nat (length pre))
    (Z.of_nat (length (replicate s Char.SPACE ++ K ++ valuePart V)))
  = ParseOk K (valueOut V).
Proof.
  intros HK HlenK HlenV HV Hs.
  assert (K ≠ []) as HK0 by (intros ->; simpl in HlenK; lia).
  assert (length (valuePart V) ≤ 33)%nat as Hvp by (destruct V; simpl in *; lia).
  destruct (line_last K V HK HK0 HV) as (front & c & Hfront & Hc).
  destruct K as [|k0 K'] eqn:EK; [done|]. rewrite <- EK in *.
  assert (k0 ≠ Char.SPACE) as Hk0.
  { rewrite EK in HK. apply Forall_cons in HK as [Hk _].
    by apply alnum_not_special in Hk as (? & _). }
  rewrite (parseKeyValue_plain pre s k0 (K ++ valuePart V) front c post);
    [| by rewrite EK | done | done | done
     | rewrite !length_app, length_replicate; lia].
  rewrite <- (app_assoc K (valuePart V)).
  by rewrite parseKeyAt_accept.
Qed.

(** On such a line a value of 33 to 255 bytes is rejected, at the position
    of its 33rd byte. *)
Lemma parseKeyValue_value_too_long pre (s : nat) K V post :
  Forall alnum K → (1 ≤ length K ≤ 16)%nat →
  (33 ≤ length V ≤ 255)%nat → lastNotEol V →
  Z.of_nat s < 2 ^ 62 →
  parseKeyValue (pre ++ (replicate s Char.SPACE ++ K ++ valuePart V) ++ Char.NUL :: post)
    (Z.of_nat (length pre))
    (Z.of_nat (length (replicate s Char.SPACE ++ K ++ valuePart V)))
  = ParseErr KREG_VAL_TOO_LONG (Some K)
      (uint16_t (Z.of_nat s + Z.of_nat (length K) + 1 + KREG_MAX_VAL_LEN + 1)).
Proof.
  intros HK HlenK HlenV HV Hs.
  assert (K ≠ []) as HK0 by (intros ->; simpl in HlenK; lia).
  assert (length (valuePart V) = S (length V)) as Hvp
    by (destruct V; simpl in *; lia).
  destruct (line_last K V HK HK0 HV) as (front & c & Hfront & Hc).
  destruct K as [|k0 K'] eqn:EK; [done|]. rewrite <- EK in *.
  assert (k0 ≠ Char.SPACE) as Hk0.
  { rewrite EK in HK. apply Forall_cons in HK as [Hk _].
    by apply alnum_not_special in Hk as (? & _). }
  rewrite (parseKeyValue_plain pre s k0 (K ++ valuePart V) front c post);
    [| by rewrite EK | done | done | done
     | rewrite !length_app, length_replicate; lia].
  rewrite <- (app_assoc K (valuePart V)).
  rewrite parseKeyAt_value_too_long by done.
  cbn [from_option_fault]. do 2 f_equal.
  rewrite length_app, length_replicate. lia.
Qed.

End Accept.

(** ** Keys that are too long *)

Section TooLong.

Import CInt.

Lemma drop_prefix_lookup (buf K : list Z) (P : nat) :
  (∀ i c, K !! i = Some c → buf !! (P + i)%nat = Some c) →
  ∃ rest, drop P buf = K ++ rest.
Proof.
  intros H. exists (drop (length K) (drop P buf)).
  rewrite <- (take_drop (length K) (drop P buf)) at 1. f_equal.
  apply list_eq. intros i.
  destruct (K !! i) as [c|] eqn:E.
  - rewrite lookup_take_lt by (by apply lookup_lt_Some in E).
    rewrite lookup_drop. by apply H.
  - apply lookup_ge_None in E. by rewrite lookup_take_ge.
Qed.

(** A line whose key part starts with 17 letters or digits is rejected at
    the 17th, whatever follows. *)
Lemma parseKeyValue_too_long pre (s : nat) K rest post :
  Forall alnum K → length K = 17%nat →
  Z.of_nat (length (replicate s Char.SPACE ++ K ++ rest)) < 2 ^ 63 →
  parseKeyValue (pre ++ (replicate s Char.SPACE ++ K ++ rest) ++ Char.NUL :: post)
    (Z.of_nat (length pre))
    (Z.of_nat (length (replicate s Char.SPACE ++ K ++ rest)))
  = ParseErr KREG_KEY_TOO_LONG None (uint16_t (Z.of_nat s + 17)).
Proof.
  intros HK HlenK Hsize.
  rewrite !length_app, length_replicate in Hsize.
  unfold parseKeyValue. rewrite from_app.
  destruct K as [|k0 K'] eqn:EK; [done|]. rewrite <- EK in *.
  assert (k0 ≠ Char.SPACE) as Hk0.
  { rewrite EK in HK. apply Forall_cons in HK as [Hk _].
    by apply alnum_not_special in Hk as (? & _). }
  assert ((replicate s Char.SPACE ++ K ++ rest) ++ Char.NUL :: post
          = replicate s Char.SPACE ++ k0 :: (K' ++ rest ++ Char.NUL :: post)) as ->.
  { rewrite EK. by rewrite <- !app_assoc. }
  rewrite skipSpaces_spaces; [| done | rewrite !length_app, length_replicate; lia].
  cbn [mbind option_bind].
  rewrite size_t_small by (rewrite !length_app, length_replicate; lia).
  replace (Z.of_nat (length (replicate s Char.SPACE ++ K ++ rest)) - Z.of_nat s)
    with (Z.of_nat (length (K ++ rest)))
    by (rewrite !length_app, length_replicate; lia).
  set (A := pre ++ replicate s Char.SPACE).
  replace (Z.of_nat (length pre) + Z.of_nat s) with (Z.of_nat (length A))
    by (unfold A; rewrite length_app, length_replicate; lia).
  assert (pre ++ replicate s Char.SPACE ++ k0 :: K' ++ rest ++ Char.NUL :: post
          = A ++ K ++ rest ++ Char.NUL :: post) as ->.
  { unfold A. rewrite EK. by rewrite <- !app_assoc. }
  set (buf := A ++ K ++ rest ++ Char.NUL :: post).
  assert (∀ i c, K !! i = Some c → buf !! (length A + i)%nat = Some c) as HbufK.
  { intros i c Hi. unfold buf. rewrite lookup_app_r by lia.
    replace (length A + i - length A)%nat with i by lia.
    by apply lookup_app_l_Some. }
  destruct (stripEol_inv (Z.of_nat (length A)) buf (Z.of_nat (length (K ++ rest))))
    as (buf1 & len1 & -> & Hlen1 & _ & _ & Hnul1 & Hkeep1).
  { lia. } { rewrite length_app. lia. } { rewrite length_app. lia. }
  { unfold buf. rewrite (app_assoc K), (app_assoc A).
    replace (Z.to_nat (Z.of_nat (length A) + Z.of_nat (length (K ++ rest))))
      with (length (A ++ K ++ rest)) by (rewrite !length_app; lia).
    apply list_lookup_middle. done. }
  cbn [mbind option_bind].
  rewrite length_app in Hlen1.
  destruct (stripEol_inv (Z.of_nat (length A)) buf1 len1)
    as (buf2 & len2 & -> & Hlen2 & _ & _ & Hnul2 & Hkeep2); [lia | lia | lia | done |].
  cbn [mbind option_bind].
  destruct (drop_prefix_lookup buf2 K (length A)) as [rest2 Hrest2].
  { intros i c Hi.
    assert (¬ eol c) as Hc.
    { pose proof (Forall_lookup_1 _ _ _ _ HK Hi) as Hal.
      apply alnum_not_special in Hal. tauto. }
    apply Hkeep2; [|done]. apply Hkeep1; [|done]. by apply HbufK. }
  rewrite (parseKeyAt_too_long _ K rest2) by done.
  cbn [from_option_fault]. do 2 f_equal.
  unfold A. rewrite length_app, length_replicate. lia.
Qed.

End TooLong.

(** ** Memory safety of the parser behind a guard byte *)

Section NoFault.

Import CInt.

Lemma parseKeyAt_no_fault buf line start len :
  0 ≤ start → 0 ≤ len →
  buf !! Z.to_nat (start + len) = Some Char.NUL →
  ∃ r, parseKeyAt buf line start len = Some r ∧ r ≠ ParseFault.
Proof.
  intros Hstart Hlen Hnul. unfold parseKeyAt.
  pose proof (lookup_lt_Some _ _ _ Hnul) as Hin.
  assert (Mem.from buf start !! Z.to_nat len = Some Char.NUL) as Hj.
  { unfold Mem.from. rewrite bool_decide_true by done. rewrite lookup_drop.
    by replace (Z.to_nat start + Z.to_nat len)%nat with (Z.to_nat (start + len)) by lia. }
  pose proof (keyLoop_bounds _ _ start 0 Hj ltac:(unfold KREG_MAX_KEY_LEN; lia)) as Hb.
  unfold KREG_MAX_KEY_LEN in Hb.
  destruct (keyLoop (Mem.from buf start) start 0) as [q | q kl | q kl | q |];
    [eauto | | | eauto | done].
  - destruct Hb as (Hq & -> & Hkl).
    destruct (memcpy_is_Some buf start (0 + (q - start))) as [k ->]; [lia..|].
    cbn [mbind option_bind].
    set (valLen := uint8_t (size_t (len - (q + 1 - start)))).
    assert (0 ≤ valLen ≤ len - (q + 1 - start)) as HvalLen.
    { unfold valLen. rewrite uint8_t_size_t. apply uint8_t_le. lia. }
    destruct (bool_decide (valLen > KREG_MAX_VAL_LEN)); [eauto|].
    destruct (bool_decide (valLen ≠ 0)); [|eauto].
    destruct (memcpy_is_Some buf (q + 1) valLen) as [v ->]; [lia..|].
    cbn [mbind option_bind]. eauto.
  - destruct Hb as (Hq & -> & Hkl).
    destruct (bool_decide (0 + (q - start) = 0)); [eauto|].
    destruct (memcpy_is_Some buf start (0 + (q - start))) as [k ->]; [lia..|].
    cbn [mbind option_bind]. eauto.
Qed.

(** The loop over the leading spaces stops at the first byte that is no
    space. *)
Lemma skipSpaces_stop rest (j : nat) c0 p len :
  rest !! j = Some c0 → c0 ≠ Char.SPACE → 0 ≤ len < 2 ^ 64 →
  ∃ k : nat, (k ≤ j)%nat ∧
    skipSpaces rest p len = Some (p + Z.of_nat k, size_t (len - Z.of_nat k)) ∧
    (∀ i, (i < k)%nat → rest !! i = Some Char.SPACE).
Proof.
  revert j p len. induction rest as [|c rest IH]; intros j p len Hj Hc0 Hlen; [done|].
  cbn [skipSpaces]. case_bool_decide as Hc.
  - destruct j as [|j]; [simpl in Hj; congruence|].
    destruct (IH j (p + 1) (size_t (len - 1)) Hj Hc0) as (k & Hk & -> & Hsp).
    { apply Z.mod_pos_bound. lia. }
    exists (S k). split; [lia|]. split.
    + rewrite size_t_sub_l. do 2 f_equal; [lia|]. f_equal. lia.
    + intros [|i] Hi; [by rewrite Hc | apply Hsp; lia].
  - exists 0%nat. split; [lia|]. split.
    + rewrite Z.add_0_r, Z.sub_0_r, size_t_small by done. done.
    + intros i Hi. lia.
Qed.

(** Behind a byte that is no line terminator, the parser reads and writes
    inside the buffer only, for every line. *)
Lemma parseKeyValue_no_fault pre g line post :
  ¬ eol g → Z.of_nat (length line) < 2 ^ 63 →
  parseKeyValue ((pre ++ [g]) ++ line ++ Char.NUL :: post)
    (Z.of_nat (length (pre ++ [g]))) (Z.of_nat (length line))
  ≠ ParseFault.
Proof.
  intros Hg Hsize. unfold parseKeyValue. rewrite from_app.
  set (buf := (pre ++ [g]) ++ line ++ Char.NUL :: post).
  set (L := length (pre ++ [g])).
  destruct (skipSpaces_stop (line ++ Char.NUL :: post) (length line) Char.NUL
              (Z.of_nat L) (Z.of_nat (length line)))
    as (k & Hk & -> & Hsp); [by apply list_lookup_middle | done | lia |].
  cbn [mbind option_bind].
  rewrite size_t_small by lia.
  set (P := Z.of_nat L + Z.of_nat k).
  assert (1 ≤ P) as HP by (unfold P, L; rewrite length_app; simpl; lia).
  assert (∃ c, 1 ≤ P ∧ buf !! Z.to_nat (P - 1) = Some c ∧ ¬ eol c) as Hguard.
  { destruct k as [|k].
    - exists g. split; [done|]. split; [|done].
      unfold buf, P, L. rewrite <- app_assoc, length_app. cbn [length].
      replace (Z.to_nat (Z.of_nat (length pre + 1) + Z.of_nat 0 - 1))
        with (length pre) by lia.
      by apply list_lookup_middle.
    - exists Char.SPACE. split; [done|]. split; [|unfold eol; by intros [|]].
      unfold buf, P. rewrite lookup_app_r by (fold L; lia).
      fold L. replace (Z.to_nat (Z.of_nat L + Z.of_nat (S k) - 1) - L)%nat with k by lia.
      apply Hsp. lia. }
  destruct (stripEol_inv P buf (Z.of_nat (length line) - Z.of_nat k))
    as (buf1 & len1 & -> & Hlen1 & Hpos1 & _ & Hnul1 & Hkeep1); [lia | lia | done | |].
  { unfold buf, P. fold L.
    replace (Z.to_nat (Z.of_nat L + Z.of_nat k + (Z.of_nat (length line) - Z.of_nat k)))
      with (length ((pre ++ [g]) ++ line)) by (rewrite length_app; fold L; lia).
    rewrite app_assoc. by apply list_lookup_middle. }
  cbn [mbind option_bind].
  destruct (stripEol_inv P buf1 len1)
    as (buf2 & len2 & -> & Hlen2 & Hpos2 & _ & Hnul2 & _); [lia | lia | | done |].
  { intros _. destruct Hguard as (c & ? & Hc & Hne). exists c. auto. }
  cbn [mbind option_bind].
  destruct (parseKeyAt_no_fault buf2 (Z.of_nat L) P len2) as (r & -> & Hr);
    [lia | lia | done | done].
Qed.

End NoFault.

(** ** The dispatcher *)

Section Dispatcher.

Import Server.

Lemma strlen_split s n :
  Mem.strlen s = Some n →
  ∃ line post, s = line ++ Char.NUL :: post ∧ n = Z.of_nat (length line).
Proof.
  revert n. induction s as [|c s IH]; intros n; cbn [Mem.strlen]; [done|].
  case_bool_decide as Hc.
  - intros [= <-]. exists [], s. by rewrite Hc.
  - destruct (Mem.strlen s) as [n'|]; [|done]. intros [= <-].
    destruct (IH n' eq_refl) as (line & post & -> & ->).
    exists (c :: line), post. split; [done|]. cbn [length]. lia.
Qed.

Lemma strlen_terminated data : is_Some (Mem.strlen (data ++ [Char.NUL])).
Proof.
  induction data as [|c data [n IH]]; cbn [app Mem.strlen].
  - rewrite bool_decide_true by done. eauto.
  - case_bool_decide; [eauto|]. rewrite IH. eauto.
Qed.

Lemma tolower_NUL c : Char.tolower c = Char.NUL ↔ c = Char.NUL.
Proof.
  unfold Char.tolower, Char.isupper, Char.NUL. case_bool_decide; lia.
Qed.

Lemma strncmp_eq_3 x y z m :
  x ≠ Char.NUL → y ≠ Char.NUL → z ≠ Char.NUL → last m = Some Char.NUL →
  strncmp_eq [x; y; z; Char.NUL] m 3 = Some (bool_decide (take 3 m = [x; y; z])).
Proof.
  intros Hx Hy Hz Hm.
  destruct m as [|a [|b [|c rest]]]; [done| | |]; cbn [strncmp_eq take].
  - injection Hm as ->. rewrite bool_decide_false by done.
    by rewrite bool_decide_false.
  - injection Hm as ->.
    case_bool_decide; [|by rewrite bool_decide_false by congruence].
    rewrite bool_decide_false by done. rewrite bool_decide_false by done.
    by rewrite bool_decide_false.
  - clear Hm.
    case_bool_decide; [|by rewrite bool_decide_false by congruence].
    rewrite bool_decide_false by done.
    case_bool_decide; [|by rewrite bool_decide_false by congruence].
    rewrite bool_decide_false by done.
    case_bool_decide; [|by rewrite bool_decide_false by congruence].
    rewrite bool_decide_false by done. cbn [strncmp_eq].
    subst. by rewrite bool_decide_true.
Qed.

Lemma strlen_ge3 a b c rest n :
  Mem.strlen (a :: b :: c :: rest) = Some n →
  n >= 3 ↔ a ≠ Char.NUL ∧ b ≠ Char.NUL ∧ c ≠ Char.NUL.
Proof.
  cbn [Mem.strlen].
  repeat case_bool_decide; try (intros [= <-]; split; [lia | tauto]).
  destruct (Mem.strlen rest) as [k|] eqn:E; [|done].
  apply strlen_split in E as (line & post & _ & ->).
  cbn. intros [= <-]. split; [done | lia].
Qed.

Lemma lowerCommand_3 a b c rest :
  lowerCommand (a :: b :: c :: rest)
  = Char.tolower a :: Char.tolower b :: Char.tolower c :: rest.
Proof. reflexivity. Qed.

Lemma last_terminated (data : list Z) : last (data ++ [Char.NUL]) = Some Char.NUL.
Proof. apply last_snoc. Qed.

Lemma lowered_cases data :
  ∃ m, lowered data = Some m ∧ last m = Some Char.NUL ∧
    ∀ x y z, x ≠ Char.NUL → y ≠ Char.NUL → z ≠ Char.NUL →
      (take 3 m = [x; y; z] ↔ command data = Some [x; y; z]) ∧
      (command data = Some [x; y; z] → m = [x; y; z] ++ drop 3 data ++ [Char.NUL]).
Proof.
  unfold lowered.
  destruct (strlen_terminated data) as [n Hn]. rewrite Hn. cbn [mbind option_bind].
  eexists. split; [done|].
  destruct data as [|a [|b [|c rest]]].
    assert (n = 0) as ->.
    { cbn [app Mem.strlen] in Hn. rewrite bool_decide_true in Hn by done. congruence. }
    rewrite bool_decide_false by lia. split; [done|].
    intros x y z Hx Hy Hz. cbn. split; [|done]. split; [|done]. congruence.
  - rewrite bool_decide_false.
    2:{ cbn [app Mem.strlen] in Hn. rewrite (bool_decide_true (Char.NUL = _)) in Hn by done.
        case_bool_decide; simplify_eq/=; lia. }
    split; [apply last_terminated|].
    intros x y z Hx Hy Hz. cbn. split; [|done]. split; [|done]. congruence.
  - rewrite bool_decide_false.
    2:{ cbn [app Mem.strlen] in Hn. rewrite (bool_decide_true (Char.NUL = _)) in Hn by done.
        repeat case_bool_decide; simplify_eq/=; lia. }
    split; [apply last_terminated|].
    intros x y z Hx Hy Hz. cbn. split; [|done]. split; [|done]. congruence.
  - cbn [app] in *. pose proof (strlen_ge3 _ _ _ _ _ Hn) as Hge.
    case_bool_decide as Hn3.
    + apply Hge in Hn3 as (Ha & Hb & Hc). rewrite lowerCommand_3.
      split; [apply (last_terminated (_ :: _ :: _ :: rest))|].
      intros x y z Hx Hy Hz. cbn [take command drop app]. rewrite take_0. split.
      * split; congruence.
      * by intros [= -> -> ->].
    + split; [apply (last_terminated (_ :: _ :: _ :: rest))|].
      intros x y z Hx Hy Hz. cbn [take command drop app]. rewrite take_0.
      assert (¬ (a ≠ Char.NUL ∧ b ≠ Char.NUL ∧ c ≠ Char.NUL)) as Hz0 by tauto.
      assert (∀ u v, Char.tolower u = v → v ≠ Char.NUL → u ≠ Char.NUL) as Hlow.
      { intros u v <- Hv Hu. by apply Hv, tolower_NUL. }
      split; [split|].
      * intros [= -> -> ->]. tauto.
      * intros [= Ha Hb Hc]. exfalso. apply Hz0. repeat split; eapply Hlow; eauto.
      * intros [= Ha Hb Hc]. exfalso. apply Hz0. repeat split; eapply Hlow; eauto.
Qed.

End Dispatcher.

(** ** The registry loader *)

Section Loader.

Import CInt.

Lemma parseKeyAt_code buf line start len code k pos :
  parseKeyAt buf line start len = Some (ParseErr code k pos) →
  code ≠ KREG_OK.
Proof.
  unfold parseKeyAt.
  destruct (keyLoop _ _ _); repeat case_bool_decide;
    intros; simplify_option_eq; done.
Qed.

Lemma parseKeyValue_code buf line len code k pos :
  parseKeyValue buf line len = ParseErr code k pos →
  code ≠ KREG_OK.
Proof.
  unfold parseKeyValue.
  destruct (skipSpaces _ _ _) as [[p n]|]; [|done]. cbn [mbind option_bind].
  destruct (stripEol p (buf, n) ≫= stripEol p) as [[b m]|]; [|done].
  cbn [mbind option_bind].
  destruct (parseKeyAt b line p m) as [r|] eqn:E; [|done].
  cbn [from_option_fault]. intros ->. by eapply parseKeyAt_code.
Qed.

(** The line counter after [n] more lines. *)
Lemma uint16_t_succ x : uint16_t (uint16_t x + 1) = uint16_t (x + 1).
Proof. unfold uint16_t, wrap. by rewrite Zplus_mod_idemp_l. Qed.

Lemma countLines_wrap n c : countLines n (uint16_t c) = uint16_t (c + Z.of_nat n).
Proof.
  revert c. induction n as [|n IH]; intros c; cbn [countLines].
  - by rewrite Z.add_0_r.
  - rewrite uint16_t_succ, IH. f_equal. lia.
Qed.

Lemma countLines_0 n : countLines n 0 = uint16_t (Z.of_nat n).
Proof. apply (countLines_wrap n 0). Qed.

(** The lines that load without a failure do not stop the loop. *)
Lemma readLoop_app policy pre rest cnt ln ep kvs st :
  readLoop policy pre cnt ln ep kvs = Some st → ld_ret st = KREG_OK →
  readLoop policy (pre ++ rest) cnt ln ep kvs
  = readLoop policy rest (countLines (length pre) cnt)
      (ld_lineNr st) (ld_errPos st) (ld_keyValuePairs st).
Proof.
  revert cnt ln ep kvs. induction pre as [|line pre IH]; intros cnt ln ep kvs.
  - cbn [readLoop app length]. by intros [= <-] _.
  - cbn [app length countLines readLoop].
    destruct (Mem.load (line ++ [Char.NUL]) 0) as [c|]; [|done].
    cbn [mbind option_bind].
    destruct (bool_decide (c ≠ Char.CR) && bool_decide (c ≠ Char.LF)).
    + destruct (parseKeyValue _ _ _) as [k v | code pos |] eqn:E; [| |done].
      * apply IH.
      * intros [= <-] Hret. cbn in Hret. by apply parseKeyValue_code in E.
    + apply IH.
Qed.

Lemma load_head line :
  Mem.load (line ++ [Char.NUL]) 0 = Some (default Char.NUL (head line)).
Proof. by destruct line. Qed.

(** The first line that the parser rejects ends the load. *)
Lemma readLoop_failure policy pre bad post ln ep kvs st code k pos :
  readLoop policy pre 0 ln ep kvs = Some st → ld_ret st = KREG_OK →
  (∀ c, head bad = Some c → ¬ eol c) →
  parseKeyValue (bad ++ [Char.NUL]) 0 (Z.of_nat (length bad)) = ParseErr code k pos →
  readLoop policy (pre ++ bad :: post) 0 ln ep kvs
  = Some {| ld_ret := code; ld_lineNr := uint16_t (Z.of_nat (length pre) + 1);
            ld_errPos := pos; ld_keyValuePairs := ld_keyValuePairs st |}.
Proof.
  intros Hpre Hret Hhead Hparse.
  rewrite (readLoop_app _ _ _ _ _ _ _ _ Hpre Hret), countLines_0.
  cbn [readLoop]. rewrite load_head. cbn [mbind option_bind].
  rewrite uint16_t_succ, Hparse.
  assert (bool_decide (default Char.NUL (head bad) ≠ Char.CR)
          && bool_decide (default Char.NUL (head bad) ≠ Char.LF) = true) as ->; [|done].
  destruct (head bad) as [c|]; [|done]. cbn [default].
  specialize (Hhead c eq_refl). unfold eol in Hhead.
  apply andb_true_intro. rewrite !bool_decide_eq_true. tauto.
Qed.

End Loader.

(** ** Lines and files of many bytes *)

Section Support.

Import CInt.

Lemma Forall_lastNotEol V : Forall (λ c, ¬ eol c) V → lastNotEol V.
Proof.
  intros HV c Hc. apply last_Some_elem_of in Hc.
  by apply (proj1 (Forall_forall _ _) HV).
Qed.

Lemma getlines_blank (n : nat) rest :
  getlines (replicate n Char.LF ++ rest) = replicate n [Char.LF] ++ getlines rest.
Proof.
  induction n as [|n IH]; [done|].
  cbn [replicate app getlines]. rewrite bool_decide_true by done. by rewrite IH.
Qed.

Lemma readLoop_blank policy (n : nat) rest cnt ln ep kvs :
  readLoop policy (replicate n [Char.LF] ++ rest) cnt ln ep kvs
  = readLoop policy rest (countLines n cnt) ln ep kvs.
Proof.
  revert cnt. induction n as [|n IH]; intros cnt; [done|].
  cbn [replicate app readLoop countLines].
  change (Mem.load [Char.LF; Char.NUL] 0) with (Some Char.LF).
  cbn [mbind option_bind]. rewrite (bool_decide_false (Char.LF ≠ Char.LF)) by tauto.
  rewrite andb_false_r. apply IH.
Qed.

End Support.

(** ** Texts without a NUL *)

Section Responses.

Import Server.

Lemma c_str_id l : Forall nonNUL l → c_str l = l.
Proof.
  induction 1 as [|c l Hc Hl IH]; [done|].
  cbn [c_str]. rewrite bool_decide_false by done. by rewrite IH.
Qed.

Lemma strlen_nonNUL l post :
  Forall nonNUL l → Mem.strlen (l ++ Char.NUL :: post) = Some (Z.of_nat (length l)).
Proof.
  induction 1 as [|c l Hc Hl IH]; cbn [app Mem.strlen length].
  - by rewrite bool_decide_true.
  - rewrite bool_decide_false by done. rewrite IH. cbn. f_equal. lia.
Qed.

Lemma alnum_nonNUL K : Forall alnum K → Forall nonNUL K.
Proof.
  intros HK. eapply Forall_impl; [done|].
  intros c Hc. by apply alnum_not_special in Hc as (_ & ? & _).
Qed.

End Responses.

(** ** Sample runs *)

Import Server.

Example parse_hungary :
  parseLine (Char.bytes "hungary Budapest" ++ [Char.CR; Char.LF])
  = ParseOk (Char.bytes "hungary") (Some (Char.bytes "Budapest")).
Proof. vm_compute. reflexivity. Qed.

Example parse_errors :
  parseLine (Char.bytes "   ") = ParseErr KREG_KEY_EMPTY None 4
  ∧ parseLine (Char.bytes " ab-c d") = ParseErr KREG_KEY_INVALID None 4
  ∧ parseLine (Char.bytes "abcdefghijklmnopq") = ParseErr KREG_KEY_TOO_LONG None 17
  ∧ parseLine (Char.bytes "k " ++ replicate 33 120) = ParseErr KREG_VAL_TOO_LONG (Some (Char.bytes "k")) 35
  ∧ parseLine (Char.bytes "key  two words ")
    = ParseOk (Char.bytes "key") (Some (Char.bytes " two words ")).
Proof. vm_compute. by repeat split. Qed.

(** * The claims *)

(** Claim C3, at an input where the code departs from it.  The length of
    the value is kept in a [uint8_t]: a value of 256 bytes has length 0 there
    and the line is accepted with no value, by the parser and so by the
    loader, and a value of 257 bytes is accepted cut to its first byte,
    where the claim has [KREG_VAL_TOO_LONG] at offset 35, as for a value of
    33 bytes. *)
Theorem value_length_truncated :
  let long := Char.bytes "k " ++ replicate 256 120 ++ [Char.LF] in
  parseLine long = ParseOk (Char.bytes "k") None
  ∧ KREG_ReadRegistryFile FS_DISABLED (Some long) 0 0 []
    = Some {| ld_ret := KREG_OK; ld_lineNr := 0; ld_errPos := 0;
              ld_keyValuePairs := [{| key := Char.bytes "k"; value := None |}] |}
  ∧ parseLine (Char.bytes "k " ++ replicate 257 120 ++ [Char.LF])
    = ParseOk (Char.bytes "k") (Some [120])
  ∧ parseLine (Char.bytes "k " ++ replicate 33 120 ++ [Char.LF])
    = ParseErr KREG_VAL_TOO_LONG (Some (Char.bytes "k")) 35.
Proof. vm_compute. by repeat split. Qed.

(** Claim C4, at an input where the code departs from it.  Each of the two
    rounds of the terminator loop removes a final byte that is LF or CR, so
    a line that ends in two LF bytes loses both: the value of [k v\n\n] is
    [v], also when a client puts it, where the claim has [v\n]. *)
Theorem two_terminators_stripped :
  parseLine (Char.bytes "k v" ++ [Char.LF; Char.LF])
  = ParseOk (Char.bytes "k") (Some (Char.bytes "v"))
  ∧ parseLine (Char.bytes "k v" ++ [Char.CR; Char.CR])
    = ParseOk (Char.bytes "k") (Some (Char.bytes "v"))
  ∧ processClientMessage FS_ENABLED [] (Char.bytes "put k v" ++ [Char.LF; Char.LF])
    = Some {| written := Some (Char.bytes "[k] <= [v]" ++ [Char.LF]);
              removed := false;
              keyValuePairs := [{| key := Char.bytes "k";
                                   value := Some (Char.bytes "v") |}] |}.
Proof. vm_compute. by repeat split. Qed.

(** Claim C5 as stated fails where the position does not fit 16 bits: on
    a line of 65520 spaces and 17 letters the 17th key character is at
    position 65537, and the offset reported is 1. *)
Lemma key_too_long_offset_wraps :
  let line := replicate (Z.to_nat 65520) Char.SPACE ++ replicate 17 97 in
  parseLine line = ParseErr KREG_KEY_TOO_LONG None 1
  ∧ parseLine line ≠ ParseErr KREG_KEY_TOO_LONG None (65520 + 17).
Proof.
  cbn zeta.
  assert (parseLine (replicate (Z.to_nat 65520) Char.SPACE ++ replicate 17 97)
          = ParseErr KREG_KEY_TOO_LONG None 1) as ->; [|done].
  pose proof (parseKeyValue_too_long [] (Z.to_nat 65520) (replicate 17 97) [] []) as H.
  rewrite app_nil_r in H. unfold parseLine. cbn [app length] in H.
  change (Z.of_nat 0) with 0 in H.
  rewrite H; [done | by apply Forall_replicate | done |].
  rewrite length_app, !length_replicate. lia.
Qed.

(** Claim C5, amended.  A line (of less than 2^63 bytes) whose key part
    starts with 17 letters or digits after [s] leading spaces is rejected
    with [KREG_KEY_TOO_LONG], and the offset reported is the position
    [s + 17] of the 17th key character in the untrimmed line, reduced modulo
    2^16 as the [uint16_t] it is stored in.  A key of 16 characters is
    accepted. *)
Theorem key_length_limit :
  (∀ pre (s : nat) K rest post,
     Forall alnum K → length K = 17%nat →
     Z.of_nat (length (replicate s Char.SPACE ++ K ++ rest)) < 2 ^ 63 →
     parseKeyValue (pre ++ (replicate s Char.SPACE ++ K ++ rest) ++ Char.NUL :: post)
       (Z.of_nat (length pre))
       (Z.of_nat (length (replicate s Char.SPACE ++ K ++ rest)))
     = ParseErr KREG_KEY_TOO_LONG None (CInt.uint16_t (Z.of_nat s + 17)))
  ∧
  (∀ pre (s : nat) K V post,
     Forall alnum K → length K = 16%nat →
     (length V ≤ 32)%nat → Forall (λ c, ¬ eol c) V → Z.of_nat s < 2 ^ 62 →
     parseKeyValue (pre ++ (replicate s Char.SPACE ++ K ++ valuePart V) ++ Char.NUL :: post)
       (Z.of_nat (length pre))
       (Z.of_nat (length (replicate s Char.SPACE ++ K ++ valuePart V)))
     = ParseOk K (valueOut V)).
Proof.
  split.
  - intros. by apply parseKeyValue_too_long.
  - intros pre s K V post HK HlenK HlenV HV Hs.
    apply parseKeyValue_accept; [done | lia | done | by apply Forall_lastNotEol | done].
Qed.

Lemma key_length_limit_witness :
  parseLine (Char.bytes "  abcdefghijklmnopq rest") = ParseErr KREG_KEY_TOO_LONG None 19
  ∧ parseLine (Char.bytes "  abcdefghijklmnop rest")
    = ParseOk (Char.bytes "abcdefghijklmnop") (Some (Char.bytes "rest")).
Proof.
  split.
  - apply (proj1 key_length_limit [] 2%nat (Char.bytes "abcdefghijklmnopq")
             (Char.bytes " rest") []).
    + by_evaluation.
    + reflexivity.
    + vm_compute. reflexivity.
  - apply (proj2 key_length_limit [] 2%nat (Char.bytes "abcdefghijklmnop")
             (Char.bytes "rest") []).
    + by_evaluation.
    + reflexivity.
    + vm_compute. lia.
    + by_evaluation.
    + vm_compute. reflexivity.
Defined.

(** Claim C6, at an input where the code departs from it.  The loader
    decides on the first byte of a line alone: a line that starts with CR is
    skipped whatever follows.  The file of the single line [\rkey value\n]
    loads without an error and leaves the list empty, whereas the parser,
    had it been given the line, rejects it at offset 1. *)
Theorem cr_line_skipped :
  let line := [Char.CR] ++ Char.bytes "key value" ++ [Char.LF] in
  KREG_ReadRegistryFile FS_DISABLED (Some line) 0 0 []
  = Some {| ld_ret := KREG_OK; ld_lineNr := 0; ld_errPos := 0; ld_keyValuePairs := [] |}
  ∧ main FS_DISABLED (Some line) = Some (ServerTask [])
  ∧ parseLine line = ParseErr KREG_KEY_INVALID None 1.
Proof. vm_compute. by repeat split. Qed.

(** Claim C7 as stated fails where the line number does not fit 16 bits:
    in a file of 65535 blank lines followed by the line [!], the line that
    fails is line 65536, and the line number reported is 0. *)
Lemma load_line_number_wraps :
  let pre := replicate (Z.to_nat 65535) [Char.LF] in
  let bad := Char.bytes "!" ++ [Char.LF] in
  let content := replicate (Z.to_nat 65535) Char.LF ++ bad in
  getlines content = pre ++ [bad]
  ∧ Z.of_nat (length pre) + 1 = 65536
  ∧ KREG_ReadRegistryFile FS_DISABLED (Some content) 0 0 []
    = Some {| ld_ret := KREG_KEY_INVALID; ld_lineNr := 0; ld_errPos := 1;
              ld_keyValuePairs := [] |}.
Proof.
  cbn zeta.
  assert (getlines (replicate (Z.to_nat 65535) Char.LF ++ Char.bytes "!" ++ [Char.LF])
          = replicate (Z.to_nat 65535) [Char.LF] ++ [Char.bytes "!" ++ [Char.LF]]) as Hlines
    by (by rewrite getlines_blank).
  split; [done|]. split; [rewrite length_replicate; lia|].
  unfold KREG_ReadRegistryFile. rewrite Hlines, readLoop_blank, countLines_0.
  reflexivity.
Qed.

(** Claim C7, amended.  The first line that is not skipped and that the
    parser rejects ends the load at once, whatever follows it: the loader
    returns the parser's error and offset and the number of that line,
    counted from 1 over all lines read and reduced modulo 2^16 as the
    [uint16_t] it is counted in; the list is the one the lines before it
    have built, nothing is taken back; and [main] exits with [EXIT_FAILURE]
    instead of entering [serverTask]. *)
Theorem load_failure policy content pre bad post st code k pos :
  getlines content = pre ++ bad :: post →
  readLoop policy pre 0 0 0 [] = Some st → ld_ret st = KREG_OK →
  (∀ c, head bad = Some c → ¬ eol c) →
  parseKeyValue (bad ++ [Char.NUL]) 0 (Z.of_nat (length bad)) = ParseErr code k pos →
  KREG_ReadRegistryFile policy (Some content) 0 0 []
  = Some {| ld_ret := code;
            ld_lineNr := CInt.uint16_t (Z.of_nat (length pre) + 1);
            ld_errPos := pos; ld_keyValuePairs := ld_keyValuePairs st |}
  ∧ main policy (Some content)
    = Some (Exit_failure code (CInt.uint16_t (Z.of_nat (length pre) + 1)) pos).
Proof.
  intros Hlines Hpre Hret Hhead Hparse.
  assert (KREG_ReadRegistryFile policy (Some content) 0 0 []
          = Some {| ld_ret := code;
                    ld_lineNr := CInt.uint16_t (Z.of_nat (length pre) + 1);
                    ld_errPos := pos; ld_keyValuePairs := ld_keyValuePairs st |}) as Hload.
  { unfold KREG_ReadRegistryFile. rewrite Hlines. by eapply readLoop_failure. }
  split; [done|].
  unfold main. rewrite Hload. cbn [mbind option_bind ld_ret ld_lineNr ld_errPos].
  apply parseKeyValue_code in Hparse. by destruct code.
Qed.

Lemma load_failure_witness :
  KREG_ReadRegistryFile FS_DISABLED (Some capitals) 0 0 []
  = Some {| ld_ret := KREG_KEY_INVALID; ld_lineNr := 3; ld_errPos := 5;
            ld_keyValuePairs :=
              [{| key := Char.bytes "hungary"; value := Some (Char.bytes "Budapest") |};
               {| key := Char.bytes "japan"; value := Some (Char.bytes "Tokyo") |}] |}
  ∧ main FS_DISABLED (Some capitals) = Some (Exit_failure KREG_KEY_INVALID 3 5).
Proof.
  apply (load_failure FS_DISABLED capitals
           [Char.bytes "hungary Budapest" ++ [Char.LF]; Char.bytes "japan Tokyo" ++ [Char.LF]]
           (Char.bytes "abcd!" ++ [Char.LF])
           [Char.bytes "france Paris" ++ [Char.LF]]
           {| ld_ret := KREG_OK; ld_lineNr := 0; ld_errPos := 0;
              ld_keyValuePairs :=
                [{| key := Char.bytes "hungary"; value := Some (Char.bytes "Budapest") |};
                 {| key := Char.bytes "japan"; value := Some (Char.bytes "Tokyo") |}] |}
           KREG_KEY_INVALID None 5).
  - vm_compute. reflexivity.
  - vm_compute. reflexivity.
  - reflexivity.
  - intros c [= <-]. vm_compute. intros [H | H]; discriminate H.
  - vm_compute. reflexivity.
Defined.

(** Claim C9, at an input where the code departs from it.  A key put
    without a value is stored with a [NULL] value pointer, and that pointer
    is what [sprintf] gets for [%s]: the answer to [put abc], and to a later
    [get abc], shows [(null)] between the brackets where the claim has
    nothing between them. *)
Theorem empty_value_response :
  processClientMessage FS_ENABLED [] (Char.bytes "put abc")
  = Some {| written := Some (Char.bytes "[abc] <= [(null)]" ++ [Char.LF]);
            removed := false;
            keyValuePairs := [{| key := Char.bytes "abc"; value := None |}] |}
  ∧ processClientMessage FS_ENABLED [{| key := Char.bytes "abc"; value := None |}]
      (Char.bytes "get abc")
    = Some {| written := Some (Char.bytes "[abc] => [(null)]" ++ [Char.LF]);
              removed := false;
              keyValuePairs := [{| key := Char.bytes "abc"; value := None |}] |}.
Proof. vm_compute. by split. Qed.

(** * Further lemmas *)

(** ** What the parser returns *)

Section ParserResults.

Import CInt.

(** What the key loop has seen when it stops at a separator or at the
    terminal character: a run of letters and digits, then that byte. *)
Lemma keyLoop_spec rest p keyLen :
  0 ≤ keyLen ≤ KREG_MAX_KEY_LEN →
  match keyLoop rest p keyLen with
  | KeyFault => Forall alnum rest ∧ keyLen + Z.of_nat (length rest) ≤ KREG_MAX_KEY_LEN
  | KeySeparator q kl =>
      ∃ n : nat, q = p + Z.of_nat n ∧ kl = keyLen + Z.of_nat n ∧ kl ≤ KREG_MAX_KEY_LEN ∧
        Forall alnum (take n rest) ∧ rest !! n = Some Char.SPACE
  | KeyTerminal q kl =>
      ∃ n : nat, q = p + Z.of_nat n ∧ kl = keyLen + Z.of_nat n ∧ kl ≤ KREG_MAX_KEY_LEN ∧
        Forall alnum (take n rest) ∧ rest !! n = Some Char.NUL
  | KeyTooLong q =>
      ∃ n : nat, q = p + Z.of_nat n ∧ keyLen + Z.of_nat n = KREG_MAX_KEY_LEN ∧
        Forall alnum (take (S n) rest) ∧ (n < length rest)%nat
  | KeyInvalid q =>
      ∃ (n : nat) c, q = p + Z.of_nat n ∧ keyLen + Z.of_nat n ≤ KREG_MAX_KEY_LEN ∧
        Forall alnum (take n rest) ∧ rest !! n = Some c ∧
        ¬ alnum c ∧ c ≠ Char.SPACE ∧ c ≠ Char.NUL
  end.
Proof.
  unfold KREG_MAX_KEY_LEN.
  revert p keyLen. induction rest as [|c rest IH]; intros p keyLen Hk; cbn [keyLoop].
  { split; [done | simpl; lia]. }
  destruct (Char.isalpha c || Char.isdigit c) eqn:Hc.
  - unfold uint16_t. rewrite wrap_small by lia.
    case_bool_decide as Hlen; unfold KREG_MAX_KEY_LEN in *.
    + exists 0%nat. split; [lia|]. split; [lia|]. split; [|simpl; lia].
      cbn. by apply Forall_cons.
    + specialize (IH (p + 1) (keyLen + 1) ltac:(lia)).
      destruct (keyLoop rest (p + 1) (keyLen + 1)) as [q | q kl | q kl | q |].
      * destruct IH as (n & -> & ? & ? & ?). exists (S n).
        split; [lia|]. split; [lia|]. split; [|simpl; lia].
        cbn [take]. by apply Forall_cons.
      * destruct IH as (n & -> & -> & ? & ? & ?). exists (S n).
        split; [lia|]. split; [lia|]. split; [lia|]. split; [|done].
        cbn [take]. by apply Forall_cons.
      * destruct IH as (n & -> & -> & ? & ? & ?). exists (S n).
        split; [lia|]. split; [lia|]. split; [lia|]. split; [|done].
        cbn [take]. by apply Forall_cons.
      * destruct IH as (n & c' & -> & ? & ? & ? & ?). exists (S n), c'.
        split; [lia|]. split; [lia|]. split; [|done].
        cbn [take]. by apply Forall_cons.
      * destruct IH as [? ?]. split; [by apply Forall_cons|]. simpl. lia.
  - assert (¬ alnum c) as Hna by (unfold alnum; by rewrite Hc).
    case_bool_decide as Hs.
    + exists 0%nat. subst c. repeat split; lia || done.
    + case_bool_decide as Hn.
      * exists 0%nat. subst c. repeat split; lia || done.
      * exists 0%nat, c. repeat split; lia || done.
Qed.

Lemma skipSpaces_result rest p len p' len' :
  skipSpaces rest p len = Some (p', len') →
  ∃ (k : nat) c, p' = p + Z.of_nat k ∧ rest !! k = Some c ∧ c ≠ Char.SPACE.
Proof.
  revert p len. induction rest as [|c rest IH]; intros p len; cbn [skipSpaces]; [done|].
  case_bool_decide as Hc.
  - intros H. destruct (IH _ _ H) as (k & c' & -> & ? & ?).
    exists (S k), c'. split; [lia | done].
  - intros [= <- <-]. exists 0%nat, c. split; [lia | done].
Qed.

(** A round of the terminator loop changes the buffer by writing a NUL
    over a line terminator, or not at all. *)
Lemma stripEol_result p buf len buf' len' :
  stripEol p (buf, len) = Some (buf', len') →
  length buf' = length buf ∧
  ∀ i c, buf' !! i = Some c → c = Char.NUL ∨ buf !! i = Some c.
Proof.
  unfold stripEol.
  destruct (Mem.load buf _) as [c|]; [|done]. cbn [mbind option_bind].
  destruct (_ || _).
  - unfold Mem.store. case_bool_decide; [|done]. cbn [mbind option_bind].
    intros [= <- <-]. split; [by rewrite length_insert|].
    intros i c' Hi.
    destruct (decide (i = Z.to_nat (p + ptrdiff_t (size_t (len - 1))))) as [-> | Hne].
    + rewrite list_lookup_insert_eq in Hi by lia. left. congruence.
    + rewrite list_lookup_insert_ne in Hi by done. by right.
  - intros [= <- <-]. split; [done|]. auto.
Qed.

Lemma memcpy_Some m p n w :
  Mem.memcpy m p n = Some w →
  0 ≤ p ∧ 0 ≤ n ∧ w = take (Z.to_nat n) (drop (Z.to_nat p) m) ∧
  length w = Z.to_nat n.
Proof.
  unfold Mem.memcpy. case_bool_decide as H; [|done]. intros [= <-].
  repeat split; try lia. rewrite length_take, length_drop. lia.
Qed.

(** What the part of the parser after the first two loops accepts. *)
Lemma parseKeyAt_ok buf line start len k v :
  parseKeyAt buf line start len = Some (ParseOk k v) →
  (∀ c, buf !! Z.to_nat start = Some c → c ≠ Char.SPACE) →
  Forall alnum k ∧ (1 ≤ length k ≤ 16)%nat ∧
  match v with Some w => (1 ≤ length w ≤ 32)%nat | None => True end.
Proof.
  unfold parseKeyAt. intros H Hfirst.
  pose proof (keyLoop_spec (Mem.from buf start) start 0
                ltac:(unfold KREG_MAX_KEY_LEN; lia)) as Hspec.
  unfold KREG_MAX_KEY_LEN, KREG_MAX_VAL_LEN in *.
  destruct (keyLoop (Mem.from buf start) start 0) as [q | q kl | q kl | q |];
    [done | | | done | done].
  - destruct Hspec as (n & -> & -> & Hn & Hal & Hsep).
    destruct (Mem.memcpy buf start (0 + Z.of_nat n)) as [key|] eqn:Hcp; [|done].
    cbn [mbind option_bind] in H.
    apply memcpy_Some in Hcp as (Hstart & _ & -> & Hlen).
    unfold Mem.from in *. rewrite bool_decide_true in Hal, Hsep by done.
    replace (Z.to_nat (0 + Z.of_nat n)) with n in * by lia.
    assert (n ≠ 0)%nat as Hn0.
    { intros ->. rewrite lookup_drop, Nat.add_0_r in Hsep. by apply Hfirst in Hsep. }
    assert (key_ok : Forall alnum (take n (drop (Z.to_nat start) buf))
                     ∧ (1 ≤ length (take n (drop (Z.to_nat start) buf)) ≤ 16)%nat).
    { split; [done|]. rewrite Hlen. clear -Hn Hn0. lia. }
    repeat case_bool_decide; try done.
    + destruct (Mem.memcpy buf _ _) as [w|] eqn:Hw; [|done].
      cbn [mbind option_bind] in H. injection H as <- <-.
      apply memcpy_Some in Hw as (_ & Hpos & _ & Hw).
      destruct key_ok. repeat split; try done; lia.
    + injection H as <- <-. destruct key_ok. repeat split; done || lia.
  - destruct Hspec as (n & -> & -> & Hn & Hal & Hsep).
    case_bool_decide as Hk0; [done|].
    destruct (Mem.memcpy buf start (0 + Z.of_nat n)) as [key|] eqn:Hcp; [|done].
    cbn [mbind option_bind] in H. injection H as <- <-.
    apply memcpy_Some in Hcp as (Hstart & _ & -> & Hlen).
    unfold Mem.from in *. rewrite bool_decide_true in Hal by done.
    replace (Z.to_nat (0 + Z.of_nat n)) with n in * by lia.
    split; [done|]. split; [lia | done].
Qed.

Lemma parseKeyValue_ok_shape buf line len k v :
  parseKeyValue buf line len = ParseOk k v →
  Forall alnum k ∧ (1 ≤ length k ≤ 16)%nat ∧
  match v with Some w => (1 ≤ length w ≤ 32)%nat | None => True end.
Proof.
  unfold parseKeyValue.
  destruct (skipSpaces _ _ _) as [[P n1]|] eqn:Hskip; [|done].
  cbn [mbind option_bind].
  destruct (stripEol P (buf, n1)) as [[b1 m1]|] eqn:H1; [|done].
  cbn [mbind option_bind].
  destruct (stripEol P (b1, m1)) as [[b2 m2]|] eqn:H2; [|done].
  cbn [mbind option_bind].
  destruct (parseKeyAt b2 line P m2) as [r|] eqn:Hp; [|done].
  cbn [from_option_fault]. intros ->.
  apply (parseKeyAt_ok _ _ _ _ _ _ Hp).
  intros c Hc.
  apply skipSpaces_result in Hskip as (j & c0 & -> & Hc0 & Hns).
  apply stripEol_result in H1 as [_ H1]. apply stripEol_result in H2 as [_ H2].
  destruct (H2 _ _ Hc) as [-> | Hc1]; [done|].
  destruct (H1 _ _ Hc1) as [-> | Hc2]; [done|].
  unfold Mem.from in Hc0. case_bool_decide as Hline; [|done].
  rewrite lookup_drop in Hc0.
  replace (Z.to_nat (line + Z.of_nat j)) with (Z.to_nat line + j)%nat in Hc2 by lia.
  congruence.
Qed.

End ParserResults.

(** ** The two rounds of the terminator loop *)

Section Terminators.

Import CInt.

(** One round of the terminator loop on a line whose bytes up to [b], a
    byte that is no line terminator, lie before the bytes [rest]: the round
    removes the last byte of [rest] when it is a line terminator and leaves
    everything as it is otherwise.  [linePtr] may be anywhere up to the byte
    after [b]; when it is there and [rest] is empty, [len] is 0 and [b] is
    the byte the round reads. *)
Lemma stripEol_shape B b rest post P :
  ¬ eol b → 0 ≤ P ≤ Z.of_nat (length B) + 1 →
  Z.of_nat (length B) + 1 + Z.of_nat (length rest) - P < 2 ^ 63 →
  ∃ rest' post',
    stripEol P (B ++ b :: rest ++ Char.NUL :: post,
                Z.of_nat (length B) + 1 + Z.of_nat (length rest) - P)
    = Some (B ++ b :: rest' ++ Char.NUL :: post',
            Z.of_nat (length B) + 1 + Z.of_nat (length rest') - P) ∧
    ((rest' = rest ∧ post' = post ∧ (∀ e, last rest = Some e → ¬ eol e)) ∨
     (∃ e, rest = rest' ++ [e] ∧ eol e ∧ post' = Char.NUL :: post)).
Proof.
  intros Hb HP Hsize. unfold stripEol.
  set (len := Z.of_nat (length B) + 1 + Z.of_nat (length rest) - P).
  assert (P + ptrdiff_t (size_t (len - 1))
          = Z.of_nat (length B) + Z.of_nat (length rest)) as ->.
  { destruct (decide (len = 0)) as [H0 | H0].
    - rewrite H0, ptrdiff_t_minus_one. unfold len in H0. lia.
    - rewrite ptrdiff_t_small by (unfold len in *; lia). unfold len. lia. }
  destruct rest as [|e rest' _] using rev_ind.
  - (* the byte read is [b] *)
    cbn [app length]. rewrite Z.add_0_r, load_of_nat, list_lookup_middle by done.
    cbn [mbind option_bind]. unfold eol in Hb.
    rewrite !bool_decide_false by tauto. cbn [orb].
    exists [], post. split; [done|]. left. by repeat split.
  - (* the byte read is the last byte [e] of [rest] *)
    assert (B ++ b :: (rest' ++ [e]) ++ Char.NUL :: post
            = (B ++ b :: rest') ++ e :: Char.NUL :: post) as Hbuf
      by (by rewrite <- !app_assoc).
    assert (Z.of_nat (length B) + Z.of_nat (length (rest' ++ [e]))
            = Z.of_nat (length (B ++ b :: rest'))) as Hidx
      by (rewrite !length_app; cbn [length]; lia).
    rewrite Hbuf, Hidx, load_of_nat, list_lookup_middle by done.
    cbn [mbind option_bind].
    destruct (bool_decide (e = Char.LF) || bool_decide (e = Char.CR)) eqn:He.
    + unfold Mem.store. rewrite bool_decide_true
        by (rewrite !length_app; cbn [length]; lia).
      cbn [mbind option_bind]. rewrite Nat2Z.id.
      rewrite insert_app_r_alt, Nat.sub_diag by done. cbn [insert list_insert].
      exists rest', (Char.NUL :: post). split.
      * rewrite <- app_assoc. cbn [app]. do 2 f_equal.
        rewrite size_t_small; unfold len in *; rewrite length_app in *;
          cbn [length] in *; lia.
      * right. exists e. split; [done|]. split; [|done].
        apply orb_true_iff in He. rewrite !bool_decide_eq_true in He. done.
    + exists (rest' ++ [e]), post. split.
      * by rewrite Hbuf.
      * left. split; [done|]. split; [done|].
        intros e'. rewrite last_snoc. intros [= <-].
        apply orb_false_iff in He. rewrite !bool_decide_eq_false in He.
        unfold eol. tauto.
Qed.

(** The two rounds together remove at most two line terminators from the
    end of the line, and stop at the first byte that is none. *)
Lemma stripEol_twice B b rest post P :
  ¬ eol b → 0 ≤ P ≤ Z.of_nat (length B) + 1 →
  Z.of_nat (length B) + 1 + Z.of_nat (length rest) - P < 2 ^ 63 →
  ∃ rest2 t,
    stripEol P (B ++ b :: rest ++ Char.NUL :: post,
                Z.of_nat (length B) + 1 + Z.of_nat (length rest) - P)
      ≫= stripEol P
    = Some (B ++ b :: rest2 ++ Char.NUL :: replicate (length t) Char.NUL ++ post,
            Z.of_nat (length B) + 1 + Z.of_nat (length rest2) - P) ∧
    rest = rest2 ++ t ∧ Forall eol t ∧ (length t ≤ 2)%nat ∧
    ((length t < 2)%nat → ∀ e, last rest2 = Some e → ¬ eol e).
Proof.
  intros Hb HP Hsize.
  destruct (stripEol_shape B b rest post P Hb HP Hsize) as (r1 & p1 & -> & H1).
  cbn [mbind option_bind].
  assert (Z.of_nat (length r1) ≤ Z.of_nat (length rest)) as Hr1.
  { destruct H1 as [(-> & _) | (e & -> & _)]; [lia|]. rewrite length_app. lia. }
  destruct (stripEol_shape B b r1 p1 P Hb HP ltac:(lia)) as (r2 & p2 & -> & H2).
  destruct H1 as [(-> & -> & Hl1) | (e1 & -> & He1 & ->)];
    destruct H2 as [(-> & -> & Hl2) | (e2 & -> & He2 & ->)].
  - exists rest, []. cbn [length replicate app]. rewrite app_nil_r.
    split; [done|]. split; [done|]. split; [done|]. split; [lia | auto].
  - exfalso. apply (Hl1 e2); [by rewrite last_snoc | done].
  - exists r1, [e1]. cbn [length replicate app].
    split; [done|]. split; [done|]. split; [by apply Forall_singleton|].
    split; [lia | auto].
  - exists r2, [e2; e1]. cbn [length replicate app].
    split; [done|]. split; [by rewrite <- app_assoc|].
    split; [by apply Forall_cons; split; [|apply Forall_singleton]|].
    split; [lia|]. intros; lia.
Qed.

(** The first two loops of the parser, on a line of [s] spaces followed by
    a byte that is no space, in a buffer seen as the bytes up to [b], the
    bytes [rest] up to the end of the line, and what follows the line. *)
Lemma parseKeyValue_shape pre (s : nat) c more B b rest post :
  pre ++ replicate s Char.SPACE ++ c :: more = B ++ b :: rest ++ Char.NUL :: post →
  c ≠ Char.SPACE → ¬ eol b →
  (length pre + s ≤ length B + 1)%nat →
  Z.of_nat (length B) + 1 + Z.of_nat (length rest) - Z.of_nat (length pre) < 2 ^ 63 →
  ∃ rest2 t,
    parseKeyValue (B ++ b :: rest ++ Char.NUL :: post) (Z.of_nat (length pre))
      (Z.of_nat (length B) + 1 + Z.of_nat (length rest) - Z.of_nat (length pre))
    = from_option_fault
        (parseKeyAt (B ++ b :: rest2 ++ Char.NUL :: replicate (length t) Char.NUL ++ post)
           (Z.of_nat (length pre)) (Z.of_nat (length pre + s))
           (Z.of_nat (length B) + 1 + Z.of_nat (length rest2)
            - Z.of_nat (length pre + s))) ∧
    rest = rest2 ++ t ∧ Forall eol t ∧ (length t ≤ 2)%nat ∧
    ((length t < 2)%nat → ∀ e, last rest2 = Some e → ¬ eol e).
Proof.
  intros Hbuf Hc Hb HP Hsize. unfold parseKeyValue.
  assert (Mem.from (B ++ b :: rest ++ Char.NUL :: post) (Z.of_nat (length pre))
          = replicate s Char.SPACE ++ c :: more) as ->
    by (rewrite <- Hbuf; apply from_app).
  rewrite skipSpaces_spaces by (done || lia). cbn [mbind option_bind].
  rewrite size_t_small by lia.
  replace (Z.of_nat (length B) + 1 + Z.of_nat (length rest) - Z.of_nat (length pre)
           - Z.of_nat s)
    with (Z.of_nat (length B) + 1 + Z.of_nat (length rest)
          - (Z.of_nat (length pre) + Z.of_nat s)) by lia.
  destruct (stripEol_twice B b rest post (Z.of_nat (length pre) + Z.of_nat s))
    as (rest2 & t & Hstrip & Hrest); [done | lia | lia |].
  destruct (stripEol _ _) as [st1|]; [|done].
  cbn [mbind option_bind] in Hstrip |- *. rewrite Hstrip.
  exists rest2, t. split; [|done].
  by rewrite Nat2Z.inj_add.
Qed.

End Terminators.

(** ** Lines with spaces and terminators *)

Section MoreLines.

Import CInt.

Lemma parseKeyAt_invalid A K c tl line len :
  Forall alnum K → (length K ≤ 16)%nat →
  ¬ alnum c → c ≠ Char.SPACE → c ≠ Char.NUL →
  parseKeyAt (A ++ K ++ c :: tl) line (Z.of_nat (length A)) len
  = Some (ParseErr KREG_KEY_INVALID None
            (uint16_t (Z.of_nat (length A) + Z.of_nat (length K) - line + 1))).
Proof.
  intros HK HlenK Hc Hs Hn. unfold parseKeyAt.
  rewrite from_app, keyLoop_alnum by (unfold KREG_MAX_KEY_LEN; done || lia).
  cbn [keyLoop]. unfold alnum in Hc. apply not_true_is_false in Hc. rewrite Hc.
  by rewrite !bool_decide_false by done.
Qed.

(** A byte that no key admits, and that is no line terminator, after [s]
    spaces and at most 16 letters and digits: the line is rejected at the
    position of that byte. *)
Lemma parseKeyValue_invalid pre (s : nat) K c rest post :
  Forall alnum K → (length K ≤ 16)%nat →
  ¬ alnum c → c ≠ Char.SPACE → c ≠ Char.NUL → ¬ eol c →
  Z.of_nat (length (replicate s Char.SPACE ++ K ++ c :: rest)) < 2 ^ 63 →
  parseKeyValue (pre ++ (replicate s Char.SPACE ++ K ++ c :: rest) ++ Char.NUL :: post)
    (Z.of_nat (length pre))
    (Z.of_nat (length (replicate s Char.SPACE ++ K ++ c :: rest)))
  = ParseErr KREG_KEY_INVALID None (uint16_t (Z.of_nat s + Z.of_nat (length K) + 1)).
Proof.
  intros HK HlenK Hc Hs Hn He Hsize.
  rewrite !length_app, length_replicate in Hsize. cbn [length] in Hsize.
  set (B := pre ++ replicate s Char.SPACE ++ K).
  assert (length B = (length pre + s + length K)%nat) as HB
    by (unfold B; rewrite !length_app, length_replicate; lia).
  assert (pre ++ (replicate s Char.SPACE ++ K ++ c :: rest) ++ Char.NUL :: post
          = B ++ c :: rest ++ Char.NUL :: post) as Hbuf
    by (unfold B; by rewrite <- !app_assoc).
  assert (∃ c0 more, c0 ≠ Char.SPACE ∧
            pre ++ replicate s Char.SPACE ++ c0 :: more
            = B ++ c :: rest ++ Char.NUL :: post) as (c0 & more & Hc0 & Hview).
  { rewrite <- Hbuf. destruct K as [|k0 K'].
    - exists c, (rest ++ Char.NUL :: post). split; [done|]. by rewrite <- !app_assoc.
    - exists k0, (K' ++ c :: rest ++ Char.NUL :: post). split.
      + apply Forall_cons in HK as [Hk _]. by apply alnum_not_special in Hk as (? & _).
      + by rewrite <- !app_assoc. }
  destruct (parseKeyValue_shape pre s c0 more B c rest post Hview Hc0 He)
    as (rest2 & t & Hparse & _); [lia | lia |].
  rewrite Hbuf.
  replace (Z.of_nat (length (replicate s Char.SPACE ++ K ++ c :: rest)))
    with (Z.of_nat (length B) + 1 + Z.of_nat (length rest) - Z.of_nat (length pre))
    by (rewrite !length_app, length_replicate; cbn [length]; lia).
  rewrite Hparse. unfold B.
  rewrite (app_assoc pre), <- (app_assoc (pre ++ _) K).
  replace (Z.of_nat (length pre + s))
    with (Z.of_nat (length (pre ++ replicate s Char.SPACE)))
    by (rewrite length_app, length_replicate; lia).
  rewrite parseKeyAt_invalid by done.
  cbn [from_option_fault]. do 2 f_equal.
  rewrite length_app, length_replicate. lia.
Qed.

Lemma terminators_gone (rest rest2 t : list Z) :
  Forall eol rest → (length rest ≤ 2)%nat →
  rest = rest2 ++ t → (length t ≤ 2)%nat →
  ((length t < 2)%nat → ∀ e, last rest2 = Some e → ¬ eol e) →
  rest2 = [] ∧ t = rest.
Proof.
  intros Hrest Hlen -> Ht Hlast.
  destruct rest2 as [|e rest2 _] using rev_ind; [done|].
  exfalso. rewrite !length_app in Hlen. cbn [length] in Hlen.
  apply (Hlast ltac:(lia) e); [by rewrite last_snoc|].
  apply Forall_app in Hrest as [Hrest _]. apply Forall_app in Hrest as [_ He].
  by rewrite Forall_singleton in He.
Qed.

(** What follows the key on a line that is accepted: nothing, or a space
    and the value. *)
Lemma parseKeyAt_tail A K tail post line :
  Forall alnum K → (1 ≤ length K ≤ 16)%nat →
  tail = [] ∨ head tail = Some Char.SPACE → (length tail ≤ 33)%nat →
  parseKeyAt (A ++ K ++ tail ++ Char.NUL :: post) line
    (Z.of_nat (length A)) (Z.of_nat (length (K ++ tail)))
  = Some (ParseOk K (valueOut (drop 1 tail))).
Proof.
  intros HK HlenK Htail Hlen.
  destruct tail as [|c V].
  - apply (parseKeyAt_accept A K [] post line); [done | done | simpl; lia].
  - destruct Htail as [|[= ->]]; [done|]. cbn [drop].
    destruct V as [|v V].
    + unfold parseKeyAt.
      rewrite from_app, keyLoop_alnum by (unfold KREG_MAX_KEY_LEN; done || lia).
      cbn [app keyLoop].
      assert (Char.isalpha Char.SPACE || Char.isdigit Char.SPACE = false) as -> by done.
      rewrite bool_decide_true by done.
      rewrite Z.add_0_l, memcpy_app. cbn [mbind option_bind].
      rewrite uint8_t_size_t, length_app. cbn [length].
      match goal with |- context [uint8_t ?x] => replace x with 0 by lia end.
      change (uint8_t 0) with 0. unfold KREG_MAX_VAL_LEN.
      rewrite bool_decide_false by lia. by rewrite bool_decide_false by tauto.
    + apply (parseKeyAt_accept A K (v :: V) post line); [done | done |].
      cbn [length] in *. lia.
Qed.

(** A line that the parser accepts may end in a line terminator of one or
    two bytes, and its key may be followed by spaces before it and by a
    single space after it. *)
Lemma parseKeyValue_accept_terminated pre (s : nat) K tail term post :
  Forall alnum K → (1 ≤ length K ≤ 16)%nat →
  tail = [] ∨ head tail = Some Char.SPACE → (length tail ≤ 33)%nat →
  lastNotEol tail →
  Forall eol term → (length term ≤ 2)%nat →
  Z.of_nat s < 2 ^ 62 →
  parseKeyValue
    (pre ++ (replicate s Char.SPACE ++ K ++ tail ++ term) ++ Char.NUL :: post)
    (Z.of_nat (length pre))
    (Z.of_nat (length (replicate s Char.SPACE ++ K ++ tail ++ term)))
  = ParseOk K (valueOut (drop 1 tail)).
Proof.
  intros HK HlenK Htail HlenT Hlast Hterm HlenTerm Hs.
  assert (∃ front b, K ++ tail = front ++ [b] ∧ ¬ eol b) as (front & b & Hfront & Hb).
  { destruct tail as [|c tail' _] using rev_ind.
    - destruct K as [|c K' _] using rev_ind; [simpl in HlenK; lia|].
      exists K', c. split; [by rewrite app_nil_r|].
      apply Forall_app in HK as [_ Hc]. rewrite Forall_singleton in Hc.
      by apply alnum_not_special.
    - exists (K ++ tail'), c. split; [by rewrite app_assoc|].
      apply Hlast. by rewrite last_snoc. }
  destruct K as [|k0 K'] eqn:EK; [simpl in HlenK; lia|]. rewrite <- EK in *.
  assert (k0 ≠ Char.SPACE) as Hk0.
  { rewrite EK in HK. apply Forall_cons in HK as [Hk _].
    by apply alnum_not_special in Hk as (? & _). }
  set (B := pre ++ replicate s Char.SPACE ++ front).
  assert (Z.of_nat (length B) + 1
          = Z.of_nat (length pre) + Z.of_nat s + Z.of_nat (length (K ++ tail))) as HB.
  { unfold B. rewrite Hfront, !length_app, length_replicate. cbn [length]. lia. }
  assert (pre ++ (replicate s Char.SPACE ++ K ++ tail ++ term) ++ Char.NUL :: post
          = B ++ b :: term ++ Char.NUL :: post) as Hbuf.
  { unfold B. rewrite (app_assoc K), Hfront. by rewrite <- !app_assoc. }
  assert (pre ++ replicate s Char.SPACE
            ++ k0 :: (K' ++ tail ++ term ++ Char.NUL :: post)
          = B ++ b :: term ++ Char.NUL :: post) as Hview.
  { rewrite <- Hbuf, EK. by rewrite <- !app_assoc. }
  rewrite length_app in HB.
  destruct (parseKeyValue_shape pre s k0 _ B b term post Hview Hk0 Hb)
    as (rest2 & t & Hparse & Hsplit & Ht & HlenTt & Hstop); [lia | lia |].
  destruct (terminators_gone term rest2 t) as [-> ->]; try done.
  rewrite Hbuf.
  replace (Z.of_nat (length (replicate s Char.SPACE ++ K ++ tail ++ term)))
    with (Z.of_nat (length B) + 1 + Z.of_nat (length term) - Z.of_nat (length pre))
    by (rewrite !length_app, length_replicate; lia).
  rewrite Hparse. cbn [app length].
  assert (B ++ b :: Char.NUL :: replicate (length term) Char.NUL ++ post
          = (pre ++ replicate s Char.SPACE) ++ K ++ tail
              ++ Char.NUL :: replicate (length term) Char.NUL ++ post) as ->.
  { unfold B. rewrite (app_assoc K), Hfront. by rewrite <- !app_assoc. }
  replace (Z.of_nat (length pre + s))
    with (Z.of_nat (length (pre ++ replicate s Char.SPACE)))
    by (rewrite length_app, length_replicate; lia).
  replace (Z.of_nat (length B) + 1 + Z.of_nat 0
           - Z.of_nat (length (pre ++ replicate s Char.SPACE)))
    with (Z.of_nat (length (K ++ tail)))
    by (rewrite !length_app, length_replicate; lia).
  by rewrite parseKeyAt_tail.
Qed.

(** A line of spaces only, with or without a line terminator, has no key:
    it is rejected at the position after the spaces.  The byte before that
    position, a space of the line or the byte before the line, is the one
    the terminator loop reads: it must exist and be no line terminator. *)
Lemma parseKeyValue_blank pre (s : nat) term post :
  pre ++ replicate s Char.SPACE ≠ [] → lastNotEol (pre ++ replicate s Char.SPACE) →
  Forall eol term → (length term ≤ 2)%nat →
  Z.of_nat s < 2 ^ 62 →
  parseKeyValue (pre ++ (replicate s Char.SPACE ++ term) ++ Char.NUL :: post)
    (Z.of_nat (length pre)) (Z.of_nat (length (replicate s Char.SPACE ++ term)))
  = ParseErr KREG_KEY_EMPTY None (uint16_t (Z.of_nat s + 1)).
Proof.
  intros Hne Hlast Hterm HlenTerm Hs.
  destruct (pre ++ replicate s Char.SPACE) as [|x l] eqn:EB using rev_ind; [done|].
  clear IHl. rename l into B, x into b.
  assert (¬ eol b) as Hb by (apply Hlast; by rewrite last_snoc).
  assert (length B + 1 = length pre + s)%nat as HB.
  { apply (f_equal length) in EB. rewrite !length_app, length_replicate in EB.
    cbn [length] in EB. lia. }
  assert (pre ++ (replicate s Char.SPACE ++ term) ++ Char.NUL :: post
          = B ++ b :: term ++ Char.NUL :: post) as Hbuf.
  { rewrite <- (app_assoc (replicate _ _)), (app_assoc pre), EB.
    by rewrite <- !app_assoc. }
  assert (∃ c0 more, c0 ≠ Char.SPACE ∧
            pre ++ replicate s Char.SPACE ++ c0 :: more
            = B ++ b :: term ++ Char.NUL :: post) as (c0 & more & Hc0 & Hview).
  { rewrite <- Hbuf. destruct term as [|e term'].
    - exists Char.NUL, post. split; [done|]. by rewrite <- !app_assoc.
    - exists e, (term' ++ Char.NUL :: post). split.
      + apply Forall_cons in Hterm as [[-> | ->] _]; done.
      + by rewrite <- !app_assoc. }
  destruct (parseKeyValue_shape pre s c0 more B b term post Hview Hc0 Hb)
    as (rest2 & t & Hparse & Hsplit & Ht & HlenTt & Hstop); [lia | lia |].
  destruct (terminators_gone term rest2 t) as [-> ->]; try done.
  rewrite Hbuf.
  replace (Z.of_nat (length (replicate s Char.SPACE ++ term)))
    with (Z.of_nat (length B) + 1 + Z.of_nat (length term) - Z.of_nat (length pre))
    by (rewrite !length_app, length_replicate; lia).
  rewrite Hparse. cbn [app length]. unfold parseKeyAt.
  replace (Z.of_nat (length pre + s)) with (Z.of_nat (length (B ++ [b])))
    by (rewrite length_app; cbn [length]; lia).
  rewrite (cons_middle b), app_assoc, from_app. cbn [app keyLoop].
  assert (Char.isalpha Char.NUL || Char.isdigit Char.NUL = false) as -> by done.
  rewrite bool_decide_false by done. rewrite !bool_decide_true by done.
  cbn [from_option_fault]. do 2 f_equal.
  rewrite length_app. cbn [length]. lia.
Qed.

(** A value of 33 to 255 bytes is rejected at the position of its 33rd
    byte, with or without a line terminator after it. *)
Lemma parseKeyValue_long_value pre (s : nat) K V term post :
  Forall alnum K → (1 ≤ length K ≤ 16)%nat →
  (33 ≤ length V ≤ 255)%nat → lastNotEol V →
  Forall eol term → (length term ≤ 2)%nat →
  Z.of_nat s < 2 ^ 62 →
  parseKeyValue
    (pre ++ (replicate s Char.SPACE ++ K ++ Char.SPACE :: V ++ term) ++ Char.NUL :: post)
    (Z.of_nat (length pre))
    (Z.of_nat (length (replicate s Char.SPACE ++ K ++ Char.SPACE :: V ++ term)))
  = ParseErr KREG_VAL_TOO_LONG (Some K)
      (uint16_t (Z.of_nat s + Z.of_nat (length K) + 1 + KREG_MAX_VAL_LEN + 1)).
Proof.
  intros HK HlenK HlenV Hlast Hterm HlenTerm Hs.
  destruct V as [|b front _] using rev_ind; [simpl in HlenV; lia|].
  rename b into bb. set (V := front ++ [bb]) in *.
  assert (¬ eol bb) as Hb by (apply Hlast; unfold V; by rewrite last_snoc).
  destruct K as [|k0 K'] eqn:EK; [simpl in HlenK; lia|]. rewrite <- EK in *.
  assert (k0 ≠ Char.SPACE) as Hk0.
  { rewrite EK in HK. apply Forall_cons in HK as [Hk _].
    by apply alnum_not_special in Hk as (? & _). }
  set (B := pre ++ replicate s Char.SPACE ++ K ++ Char.SPACE :: front).
  assert (Z.of_nat (length B) + 1
          = Z.of_nat (length pre) + Z.of_nat s + Z.of_nat (length K) + 1
            + Z.of_nat (length V)) as HB.
  { unfold B, V. rewrite !length_app, length_replicate. cbn [length].
    rewrite ?length_app. cbn [length]. lia. }
  assert (pre ++ (replicate s Char.SPACE ++ K ++ Char.SPACE :: V ++ term)
            ++ Char.NUL :: post
          = B ++ bb :: term ++ Char.NUL :: post) as Hbuf.
  { unfold B, V. rewrite <- !app_assoc. cbn [app]. by rewrite <- !app_assoc. }
  assert (pre ++ replicate s Char.SPACE
            ++ k0 :: (K' ++ Char.SPACE :: V ++ term ++ Char.NUL :: post)
          = B ++ bb :: term ++ Char.NUL :: post) as Hview.
  { rewrite <- Hbuf, EK. rewrite <- !app_assoc. cbn [app]. by rewrite <- !app_assoc. }
  destruct (parseKeyValue_shape pre s k0 _ B bb term post Hview Hk0 Hb)
    as (rest2 & t & Hparse & Hsplit & Ht & HlenTt & Hstop); [lia | lia |].
  destruct (terminators_gone term rest2 t) as [-> ->]; try done.
  rewrite Hbuf.
  replace (Z.of_nat (length (replicate s Char.SPACE ++ K ++ Char.SPACE :: V ++ term)))
    with (Z.of_nat (length B) + 1 + Z.of_nat (length term) - Z.of_nat (length pre))
    by (rewrite !length_app, length_replicate; cbn [length]; rewrite ?length_app; lia).
  rewrite Hparse. cbn [app length].
  assert (B ++ bb :: Char.NUL :: replicate (length term) Char.NUL ++ post
          = (pre ++ replicate s Char.SPACE) ++ K ++ valuePart V
              ++ Char.NUL :: replicate (length term) Char.NUL ++ post) as ->.
  { unfold B, V. destruct front; cbn [valuePart app]; rewrite <- !app_assoc;
      cbn [app]; by rewrite <- ?app_assoc. }
  assert (valuePart V = Char.SPACE :: V) as HvP by (unfold V; by destruct front).
  replace (Z.of_nat (length pre + s))
    with (Z.of_nat (length (pre ++ replicate s Char.SPACE)))
    by (rewrite length_app, length_replicate; lia).
  replace (Z.of_nat (length B) + 1 + Z.of_nat 0
           - Z.of_nat (length (pre ++ replicate s Char.SPACE)))
    with (Z.of_nat (length (K ++ valuePart V)))
    by (rewrite HvP, !length_app, length_replicate; cbn [length]; lia).
  rewrite parseKeyAt_value_too_long by done.
  cbn [from_option_fault]. do 2 f_equal.
  rewrite length_app, length_replicate. lia.
Qed.

End MoreLines.

(** ** The loader stays in its buffers *)

Section LoaderSafety.

Import CInt.

Lemma spaces_split (l : list Z) :
  ∃ (k : nat) more, l = replicate k Char.SPACE ++ more ∧ head more ≠ Some Char.SPACE.
Proof.
  induction l as [|c l (k & more & -> & Hmore)].
  - by exists 0%nat, [].
  - destruct (decide (c = Char.SPACE)) as [-> | Hc].
    + by exists (S k), more.
    + exists 0%nat, (c :: replicate k Char.SPACE ++ more). split; [done|].
      cbn. congruence.
Qed.

(** A line that does not start with a line terminator is parsed without
    a step outside its buffer, when the line starts the buffer. *)
Lemma parseLine_no_fault (l : list Z) c :
  head l = Some c → ¬ eol c → Z.of_nat (length l) < 2 ^ 63 →
  parseLine l ≠ ParseFault.
Proof.
  intros Hhead Hc Hsize. unfold parseLine.
  destruct (spaces_split l) as (k & more & -> & Hmore).
  rewrite length_app, length_replicate in Hsize.
  assert (∃ c0 tl, c0 ≠ Char.SPACE ∧ more ++ [Char.NUL] = c0 :: tl) as (c0 & tl & Hc0 & Htl).
  { destruct more as [|m more']; [by exists Char.NUL, []|].
    exists m, (more' ++ [Char.NUL]). split; [|done]. cbn in Hmore. congruence. }
  assert (∃ B b rest, ¬ eol b ∧ (k ≤ length B + 1)%nat ∧
            replicate k Char.SPACE ++ more = B ++ b :: rest) as (B & b & rest & Hb & HB & Hl).
  { destruct k as [|k].
    - cbn [replicate app] in *. destruct more as [|m more']; [done|].
      injection Hhead as ->. exists [], c, more'. split; [done|]. split; [simpl; lia | done].
    - exists (replicate k Char.SPACE), Char.SPACE, more.
      split; [unfold eol; by intros [|]|]. split; [rewrite length_replicate; lia|].
      rewrite replicate_S_end. by rewrite <- app_assoc. }
  assert (Z.of_nat (length B) + 1 + Z.of_nat (length rest)
          = Z.of_nat k + Z.of_nat (length more)) as Hlen.
  { apply (f_equal length) in Hl. rewrite !length_app, length_replicate in Hl.
    cbn [length] in Hl. lia. }
  destruct (parseKeyValue_shape [] k c0 tl B b rest [])
    as (rest2 & t & Hparse & Hsplit & _); [| done | done | simpl; lia | simpl; lia |].
  { cbn [app]. rewrite <- Htl, app_assoc, Hl. by rewrite <- app_assoc. }
  cbn [length] in Hparse. change (Z.of_nat 0) with 0 in Hparse.
  rewrite Z.sub_0_r in Hparse.
  assert ((replicate k Char.SPACE ++ more) ++ [Char.NUL]
          = B ++ b :: rest ++ [Char.NUL]) as -> by (rewrite Hl; by rewrite <- app_assoc).
  rewrite length_app, length_replicate, Nat2Z.inj_add, <- Hlen, Hparse.
  destruct (parseKeyAt_no_fault
              (B ++ b :: rest2 ++ Char.NUL :: replicate (length t) Char.NUL ++ [])
              0 (Z.of_nat (0 + k))
              (Z.of_nat (length B) + 1 + Z.of_nat (length rest2) - Z.of_nat (0 + k)))
    as (r & -> & Hr); [lia | lia | | done].
  replace (Z.to_nat (Z.of_nat (0 + k)
                     + (Z.of_nat (length B) + 1 + Z.of_nat (length rest2) - Z.of_nat (0 + k))))
    with (length (B ++ b :: rest2)) by (rewrite length_app; cbn [length]; lia).
  rewrite (app_comm_cons rest2), app_assoc. by apply list_lookup_middle.
Qed.

Lemma getlines_lines file :
  Forall (λ l, l ≠ [] ∧ (length l ≤ length file)%nat) (getlines file).
Proof.
  induction file as [|c file IH]; cbn [getlines]; [done|].
  assert (Forall (λ l, l ≠ [] ∧ (length l ≤ length (c :: file))%nat) (getlines file)) as IH'.
  { eapply Forall_impl; [done|]. intros l [? ?]. split; [done | simpl; lia]. }
  case_bool_decide.
  - apply Forall_cons. split; [|done]. split; [done | simpl; lia].
  - destruct (getlines file) as [|l ls] eqn:E.
    + apply Forall_singleton. split; [done | simpl; lia].
    + apply Forall_cons in IH as [[? ?] _]. apply Forall_cons in IH' as [_ ?].
      apply Forall_cons. split; [|done]. split; [done | simpl; lia].
Qed.

Lemma readLoop_no_fault policy lines lineCnt ln ep kvs :
  Forall (λ l, l ≠ [] ∧ Z.of_nat (length l) < 2 ^ 63) lines →
  is_Some (readLoop policy lines lineCnt ln ep kvs).
Proof.
  intros Hlines. revert lineCnt ln ep kvs.
  induction Hlines as [|l lines [Hl Hsize] _ IH]; intros lineCnt ln ep kvs;
    cbn [readLoop]; [eauto|].
  destruct l as [|c l']; [done|].
  change (Mem.load ((c :: l') ++ [Char.NUL]) 0) with (Some c).
  cbn [mbind option_bind].
  destruct (bool_decide (c ≠ Char.CR) && bool_decide (c ≠ Char.LF)) eqn:Hc; [|apply IH].
  apply andb_true_iff in Hc as [Hcr Hlf]. rewrite bool_decide_eq_true in Hcr, Hlf.
  pose proof (parseLine_no_fault (c :: l') c eq_refl
                ltac:(unfold eol; tauto) Hsize) as Hnf.
  unfold parseLine in Hnf.
  destruct (parseKeyValue _ _ _); [apply IH | eauto | done].
Qed.

End LoaderSafety.

(** ** The codes of the parser *)

Section ParserErrors.

Lemma parseKeyAt_err buf line start len code k pos :
  parseKeyAt buf line start len = Some (ParseErr code k pos) →
  (k = None ∧ (code = KREG_KEY_EMPTY ∨ code = KREG_KEY_INVALID ∨ code = KREG_KEY_TOO_LONG))
  ∨ (is_Some k ∧ code = KREG_VAL_TOO_LONG).
Proof.
  unfold parseKeyAt.
  destruct (keyLoop _ _ _) as [q | q kl | q kl | q |]; try done.
  - intros [= <- <- <-]. left. auto.
  - destruct (Mem.memcpy buf start kl) as [K|]; cbn [mbind option_bind]; [|done].
    repeat case_bool_decide.
    + intros [= <- <- <-]. right. eauto.
    + by destruct (Mem.memcpy _ _ _).
    + done.
  - case_bool_decide.
    + intros [= <- <- <-]. left. auto.
    + by destruct (Mem.memcpy buf start kl).
  - intros [= <- <- <-]. left. auto.
Qed.

Lemma parseKeyValue_err buf line len code k pos :
  parseKeyValue buf line len = ParseErr code k pos →
  (k = None ∧ (code = KREG_KEY_EMPTY ∨ code = KREG_KEY_INVALID ∨ code = KREG_KEY_TOO_LONG))
  ∨ (is_Some k ∧ code = KREG_VAL_TOO_LONG).
Proof.
  unfold parseKeyValue.
  destruct (skipSpaces _ _ _) as [[P n1]|]; [|done]. cbn [mbind option_bind].
  destruct (stripEol P (buf, n1)) as [[b1 m1]|]; [|done]. cbn [mbind option_bind].
  destruct (stripEol P (b1, m1)) as [[b2 m2]|]; [|done]. cbn [mbind option_bind].
  destruct (parseKeyAt b2 line P m2) as [r|] eqn:Hp; [|done].
  cbn [from_option_fault]. intros ->. by eapply parseKeyAt_err.
Qed.

End ParserErrors.

(** ** The dispatcher, command by command *)

Section Messages.

Implicit Types (kvs : list KeyValuePair) (data : list Z).

(** The three tests of the command, once the message is in lower case. *)
Lemma command_tests data :
  ∃ m, lowered data = Some m ∧
    strncmp_eq (Char.bytes "put" ++ [Char.NUL]) m 3
      = Some (bool_decide (command data = Some cmd_put)) ∧
    strncmp_eq (Char.bytes "get" ++ [Char.NUL]) m 3
      = Some (bool_decide (command data = Some cmd_get)) ∧
    strncmp_eq (Char.bytes "bye" ++ [Char.NUL]) m 3
      = Some (bool_decide (command data = Some cmd_bye)) ∧
    ∀ cmd, cmd = cmd_put ∨ cmd = cmd_get → command data = Some cmd →
      m = cmd ++ drop 3 data ++ [Char.NUL].
Proof.
  destruct (lowered_cases data) as (m & Hm & Hlast & Hcases).
  exists m. split; [done|].
  change (Char.bytes "put" ++ [Char.NUL]) with [112; 117; 116; Char.NUL].
  change (Char.bytes "get" ++ [Char.NUL]) with [103; 101; 116; Char.NUL].
  change (Char.bytes "bye" ++ [Char.NUL]) with [98; 121; 101; Char.NUL].
  change cmd_put with [112; 117; 116]. change cmd_get with [103; 101; 116].
  change cmd_bye with [98; 121; 101].
  destruct (Hcases 112 117 116) as [Hput Hmput]; [done..|].
  destruct (Hcases 103 101 116) as [Hget Hmget]; [done..|].
  destruct (Hcases 98 121 101) as [Hbye Hmbye]; [done..|].
  rewrite !strncmp_eq_3 by done.
  repeat split.
  - f_equal. by apply bool_decide_ext.
  - f_equal. by apply bool_decide_ext.
  - f_equal. by apply bool_decide_ext.
  - intros cmd [-> | ->]; auto.
Qed.

Lemma processClientMessage_lowered policy kvs data m :
  lowered data = Some m →
  processClientMessage policy kvs data =
  (isput ← strncmp_eq (Char.bytes "put" ++ [Char.NUL]) m 3;
   if (isput : bool) then
     r ← KREG_PutKey policy kvs m 3;
     match retVal (r : kreg_call) with
     | KREG_OK =>
         reply (Char.bytes "[" ++ fmt_s (out_key r) ++ Char.bytes "] <= ["
                  ++ fmt_s (out_value r) ++ Char.bytes "]" ++ [Char.LF])
               (out_keyValuePairs r)
     | e => reply (createErrMsgToClient (out_key r) e) (out_keyValuePairs r)
     end
   else
     isget ← strncmp_eq (Char.bytes "get" ++ [Char.NUL]) m 3;
     if (isget : bool) then
       r ← KREG_GetKey kvs m 3;
       match retVal (r : kreg_call) with
       | KREG_OK =>
           reply (Char.bytes "[" ++ fmt_s (out_key r) ++ Char.bytes "] => ["
                    ++ fmt_s (out_value r) ++ Char.bytes "]" ++ [Char.LF])
                 (out_keyValuePairs r)
       | e => reply (createErrMsgToClient (out_key r) e) (out_keyValuePairs r)
       end
     else
       isbye ← strncmp_eq (Char.bytes "bye" ++ [Char.NUL]) m 3;
       if (isbye : bool) then
         Some {| written := None; removed := true; keyValuePairs := kvs |}
       else reply (Char.bytes "???" ++ [Char.LF]) kvs).
Proof.
  unfold lowered, processClientMessage.
  destruct (Mem.strlen (data ++ [Char.NUL])) as [n|]; [|done].
  cbn [mbind option_bind]. by intros [= ->].
Qed.

(** A put: the parse of what follows the command, then [storeKey]. *)
Lemma process_put policy kvs data :
  command data = Some cmd_put →
  processClientMessage policy kvs data =
  match argument cmd_put data with
  | ParseFault => None
  | ParseErr code k _ => reply (createErrMsgToClient k code) kvs
  | ParseOk k v =>
      match (storeKey policy kvs k v).1 with
      | KREG_OK => reply (Char.bytes "[" ++ c_str k ++ Char.bytes "] <= [" ++ fmt_s v
                            ++ Char.bytes "]" ++ [Char.LF])
                         (storeKey policy kvs k v).2
      | e => reply (createErrMsgToClient (Some k) e) (storeKey policy kvs k v).2
      end
  end.
Proof.
  intros Hcmd.
  destruct (command_tests data) as (m & Hm & Hput & _ & _ & Hmsg).
  rewrite (processClientMessage_lowered _ _ _ _ Hm), Hput.
  cbn [mbind option_bind]. rewrite bool_decide_true by done.
  rewrite (Hmsg cmd_put) by auto.
  unfold KREG_PutKey, argument. cbn zeta.
  destruct (Mem.strlen _) as [len|]; [|done]. cbn [mbind option_bind from_option_fault].
  destruct (parseKeyValue _ 3 len) as [k v | code k pos |] eqn:Hparse; [| |done].
  - destruct (storeKey policy kvs k v) as [r kvs']. cbn [mbind option_bind fst snd].
    by destruct r.
  - cbn [mbind option_bind retVal out_key out_keyValuePairs].
    apply parseKeyValue_code in Hparse. by destruct code.
Qed.

(** A get: the parse of what follows the command, then [readKey]. *)
Lemma process_get policy kvs data :
  command data = Some cmd_get →
  processClientMessage policy kvs data =
  match argument cmd_get data with
  | ParseFault => None
  | ParseErr code k _ => reply (createErrMsgToClient k code) kvs
  | ParseOk k v =>
      match (readKey kvs k v).1 with
      | KREG_OK => reply (Char.bytes "[" ++ c_str k ++ Char.bytes "] => ["
                            ++ fmt_s (readKey kvs k v).2 ++ Char.bytes "]" ++ [Char.LF])
                         kvs
      | e => reply (createErrMsgToClient (Some k) e) kvs
      end
  end.
Proof.
  intros Hcmd.
  destruct (command_tests data) as (m & Hm & Hput & Hget & _ & Hmsg).
  rewrite (processClientMessage_lowered _ _ _ _ Hm), Hput, Hget.
  cbn [mbind option_bind].
  rewrite bool_decide_false by (rewrite Hcmd; by intros [=]).
  cbn [mbind option_bind]. rewrite bool_decide_true by done.
  rewrite (Hmsg cmd_get) by auto.
  unfold KREG_GetKey, argument. cbn zeta.
  destruct (Mem.strlen _) as [len|]; [|done]. cbn [mbind option_bind from_option_fault].
  destruct (parseKeyValue _ 3 len) as [k v | code k pos |] eqn:Hparse; [| |done].
  - destruct (readKey kvs k v) as [r v']. cbn [mbind option_bind fst snd].
    by destruct r.
  - cbn [mbind option_bind retVal out_key out_keyValuePairs].
    apply parseKeyValue_code in Hparse. by destruct code.
Qed.

Lemma process_bye policy kvs data :
  command data = Some cmd_bye →
  processClientMessage policy kvs data
  = Some {| written := None; removed := true; keyValuePairs := kvs |}.
Proof.
  intros Hcmd.
  destruct (command_tests data) as (m & Hm & Hput & Hget & Hbye & _).
  rewrite (processClientMessage_lowered _ _ _ _ Hm), Hput, Hget, Hbye.
  cbn [mbind option_bind].
  rewrite !bool_decide_false by (rewrite Hcmd; by intros [=]).
  cbn [mbind option_bind]. by rewrite bool_decide_true.
Qed.

Lemma process_other policy kvs data :
  command data ≠ Some cmd_put → command data ≠ Some cmd_get →
  command data ≠ Some cmd_bye →
  processClientMessage policy kvs data = reply (Char.bytes "???" ++ [Char.LF]) kvs.
Proof.
  intros Hp Hg Hb.
  destruct (command_tests data) as (m & Hm & Hput & Hget & Hbye & _).
  rewrite (processClientMessage_lowered _ _ _ _ Hm), Hput, Hget, Hbye.
  cbn [mbind option_bind]. by rewrite !bool_decide_false.
Qed.

(** The four ways a message can go. *)
Lemma command_cases data :
  command data = Some cmd_put ∨ command data = Some cmd_get ∨
  command data = Some cmd_bye ∨
  (command data ≠ Some cmd_put ∧ command data ≠ Some cmd_get ∧
   command data ≠ Some cmd_bye).
Proof.
  destruct (decide (command data = Some cmd_put)); [by left|].
  destruct (decide (command data = Some cmd_get)); [by right; left|].
  destruct (decide (command data = Some cmd_bye)); [by right; right; left|].
  by right; right; right.
Qed.

(** The text behind the command, up to its first NUL. *)
Lemma argument_eq cmd data line post :
  length cmd = 3%nat → drop 3 data ++ [Char.NUL] = line ++ Char.NUL :: post →
  Forall nonNUL line →
  argument cmd data
  = parseKeyValue (cmd ++ line ++ Char.NUL :: post) 3 (Z.of_nat (length line)).
Proof.
  intros Hcmd Hsplit Hline. unfold argument. cbn zeta.
  rewrite Hsplit.
  replace 3 with (Z.of_nat (length cmd)) at 1 by lia. rewrite from_app.
  by rewrite strlen_nonNUL.
Qed.

End Messages.

Section MessagesMore.

Implicit Types (kvs : list KeyValuePair) (data : list Z).

Lemma eol_nonNUL t : Forall eol t → Forall nonNUL t.
Proof. intros H. eapply Forall_impl; [done|]. by intros c [-> | ->]. Qed.

Lemma spaces_nonNUL s : Forall nonNUL (replicate s Char.SPACE).
Proof. apply Forall_replicate. done. Qed.

Lemma argument_blank cmd data (s : nat) term :
  length cmd = 3%nat → lastNotEol cmd →
  drop 3 data = replicate s Char.SPACE ++ term →
  Forall eol term → (length term ≤ 2)%nat →
  Z.of_nat s < 2 ^ 62 →
  argument cmd data = ParseErr KREG_KEY_EMPTY None (CInt.uint16_t (Z.of_nat s + 1)).
Proof.
  intros Hcmd Hlast Hreq Hterm Hlt Hs.
  rewrite (argument_eq cmd data (replicate s Char.SPACE ++ term) []);
    [| done | by rewrite Hreq |].
  - pose proof (parseKeyValue_blank cmd s term []) as H.
    rewrite Hcmd in H. apply H; try done.
    + destruct cmd; [done|]. done.
    + intros c Hc. destruct s as [|s].
      * cbn [replicate] in Hc. rewrite app_nil_r in Hc. by apply Hlast.
      * rewrite replicate_S_end, app_assoc, last_snoc in Hc.
        injection Hc as <-. by intros [|].
  - apply Forall_app. split; [apply spaces_nonNUL | by apply eol_nonNUL].
Qed.

(** The replies, where nothing in them is cut at a NUL. *)
Lemma reply_text text kvs :
  Forall nonNUL text →
  reply text kvs = Some {| written := Some text; removed := false; keyValuePairs := kvs |}.
Proof. intros H. unfold reply. by rewrite c_str_id. Qed.

Lemma process_kvs policy kvs data h :
  processClientMessage policy kvs data = Some h →
  keyValuePairs h = kvs ∨
  (command data = Some cmd_put ∧
   ∃ k v, argument cmd_put data = ParseOk k v ∧
          keyValuePairs h = (storeKey policy kvs k v).2).
Proof.
  destruct (command_cases data) as [Hc | [Hc | [Hc | (Hp & Hg & Hb)]]].
  - rewrite process_put by done.
    destruct (argument cmd_put data) as [k v | code k pos |] eqn:Harg; [| |done].
    + intros H. right. split; [done|]. exists k, v. split; [done|].
      destruct (storeKey policy kvs k v).1; by injection H as <-.
    + intros [= <-]. by left.
  - rewrite process_get by done.
    destruct (argument cmd_get data) as [k v | code k pos |]; [| |done].
    + intros H. left. destruct (readKey kvs k v).1; by injection H as <-.
    + intros [= <-]. by left.
  - rewrite process_bye by done. intros [= <-]. by left.
  - rewrite process_other by done. intros [= <-]. by left.
Qed.

End MessagesMore.

(** ** The codes of the loader *)

Section LoaderMore.

(** The codes that the loop returns. *)
Lemma readLoop_codes policy lines cnt ln ep kvs st :
  readLoop policy lines cnt ln ep kvs = Some st →
  ld_ret st = KREG_OK ∨ ld_ret st = KREG_KEY_EMPTY ∨ ld_ret st = KREG_KEY_INVALID ∨
  ld_ret st = KREG_KEY_TOO_LONG ∨ ld_ret st = KREG_VAL_TOO_LONG.
Proof.
  revert cnt ln ep kvs.
  induction lines as [|l lines IH]; intros cnt ln ep kvs; cbn [readLoop].
  { intros [= <-]. by left. }
  destruct (Mem.load _ 0) as [c|]; [|done]. cbn [mbind option_bind].
  destruct (_ && _); [|apply IH].
  destruct (parseKeyValue _ _ _) as [k v | code k pos |] eqn:Hp; [apply IH | |done].
  intros [= <-]. cbn [ld_ret].
  apply parseKeyValue_err in Hp as [[_ [-> | [-> | ->]]] | [_ ->]]; tauto.
Qed.

End LoaderMore.

(** ** Keys and values as strings *)

Section BlocksFacts.

Lemma strcmp_eq_never K b : Forall nonNUL K → Blocks.strcmp_eq K b ≠ Some true.
Proof.
  intros HK. revert b. induction HK as [|c K Hc _ IH]; intros b; [done|].
  destruct b as [|cb b]; [done|]. cbn [Blocks.strcmp_eq].
  case_bool_decide; [|done]. rewrite bool_decide_false by done. apply IH.
Qed.

Lemma strcmp_eq_self K : Forall nonNUL K → Blocks.strcmp_eq K K = None.
Proof.
  induction 1 as [|c K Hc _ IH]; [done|]. cbn [Blocks.strcmp_eq].
  rewrite bool_decide_true by done. by rewrite bool_decide_false by done.
Qed.

(** Had the parser put a NUL behind its copies, [strcmp] would compare
    their contents: this is the comparison of [searchKey]. *)
Lemma strcmp_eq_terminated a b :
  Forall nonNUL a → Forall nonNUL b →
  Blocks.strcmp_eq (a ++ [Char.NUL]) (b ++ [Char.NUL]) = Some (bool_decide (a = b)).
Proof.
  intros Ha. revert b. induction Ha as [|c a Hc _ IH]; intros b Hb.
  - destruct Hb as [|cb b Hcb _]; cbn [app Blocks.strcmp_eq].
    + by rewrite !bool_decide_true.
    + rewrite bool_decide_false by (intros E; by rewrite <- E in Hcb).
      by rewrite bool_decide_false.
  - destruct Hb as [|cb b Hcb Hb]; cbn [app Blocks.strcmp_eq].
    + rewrite bool_decide_false by done. by rewrite bool_decide_false.
    + case_bool_decide as E.
      * subst cb. rewrite bool_decide_false by done. rewrite IH by done.
        f_equal. apply bool_decide_ext. split; [by intros -> | by intros [= ->]].
      * rewrite bool_decide_false; [done|]. by intros [= ? _].
Qed.

(** Behind two blocks with the same bytes the comparison goes on in what
    follows them. *)
Lemma strcmp_eq_app K a b :
  Forall nonNUL K → Blocks.strcmp_eq (K ++ a) (K ++ b) = Blocks.strcmp_eq a b.
Proof.
  induction 1 as [|c K Hc _ IH]; [done|]. cbn [app Blocks.strcmp_eq].
  rewrite bool_decide_true by done. by rewrite bool_decide_false by done.
Qed.

Lemma searchKey_absent K kvs r :
  Forall nonNUL K → Blocks.searchKey K kvs = Some r → r = None.
Proof.
  intros HK. revert r. induction kvs as [|kv kvs IH]; intros r; cbn [Blocks.searchKey].
  { by intros [= <-]. }
  pose proof (strcmp_eq_never K (key kv) HK) as Hnever.
  destruct (Blocks.strcmp_eq K (key kv)) as [[|]|]; [done| |done].
  cbn [mbind option_bind].
  destruct (Blocks.searchKey K kvs) as [r'|]; [|done].
  rewrite (IH r' eq_refl). cbn [mbind option_bind]. by intros [= <-].
Qed.

Lemma searchKey_behind K kvs v :
  Forall nonNUL K →
  Blocks.searchKey K (kvs ++ [{| key := K; value := v |}]) = None.
Proof.
  intros HK. induction kvs as [|kv kvs IH]; cbn [app Blocks.searchKey key].
  - by rewrite strcmp_eq_self.
  - pose proof (strcmp_eq_never K (key kv) HK) as Hnever.
    destruct (Blocks.strcmp_eq K (key kv)) as [[|]|]; [done| |done].
    cbn [mbind option_bind]. by rewrite IH.
Qed.

Lemma strlen_range l n : Mem.strlen l = Some n → 0 ≤ n < Z.of_nat (length l).
Proof.
  intros (line & post & -> & ->)%strlen_split.
  rewrite length_app. cbn [length]. lia.
Qed.

Lemma c_string_nonNUL K : Forall nonNUL K → Blocks.c_string K = None.
Proof.
  intros HK. unfold Blocks.c_string.
  destruct (Mem.strlen K) as [n|] eqn:E; [|done].
  apply strlen_split in E as (line & post & -> & _).
  apply Forall_app in HK as [_ HK]. by apply Forall_cons in HK as [? _].
Qed.

(** The string at a block without a NUL, in a buffer that goes on behind
    it with a byte [x] and a NUL. *)
Lemma c_string_behind K x behind :
  Forall nonNUL K → x ≠ Char.NUL →
  Blocks.c_string (K ++ x :: Char.NUL :: behind) = Some (K ++ [x]).
Proof.
  intros HK Hx. unfold Blocks.c_string.
  replace (K ++ x :: Char.NUL :: behind) with ((K ++ [x]) ++ Char.NUL :: behind)
    by (by rewrite <- app_assoc).
  rewrite strlen_nonNUL by (apply Forall_app; split; [done | by apply Forall_singleton]).
  cbn [mbind option_bind]. f_equal.
  rewrite Nat2Z.id. by rewrite take_app_length.
Qed.

Lemma c_string_shorter block s :
  Blocks.c_string block = Some s → (length s < length block)%nat.
Proof.
  unfold Blocks.c_string. destruct (Mem.strlen block) as [n|] eqn:E; [|done].
  cbn [mbind option_bind]. intros [= <-]. apply strlen_range in E.
  rewrite length_take. lia.
Qed.

End BlocksFacts.

(** ** Lines of line terminators only *)

Section ManyTerminators.

Import CInt.



End ManyTerminators.

(** ** Every reply is a line *)

Section ReplyLines.

Import Server.

Lemma c_str_nonNUL s : Forall nonNUL (c_str s).
Proof.
  induction s as [|c s IH]; cbn [c_str]; [done|].
  case_bool_decide; [done|]. by apply Forall_cons.
Qed.

Lemma fmt_s_nonNUL v : Forall nonNUL (fmt_s v).
Proof. destruct v; [apply c_str_nonNUL | by repeat constructor]. Qed.

(** A text with no NUL in it that ends its line. *)
Lemma reply_line front kvs h r :
  Forall nonNUL front →
  reply (front ++ [Char.LF]) kvs = Some h → written h = Some r →
  r ≠ [] ∧ last r = Some Char.LF.
Proof.
  intros Hfront. unfold reply.
  rewrite c_str_id by (apply Forall_app; split; [done | by repeat constructor]).
  intros [= <-]. cbn [written]. intros [= <-].
  split; [by destruct front | by rewrite last_snoc].
Qed.

Lemma errMsg_line k e :
  ∃ front, createErrMsgToClient k e = front ++ [Char.LF] ∧ Forall nonNUL front.
Proof.
  pose proof (fmt_s_nonNUL k) as Hk.
  destruct e; cbn [createErrMsgToClient];
    first [ eexists; split; [reflexivity|]; by_evaluation
          | eexists; split; [by rewrite !app_assoc|];
            repeat (apply Forall_app; split); done || by_evaluation ].
Qed.

Lemma answer_line (arrow : list Z) k v :
  Forall nonNUL arrow →
  ∃ front, Char.bytes "[" ++ c_str k ++ arrow ++ fmt_s v ++ Char.bytes "]" ++ [Char.LF]
           = front ++ [Char.LF] ∧ Forall nonNUL front.
Proof.
  intros Harrow. eexists. split; [by rewrite !app_assoc|].
  repeat (apply Forall_app; split);
    first [done | apply c_str_nonNUL | apply fmt_s_nonNUL | by_evaluation].
Qed.

Lemma argument_no_fault (x y g : Z) data :
  ¬ eol g → Z.of_nat (length data) < 2 ^ 63 → argument [x; y; g] data ≠ ParseFault.
Proof.
  intros Hg Hsize. unfold argument. cbn zeta.
  change 3 with (Z.of_nat (length [x; y; g])) at 1. rewrite from_app.
  destruct (strlen_terminated (drop 3 data)) as [n Hn]. rewrite Hn.
  cbn [mbind option_bind from_option_fault].
  destruct (strlen_split _ _ Hn) as (line & post & Hrest & ->). rewrite Hrest.
  assert (Z.of_nat (length line) < 2 ^ 63) as Hline.
  { apply (f_equal length) in Hrest. rewrite !length_app, length_drop in Hrest.
    cbn [length] in Hrest. lia. }
  exact (parseKeyValue_no_fault [x; y] g line post Hg Hline).
Qed.

(** What a message that is no [bye] is answered with. *)
Lemma process_reply policy kvs data :
  Z.of_nat (length data) < 2 ^ 63 → command data ≠ Some cmd_bye →
  ∃ h r, processClientMessage policy kvs data = Some h ∧
    written h = Some r ∧ removed h = false ∧ r ≠ [] ∧ last r = Some Char.LF.
Proof.
  intros Hsize Hbye.
  assert (∀ text kvs', (∃ front, text = front ++ [Char.LF] ∧ Forall nonNUL front) →
            ∃ h r, reply text kvs' = Some h ∧ written h = Some r ∧ removed h = false
                   ∧ r ≠ [] ∧ last r = Some Char.LF) as Hreply.
  { intros text kvs' (front & -> & Hfront).
    exists {| written := Some (c_str (front ++ [Char.LF])); removed := false;
              keyValuePairs := kvs' |}, (c_str (front ++ [Char.LF])).
    split; [reflexivity|]. split; [reflexivity|]. split; [reflexivity|].
    exact (reply_line front kvs' _ _ Hfront eq_refl eq_refl). }
  destruct (command_cases data) as [Hc | [Hc | [Hc | (Hp & Hg & Hb)]]]; [| |done|].
  - rewrite process_put by done.
    pose proof (argument_no_fault 112 117 116 data ltac:(by intros [|]) Hsize) as Hnf.
    change [112; 117; 116] with cmd_put in Hnf.
    destruct (argument cmd_put data) as [k v | code k pos |]; [| |done].
    + destruct (storeKey policy kvs k v).1;
        first [ apply Hreply, answer_line; by_evaluation | apply Hreply, errMsg_line ].
    + apply Hreply, errMsg_line.
  - rewrite process_get by done.
    pose proof (argument_no_fault 103 101 116 data ltac:(by intros [|]) Hsize) as Hnf.
    change [103; 101; 116] with cmd_get in Hnf.
    destruct (argument cmd_get data) as [k v | code k pos |]; [| |done].
    + destruct (readKey kvs k v).1;
        first [ apply Hreply, answer_line; by_evaluation | apply Hreply, errMsg_line ].
    + apply Hreply, errMsg_line.
  - rewrite process_other by done. apply Hreply.
    exists (Char.bytes "???"). split; [done | by_evaluation].
Qed.

End ReplyLines.

(** ** Loading and serving without a fault *)

Section Composition.

Lemma KREG_ReadRegistryFile_returns policy file ln ep kvs :
  (∀ content, file = Some content → Z.of_nat (length content) < 2 ^ 63) →
  ∃ st, KREG_ReadRegistryFile policy file ln ep kvs = Some st ∧
    (ld_ret st = KREG_OK ∨ ld_ret st = KREG_ERR_REG_OPEN ∨
     ld_ret st = KREG_KEY_EMPTY ∨ ld_ret st = KREG_KEY_INVALID ∨
     ld_ret st = KREG_KEY_TOO_LONG ∨ ld_ret st = KREG_VAL_TOO_LONG).
Proof.
  intros Hsize. destruct file as [content|]; cbn [KREG_ReadRegistryFile].
  - destruct (readLoop_no_fault policy (getlines content) 0 ln ep kvs) as [st Hst].
    { eapply Forall_impl; [apply getlines_lines|]. intros l [? ?]. split; [done|].
      specialize (Hsize content eq_refl). lia. }
    exists st. split; [done|]. apply readLoop_codes in Hst. tauto.
  - eexists. split; [done|]. cbn. tauto.
Qed.

Lemma process_is_Some policy kvs data :
  Z.of_nat (length data) < 2 ^ 63 → is_Some (processClientMessage policy kvs data).
Proof.
  intros Hsize.
  destruct (command_cases data) as [Hc | [Hc | [Hc | (Hp & Hg & Hb)]]].
  - rewrite process_put by done.
    pose proof (argument_no_fault 112 117 116 data ltac:(by intros [|]) Hsize) as Hnf.
    change [112; 117; 116] with cmd_put in Hnf.
    destruct (argument cmd_put data) as [k v | code k pos |]; [| by eexists | done].
    destruct (storeKey policy kvs k v).1; by eexists.
  - rewrite process_get by done.
    pose proof (argument_no_fault 103 101 116 data ltac:(by intros [|]) Hsize) as Hnf.
    change [103; 101; 116] with cmd_get in Hnf.
    destruct (argument cmd_get data) as [k v | code k pos |]; [| by eexists | done].
    destruct (readKey kvs k v).1; by eexists.
  - rewrite process_bye by done. by eexists.
  - rewrite process_other by done. by eexists.
Qed.

End Composition.

(** ** The command line *)

Section DaemonFacts.

Import Server Daemon.

Lemma optStep_port st o :
  (1024 ≤ listeningPort st.1 ≤ 65535 ∨ st.2.1 = false) →
  1024 ≤ listeningPort (optStep st o).1 ≤ 65535 ∨ (optStep st o).2.1 = false.
Proof.
  destruct st as [g [pFlag fFlag]]. cbn [fst snd]. intros Hst.
  destruct o as [port | optarg | optopt | opt]; cbn [optStep].
  - left. destruct (bool_decide (port < 1024) || bool_decide (port > UINT16_MAX)) eqn:E;
      cbn [fst listeningPort]; unfold DEFAULT_PORT; [lia|].
    apply orb_false_iff in E as [E1 E2]. rewrite bool_decide_eq_false in E1, E2.
    unfold UINT16_MAX in *. unfold CInt.uint16_t. rewrite wrap_small by lia. lia.
  - done.
  - repeat case_bool_decide; cbn [fst snd setDefaultPort listeningPort]; try done.
    left. unfold DEFAULT_PORT. lia.
  - done.
Qed.

Lemma foldl_optStep_port st opts :
  (1024 ≤ listeningPort st.1 ≤ 65535 ∨ st.2.1 = false) →
  1024 ≤ listeningPort (foldl optStep st opts).1 ≤ 65535
  ∨ (foldl optStep st opts).2.1 = false.
Proof.
  revert st. induction opts as [|o opts IH]; intros st Hst; [done|].
  cbn [foldl]. by apply IH, optStep_port.
Qed.

Lemma optStep_file st o :
  (is_Some (keyRegistryFileName st.1) ∨ st.2.2 = false) →
  is_Some (keyRegistryFileName (optStep st o).1) ∨ (optStep st o).2.2 = false.
Proof.
  destruct st as [g [pFlag fFlag]]. cbn [fst snd]. intros Hst.
  destruct o as [port | optarg | optopt | opt]; cbn [optStep].
  - by destruct (_ || _).
  - left. cbn. eauto.
  - repeat case_bool_decide; cbn [fst snd]; try done. left. cbn. eauto.
  - done.
Qed.

Lemma foldl_optStep_file st opts :
  (is_Some (keyRegistryFileName st.1) ∨ st.2.2 = false) →
  is_Some (keyRegistryFileName (foldl optStep st opts).1)
  ∨ (foldl optStep st opts).2.2 = false.
Proof.
  revert st. induction opts as [|o opts IH]; intros st Hst; [done|].
  cbn [foldl]. by apply IH, optStep_file.
Qed.

Lemma processCmdLineOpts_range g opts :
  1024 ≤ listeningPort (processCmdLineOpts g opts) ≤ 65535 ∧
  is_Some (keyRegistryFileName (processCmdLineOpts g opts)).
Proof.
  unfold processCmdLineOpts.
  pose proof (foldl_optStep_port (g, (false, false)) opts (or_intror eq_refl)) as Hp.
  pose proof (foldl_optStep_file (g, (false, false)) opts (or_intror eq_refl)) as Hf.
  destruct (foldl optStep (g, (false, false)) opts) as [g' [pFlag fFlag]].
  cbn [fst snd] in *.
  destruct pFlag, fFlag; cbn [setDefaultPort setDefaultRegistryFile listeningPort
                                keyRegistryFileName];
    unfold DEFAULT_PORT; (split; [first [lia | by destruct Hp] | first [by destruct Hf | eauto]]).
Qed.

Lemma optStep_keepsPort st o :
  keepsPort o →
  listeningPort (optStep st o).1 = listeningPort st.1 ∧ (optStep st o).2.1 = st.2.1.
Proof.
  destruct st as [g [pFlag fFlag]].
  destruct o as [port | optarg | optopt | opt]; cbn [keepsPort optStep]; try done.
  intros Hne. rewrite bool_decide_false by done. by case_bool_decide.
Qed.

Lemma foldl_optStep_keepsPort st opts :
  Forall keepsPort opts →
  listeningPort (foldl optStep st opts).1 = listeningPort st.1
  ∧ (foldl optStep st opts).2.1 = st.2.1.
Proof.
  intros Hall. revert st. induction Hall as [|o opts Ho _ IH]; intros st; [done|].
  cbn [foldl]. destruct (IH (optStep st o)) as [-> ->]. by apply optStep_keepsPort.
Qed.

Lemma processCmdLineOpts_port g opts :
  listeningPort (processCmdLineOpts g opts)
  = let st := foldl optStep (g, (false, false)) opts in
    if st.2.1 then listeningPort st.1 else DEFAULT_PORT.
Proof.
  unfold processCmdLineOpts. cbn zeta.
  destruct (foldl optStep (g, (false, false)) opts) as [g' [pFlag fFlag]].
  by destruct pFlag, fFlag.
Qed.

Lemma processCmdLineOpts_last_p g before port after :
  Forall keepsPort after →
  listeningPort (processCmdLineOpts g (before ++ opt_p port :: after))
  = if bool_decide (1024 ≤ port ≤ 65535) then port else DEFAULT_PORT.
Proof.
  intros Hafter. rewrite processCmdLineOpts_port. cbn zeta.
  rewrite foldl_app. cbn [foldl].
  destruct (foldl_optStep_keepsPort
              (optStep (foldl optStep (g, (false, false)) before) (opt_p port))
              after Hafter) as [-> ->].
  destruct (foldl optStep (g, (false, false)) before) as [g' [pFlag fFlag]].
  cbn [optStep fst snd]. unfold UINT16_MAX.
  destruct (decide (1024 ≤ port ≤ 65535)) as [Hr | Hr].
  - rewrite (bool_decide_true (1024 ≤ port ≤ 65535)) by done.
    rewrite !bool_decide_false by lia. cbn [orb listeningPort fst snd].
    unfold CInt.uint16_t. by rewrite wrap_small by lia.
  - rewrite (bool_decide_false (1024 ≤ port ≤ 65535)) by done.
    destruct (bool_decide (port < 1024) || bool_decide (port > 65535)) eqn:E; [done|].
    apply orb_false_iff in E as [E1 E2]. rewrite bool_decide_eq_false in E1, E2. lia.
Qed.

Lemma processCmdLineOpts_no_p g opts :
  Forall keepsPort opts → listeningPort (processCmdLineOpts g opts) = DEFAULT_PORT.
Proof.
  intros Hall. rewrite processCmdLineOpts_port. cbn zeta.
  by destruct (foldl_optStep_keepsPort (g, (false, false)) opts Hall) as [_ ->].
Qed.

End DaemonFacts.

(** ** The descriptor sets and the read buffer *)

Section SocketFacts.

Import Server Daemon.

Lemma FD_write_Some fd b set set' :
  FD_write fd b set = Some set' →
  0 ≤ fd < Z.of_nat (length set) ∧ length set' = length set ∧
  FD_ISSET fd set' = Some b ∧ ∀ j, j ≠ fd → FD_ISSET j set' = FD_ISSET j set.
Proof.
  unfold FD_write, FD_ISSET. case_bool_decide as Hfd; [|done]. intros [= <-].
  split; [done|]. split; [by rewrite length_insert|]. split.
  - rewrite bool_decide_true by lia. apply list_lookup_insert_eq. lia.
  - intros j Hj. case_bool_decide; [|done]. apply list_lookup_insert_ne. lia.
Qed.

Lemma FD_write_is_Some fd b set :
  0 ≤ fd < Z.of_nat (length set) → is_Some (FD_write fd b set).
Proof. intros Hfd. unfold FD_write. rewrite bool_decide_true by done. eauto. Qed.

Lemma FD_ISSET_range fd set b :
  FD_ISSET fd set = Some b → 0 ≤ fd < Z.of_nat (length set).
Proof.
  unfold FD_ISSET. case_bool_decide; [|done]. intros Hl%lookup_lt_Some. lia.
Qed.

Lemma removed_bye policy kvs data h :
  processClientMessage policy kvs data = Some h →
  removed h = true ↔ command data = Some cmd_bye.
Proof.
  destruct (command_cases data) as [Hc | [Hc | [Hc | (Hp & Hg & Hb)]]].
  - rewrite process_put by done. rewrite Hc.
    destruct (argument cmd_put data) as [k v | code k pos |]; [| |done].
    + destruct (storeKey policy kvs k v).1; intros [= <-]; cbn; split; done.
    + intros [= <-]. cbn. split; done.
  - rewrite process_get by done. rewrite Hc.
    destruct (argument cmd_get data) as [k v | code k pos |]; [| |done].
    + destruct (readKey kvs k v).1; intros [= <-]; cbn; split; done.
    + intros [= <-]. cbn. split; done.
  - rewrite process_bye by done. intros [= <-]. cbn. split; done.
  - rewrite process_other by done. intros [= <-]. cbn. split; done.
Qed.

Lemma buffer_store (buffer data : list Z) :
  length buffer = Z.to_nat READ_BUF_SIZE → (length data ≤ Z.to_nat READ_BUF_SIZE)%nat →
  is_Some (Mem.store (data ++ drop (length data) buffer) (Z.of_nat (length data)) Char.NUL)
  ↔ Z.of_nat (length data) < READ_BUF_SIZE.
Proof.
  intros Hbuf Hdata. unfold Mem.store, READ_BUF_SIZE in *.
  rewrite length_app, length_drop.
  case_bool_decide as H.
  - split; [lia | eauto].
  - split; [by intros [? ?] | lia].
Qed.

(** [readSocket] on the bytes of a request. *)
Lemma readSocket_data policy sock buffer data s :
  length buffer = Z.to_nat READ_BUF_SIZE → data ≠ [] →
  Z.of_nat (length data) < READ_BUF_SIZE →
  readSocket policy sock buffer (read_bytes data) s
  = (h ← processClientMessage policy (registry s) data;
     s ← (if removed h
          then removeClient sock {| active_fd_set := active_fd_set s;
                                    registry := keyValuePairs h |}
          else Some {| active_fd_set := active_fd_set s; registry := keyValuePairs h |});
     Some (Returns (0, written h, s))).
Proof.
  intros Hbuf Hne Hlen. cbn [readSocket].
  rewrite bool_decide_false by (destruct data; [done | simpl; lia]).
  destruct (proj2 (buffer_store buffer data Hbuf ltac:(unfold READ_BUF_SIZE in *; lia)) Hlen)
    as [b ->].
  done.
Qed.

End SocketFacts.

(** ** Requests and their responses *)

Section Further.

Implicit Types (kvs : list KeyValuePair) (data : list Z).

Lemma argument_ext cmd data1 data2 :
  drop 3 data1 = drop 3 data2 → argument cmd data1 = argument cmd data2.
Proof. intros H. unfold argument. by rewrite H. Qed.

Lemma process_ext policy kvs data1 data2 :
  command data1 = command data2 → drop 3 data1 = drop 3 data2 →
  processClientMessage policy kvs data1 = processClientMessage policy kvs data2.
Proof.
  intros Hcmd Hrest.
  destruct (command_cases data1) as [Hc | [Hc | [Hc | (Hp & Hg & Hb)]]].
  - rewrite !process_put by congruence. by rewrite (argument_ext _ _ _ Hrest).
  - rewrite !process_get by congruence. by rewrite (argument_ext _ _ _ Hrest).
  - rewrite !process_bye by congruence. done.
  - rewrite !process_other by congruence. done.
Qed.

Lemma no_key policy kvs data (s : nat) term :
  command data = Some cmd_put ∨ command data = Some cmd_get →
  drop 3 data = replicate s Char.SPACE ++ term →
  Forall eol term → (length term ≤ 2)%nat → Z.of_nat s < 2 ^ 62 →
  processClientMessage policy kvs data
  = Some {| written := Some (Char.bytes "Key has not been provided" ++ [Char.LF]);
            removed := false;
            keyValuePairs := kvs |}.
Proof.
  intros Hcmd Hreq Hterm Hlt Hs.
  assert (∀ cmd, cmd = cmd_put ∨ cmd = cmd_get → lastNotEol cmd) as Hcm.
  { intros cmd [-> | ->] c [= <-]; by intros [|]. }
  destruct Hcmd as [Hcmd | Hcmd].
  - rewrite process_put by done.
    rewrite (argument_blank cmd_put data s term) by (done || apply Hcm; auto).
    by apply reply_text; by_evaluation.
  - rewrite process_get by done.
    rewrite (argument_blank cmd_get data s term) by (done || apply Hcm; auto).
    by apply reply_text; by_evaluation.
Qed.

End Further.

(** * The claims, continued *)

(** Claim C1, where the code departs from it.  For the lines of the claim
    the parser succeeds, and the two blocks it fills hold the bytes of [K]
    and of [V].  But a pointer to each block is all that the caller gets,
    and what a pointer gives is a string.  The key block is [keyLen] bytes
    without a NUL, so [strlen], [strcmp] and [%s] run off its end; the value
    block is read off its end likewise, or cut at a NUL of its own; and for
    the empty value the pointer is left [NULL], which is no empty string.
    The pair returned is never ([K], [V]).  What the key reads as is decided
    by the heap: where a byte [x] and a NUL follow the block there, the key
    is [K] with [x] behind it. *)
Theorem parsed_pair_not_strings pre K V post :
  Forall alnum K → (1 ≤ length K ≤ 16)%nat →
  (length V ≤ 32)%nat → Forall (λ c, ¬ eol c) V →
  parseKeyValue (pre ++ (K ++ valuePart V) ++ Char.NUL :: post)
    (Z.of_nat (length pre)) (Z.of_nat (length (K ++ valuePart V)))
  = ParseOk K (valueOut V)
  ∧ Blocks.c_string K = None
  ∧ (V = [] → valueOut V = None)
  ∧ (V ≠ [] → valueOut V = Some V ∧ Blocks.c_string V ≠ Some V)
  ∧ (∀ x behind, x ≠ Char.NUL →
     Blocks.c_string (K ++ x :: Char.NUL :: behind) = Some (K ++ [x])).
Proof.
  intros HK HlenK HlenV HV. split.
  { apply (parseKeyValue_accept pre 0 K V post); try done. by apply Forall_lastNotEol. }
  split; [by apply c_string_nonNUL, alnum_nonNUL|].
  split; [by intros ->|].
  split.
  - intros HV0. split; [by destruct V|].
    intros Hs. apply c_string_shorter in Hs. lia.
  - intros x behind Hx. by apply c_string_behind; [apply alnum_nonNUL|].
Qed.

Lemma parsed_pair_not_strings_witness :
  parseKeyValue (Char.bytes "abc" ++ [Char.NUL]) 0 3 = ParseOk (Char.bytes "abc") None
  ∧ Blocks.c_string (Char.bytes "abc") = None
  ∧ parseKeyValue (Char.bytes "hungary Budapest" ++ [Char.NUL]) 0 16
    = ParseOk (Char.bytes "hungary") (Some (Char.bytes "Budapest"))
  ∧ Blocks.c_string (Char.bytes "Budapest") ≠ Some (Char.bytes "Budapest")
  ∧ Blocks.c_string (Char.bytes "hungary" ++ [33; Char.NUL]) = Some (Char.bytes "hungary!").
Proof.
  destruct (parsed_pair_not_strings [] (Char.bytes "abc") [] []) as (H1 & H2 & _).
  { by_evaluation. }
  { vm_compute. lia. }
  { vm_compute. lia. }
  { by_evaluation. }
  destruct (parsed_pair_not_strings [] (Char.bytes "hungary") (Char.bytes "Budapest") [])
    as (H3 & _ & _ & H4 & H5).
  { by_evaluation. }
  { vm_compute. lia. }
  { vm_compute. lia. }
  { by_evaluation. }
  split; [exact H1|]. split; [exact H2|]. split; [exact H3|].
  split; [apply H4; vm_compute; discriminate|].
  apply (H5 33 []). vm_compute. discriminate.
Defined.

(** Claim C2, where the code departs from it.  [searchKey] finds a key with
    [strcmp], and the keys it gets are the blocks of the parser, which hold
    no NUL.  A first insert of such a key succeeds when the search does, and
    puts the key at the end of the list.  From then on a search for the key
    finds all its bytes equal to those of that cell and reads on behind both
    blocks: the second insert and the lookup of the claim do not stay inside
    the blocks, in either build.  Inside the blocks no search ever finds a
    key, so no insert returns [KREG_KEY_EXISTS] and no lookup [KREG_OK].
    What the comparison gives is decided by the heap behind the two blocks:
    the keys compare equal where a NUL follows both, and different where the
    bytes that follow them differ. *)
Theorem second_insert_leaves_key_block policy kvs K v1 v2 v0 r1 kvs1 :
  Forall nonNUL K →
  Blocks.storeKey policy kvs K v1 = Some (r1, kvs1) →
  r1 = KREG_OK ∧ kvs1 = kvs ++ [{| key := K; value := v1 |}]
  ∧ Blocks.storeKey policy kvs1 K v2 = None
  ∧ Blocks.readKey kvs1 K v0 = None
  ∧ (∀ l r l', Blocks.storeKey policy l K v2 = Some (r, l') → r = KREG_OK)
  ∧ (∀ l r v, Blocks.readKey l K v0 = Some (r, v) → r = KREG_KEY_NOT_FOUND)
  ∧ (∀ behind behind',
       Blocks.strcmp_eq (K ++ Char.NUL :: behind) (K ++ Char.NUL :: behind') = Some true)
  ∧ (∀ x y behind behind', x ≠ y →
       Blocks.strcmp_eq (K ++ x :: behind) (K ++ y :: behind') = Some false).
Proof.
  intros HK. unfold Blocks.storeKey at 1.
  destruct (Blocks.searchKey K kvs) as [found|] eqn:Hs; [|done].
  rewrite (searchKey_absent _ _ _ HK Hs). cbn [mbind option_bind].
  intros [= <- <-]. split; [done|]. split; [done|].
  unfold Blocks.storeKey, Blocks.readKey. rewrite searchKey_behind by done.
  split; [done|]. split; [done|]. split.
  - intros l r l'. destruct (Blocks.searchKey K l) as [found'|] eqn:Hs'; [|done].
    rewrite (searchKey_absent _ _ _ HK Hs'). cbn [mbind option_bind]. by intros [= <- _].
  - split.
    { intros l r v. destruct (Blocks.searchKey K l) as [found'|] eqn:Hs'; [|done].
      rewrite (searchKey_absent _ _ _ HK Hs'). cbn [mbind option_bind].
      by intros [= <- _]. }
    split.
    + intros behind behind'. rewrite strcmp_eq_app by done. cbn [Blocks.strcmp_eq].
      by rewrite !bool_decide_true.
    + intros x y behind behind' Hxy. rewrite strcmp_eq_app by done.
      cbn [Blocks.strcmp_eq]. by rewrite bool_decide_false.
Qed.

Lemma second_insert_leaves_key_block_witness :
  let K := Char.bytes "japan" in
  let kvs := [{| key := Char.bytes "hungary"; value := Some (Char.bytes "Budapest") |}] in
  let kvs1 := kvs ++ [{| key := K; value := Some (Char.bytes "Tokyo") |}] in
  Blocks.storeKey FS_ENABLED kvs K (Some (Char.bytes "Tokyo")) = Some (KREG_OK, kvs1)
  ∧ Blocks.storeKey FS_ENABLED kvs1 K (Some (Char.bytes "Kyoto")) = None
  ∧ Blocks.readKey kvs1 K None = None
  ∧ Blocks.strcmp_eq (K ++ [33; Char.NUL]) (K ++ [Char.NUL]) = Some false.
Proof.
  cbn zeta.
  assert (Blocks.storeKey FS_ENABLED
            [{| key := Char.bytes "hungary"; value := Some (Char.bytes "Budapest") |}]
            (Char.bytes "japan") (Some (Char.bytes "Tokyo"))
          = Some (KREG_OK,
                  [{| key := Char.bytes "hungary"; value := Some (Char.bytes "Budapest") |}]
                  ++ [{| key := Char.bytes "japan"; value := Some (Char.bytes "Tokyo") |}]))
    as H1 by (vm_compute; reflexivity).
  split; [exact H1|].
  destruct (second_insert_leaves_key_block FS_ENABLED
              [{| key := Char.bytes "hungary"; value := Some (Char.bytes "Budapest") |}]
              (Char.bytes "japan") (Some (Char.bytes "Tokyo")) (Some (Char.bytes "Kyoto"))
              None _ _ ltac:(by_evaluation) H1) as (_ & _ & H2 & H3 & _ & _ & _ & H4).
  split; [exact H2|]. split; [exact H3|].
  apply (H4 33 Char.NUL [Char.NUL] []). vm_compute. discriminate.
Defined.

(** Claim C8.  For every message (of less than 2^63 bytes) the dispatcher
    returns after one write to the socket, and what it writes is a response,
    of one byte at least.  The exception is a message whose first three
    bytes are [bye] in any case: then it writes nothing, removes the client
    and leaves the list alone.  A message of fewer than three bytes, or one
    whose first three bytes are none of [get], [put] and [bye] in any case,
    is answered with the line [???]. *)
Theorem dispatcher_replies policy kvs data :
  Z.of_nat (length data) < 2 ^ 63 →
  ∃ h, processClientMessage policy kvs data = Some h ∧
    (command data = Some cmd_bye →
     written h = None ∧ removed h = true ∧ keyValuePairs h = kvs) ∧
    (command data ≠ Some cmd_bye →
     ∃ r, written h = Some r ∧ removed h = false ∧ r ≠ []) ∧
    (command data ≠ Some cmd_get → command data ≠ Some cmd_put →
     command data ≠ Some cmd_bye →
     written h = Some (Char.bytes "???" ++ [Char.LF])).
Proof.
  intros Hsize.
  destruct (decide (command data = Some cmd_bye)) as [Hbye | Hbye].
  - rewrite process_bye by done. eexists. split; [reflexivity|].
    split; [done|]. split; [done | intros; congruence].
  - destruct (process_reply policy kvs data Hsize Hbye) as (h & r & Hh & Hw & Hr & Hne & Hl).
    exists h. split; [done|]. split; [done|]. split; [by exists r|].
    intros Hg Hp _. rewrite process_other in Hh by done.
    injection Hh as <-. done.
Qed.

Lemma dispatcher_replies_witness :
  (∃ h, processClientMessage FS_DISABLED [] (Char.bytes "Bye now") = Some h ∧
     written h = None ∧ removed h = true ∧ keyValuePairs h = [])
  ∧ (∃ h r, processClientMessage FS_DISABLED [] (Char.bytes "get") = Some h ∧
       written h = Some r ∧ removed h = false ∧ r ≠ [])
  ∧ (∃ h, processClientMessage FS_DISABLED [] (Char.bytes "gt k") = Some h ∧
       written h = Some (Char.bytes "???" ++ [Char.LF])).
Proof.
  split; [|split].
  - destruct (dispatcher_replies FS_DISABLED [] (Char.bytes "Bye now"))
      as (h & Hh & Hbye & _); [vm_compute; reflexivity|].
    exists h. split; [exact Hh|]. apply Hbye. vm_compute. reflexivity.
  - destruct (dispatcher_replies FS_DISABLED [] (Char.bytes "get"))
      as (h & Hh & _ & Hany & _); [vm_compute; reflexivity|].
    destruct Hany as (r & Hr); [vm_compute; discriminate|].
    exists h, r. split; [exact Hh | exact Hr].
  - destruct (dispatcher_replies FS_DISABLED [] (Char.bytes "gt k"))
      as (h & Hh & _ & _ & Hother); [vm_compute; reflexivity|].
    exists h. split; [exact Hh|].
    apply Hother; vm_compute; discriminate.
Defined.




(** * Further properties of the parser *)

(** Property X1.  What [parseKeyValue] can return.  A key returned with
    [KREG_OK] has one to sixteen bytes, all letters or digits, and the value
    is [NULL] or has one to thirty-two bytes.  A failure is one of
    [KREG_KEY_EMPTY], [KREG_KEY_INVALID] and [KREG_KEY_TOO_LONG], with no key
    returned, or it is [KREG_VAL_TOO_LONG], with the key returned. *)
Theorem parse_result_shape buf line len :
  match parseKeyValue buf line len with
  | ParseOk k v =>
      Forall alnum k ∧ (1 ≤ length k ≤ 16)%nat ∧
      match v with Some w => (1 ≤ length w ≤ 32)%nat | None => True end
  | ParseErr code k pos =>
      (k = None ∧ (code = KREG_KEY_EMPTY ∨ code = KREG_KEY_INVALID
                   ∨ code = KREG_KEY_TOO_LONG))
      ∨ (is_Some k ∧ code = KREG_VAL_TOO_LONG)
  | ParseFault => True
  end.
Proof.
  destruct (parseKeyValue buf line len) as [k v | code k pos |] eqn:H; [| |done].
  - by apply parseKeyValue_ok_shape in H.
  - by apply parseKeyValue_err in H.
Qed.

(** Property X2.  A byte that is no letter, digit, space, NUL, CR or LF,
    behind at most sixteen letters and digits, is reported as
    [KREG_KEY_INVALID] at its own 1-based position in the line, leading
    spaces counted, modulo 2^16. *)
Theorem invalid_character_offset pre (s : nat) K c rest post :
  Forall alnum K → (length K ≤ 16)%nat →
  ¬ alnum c → c ≠ Char.SPACE → c ≠ Char.NUL → ¬ eol c →
  Z.of_nat (length (replicate s Char.SPACE ++ K ++ c :: rest)) < 2 ^ 63 →
  parseKeyValue (pre ++ (replicate s Char.SPACE ++ K ++ c :: rest) ++ Char.NUL :: post)
    (Z.of_nat (length pre))
    (Z.of_nat (length (replicate s Char.SPACE ++ K ++ c :: rest)))
  = ParseErr KREG_KEY_INVALID None
      (CInt.uint16_t (Z.of_nat s + Z.of_nat (length K) + 1)).
Proof. apply parseKeyValue_invalid. Qed.

Lemma invalid_character_offset_witness :
  parseKeyValue (Char.bytes "  ab_cd 1" ++ [Char.NUL]) 0 9
  = ParseErr KREG_KEY_INVALID None 5.
Proof.
  apply (invalid_character_offset [] 2 (Char.bytes "ab") 95 (Char.bytes "cd 1") []).
  - by_evaluation.
  - vm_compute. lia.
  - by_evaluation.
  - vm_compute. lia.
  - vm_compute. lia.
  - by_evaluation.
  - vm_compute. reflexivity.
Defined.

(** Property X3.  A line of spaces only, with or without a line end, that
    has a byte other than CR and LF before its end (a space of its own, or
    the byte before the line in the buffer) is reported as
    [KREG_KEY_EMPTY] at the position behind the spaces. *)
Theorem blank_line_key_empty pre (s : nat) term post :
  pre ++ replicate s Char.SPACE ≠ [] → lastNotEol (pre ++ replicate s Char.SPACE) →
  Forall eol term → (length term ≤ 2)%nat →
  Z.of_nat s < 2 ^ 62 →
  parseKeyValue (pre ++ (replicate s Char.SPACE ++ term) ++ Char.NUL :: post)
    (Z.of_nat (length pre)) (Z.of_nat (length (replicate s Char.SPACE ++ term)))
  = ParseErr KREG_KEY_EMPTY None (CInt.uint16_t (Z.of_nat s + 1)).
Proof. apply parseKeyValue_blank. Qed.

Lemma blank_line_key_empty_witness :
  parseKeyValue (Char.bytes "   " ++ [Char.CR; Char.LF] ++ [Char.NUL]) 0 5
  = ParseErr KREG_KEY_EMPTY None 4.
Proof.
  apply (blank_line_key_empty [] 3 [Char.CR; Char.LF] []).
  - vm_compute. discriminate.
  - apply Forall_lastNotEol. by_evaluation.
  - by_evaluation.
  - vm_compute. lia.
  - vm_compute. reflexivity.
Defined.

(** Property X4.  The line format in full: any number of leading spaces,
    the key, then nothing or a space and up to thirty-two bytes that do not
    end in CR or LF, then up to two bytes CR or LF.  Such a line is accepted;
    the value is what follows the first space behind the key, leading and
    inner spaces and inner CR and LF kept, and it is [NULL] when nothing
    follows that space. *)
Theorem line_with_terminator_accepted pre (s : nat) K tail term post :
  Forall alnum K → (1 ≤ length K ≤ 16)%nat →
  tail = [] ∨ head tail = Some Char.SPACE → (length tail ≤ 33)%nat →
  lastNotEol tail →
  Forall eol term → (length term ≤ 2)%nat →
  Z.of_nat s < 2 ^ 62 →
  parseKeyValue
    (pre ++ (replicate s Char.SPACE ++ K ++ tail ++ term) ++ Char.NUL :: post)
    (Z.of_nat (length pre))
    (Z.of_nat (length (replicate s Char.SPACE ++ K ++ tail ++ term)))
  = ParseOk K (valueOut (drop 1 tail)).
Proof. apply parseKeyValue_accept_terminated. Qed.

Lemma line_with_terminator_accepted_witness :
  parseKeyValue (Char.bytes "  usa  New York" ++ [Char.CR; Char.LF] ++ [Char.NUL]) 0 17
  = ParseOk (Char.bytes "usa") (Some (Char.bytes " New York")).
Proof.
  apply (line_with_terminator_accepted [] 2 (Char.bytes "usa") (Char.bytes "  New York")
           [Char.CR; Char.LF] []).
  - by_evaluation.
  - vm_compute. lia.
  - right. reflexivity.
  - vm_compute. lia.
  - apply Forall_lastNotEol. by_evaluation.
  - by_evaluation.
  - vm_compute. lia.
  - vm_compute. reflexivity.
Defined.

(** Property X5.  A value of 33 to 255 bytes is rejected with
    [KREG_VAL_TOO_LONG]; the key is returned all the same, and the position
    is that of the thirty-third byte of the value, modulo 2^16. *)
Theorem long_value_rejected pre (s : nat) K V term post :
  Forall alnum K → (1 ≤ length K ≤ 16)%nat →
  (33 ≤ length V ≤ 255)%nat → lastNotEol V →
  Forall eol term → (length term ≤ 2)%nat →
  Z.of_nat s < 2 ^ 62 →
  parseKeyValue
    (pre ++ (replicate s Char.SPACE ++ K ++ Char.SPACE :: V ++ term) ++ Char.NUL :: post)
    (Z.of_nat (length pre))
    (Z.of_nat (length (replicate s Char.SPACE ++ K ++ Char.SPACE :: V ++ term)))
  = ParseErr KREG_VAL_TOO_LONG (Some K)
      (CInt.uint16_t (Z.of_nat s + Z.of_nat (length K) + 1 + KREG_MAX_VAL_LEN + 1)).
Proof. apply parseKeyValue_long_value. Qed.

Lemma long_value_rejected_witness :
  parseKeyValue (Char.bytes "key " ++ replicate 40 120 ++ [Char.LF] ++ [Char.NUL]) 0 45
  = ParseErr KREG_VAL_TOO_LONG (Some (Char.bytes "key")) 37.
Proof.
  apply (long_value_rejected [] 0 (Char.bytes "key") (replicate 40 120) [Char.LF] []).
  - by_evaluation.
  - vm_compute. lia.
  - vm_compute. lia.
  - apply Forall_lastNotEol. by_evaluation.
  - by_evaluation.
  - vm_compute. lia.
  - vm_compute. reflexivity.
Defined.

(** Property X6.  The parser stays inside its buffer when the byte before
    the line is in the buffer and is neither CR nor LF, whatever the line
    holds: it reads no byte before that one and none behind the NUL that ends
    the line. *)
Theorem parse_stays_in_buffer pre g line post :
  ¬ eol g → Z.of_nat (length line) < 2 ^ 63 →
  parseKeyValue ((pre ++ [g]) ++ line ++ Char.NUL :: post)
    (Z.of_nat (length (pre ++ [g]))) (Z.of_nat (length line))
  ≠ ParseFault.
Proof. apply parseKeyValue_no_fault. Qed.

Lemma parse_stays_in_buffer_witness :
  parseKeyValue ((Char.bytes "ge" ++ [116]) ++ [Char.LF] ++ Char.NUL :: []) 3 1
  ≠ ParseFault.
Proof.
  apply (parse_stays_in_buffer (Char.bytes "ge") 116 [Char.LF] []).
  - by_evaluation.
  - vm_compute. reflexivity.
Defined.

(** * Further properties of the loader *)

(** Property X11.  [KREG_ReadRegistryFile] returns for every file (of less
    than 2^63 bytes), without a read or write out of bounds in the parser,
    and its result is [KREG_OK], [KREG_ERR_REG_OPEN] or one of the four codes
    of the parser: never [KREG_KEY_EXISTS], so that a key that occurs twice in
    the file is no error, and never a value for the defensive [default]
    branch of [main]. *)
Theorem load_returns policy file ln ep kvs :
  (∀ content, file = Some content → Z.of_nat (length content) < 2 ^ 63) →
  ∃ st, KREG_ReadRegistryFile policy file ln ep kvs = Some st ∧
    (ld_ret st = KREG_OK ∨ ld_ret st = KREG_ERR_REG_OPEN ∨
     ld_ret st = KREG_KEY_EMPTY ∨ ld_ret st = KREG_KEY_INVALID ∨
     ld_ret st = KREG_KEY_TOO_LONG ∨ ld_ret st = KREG_VAL_TOO_LONG).
Proof. apply KREG_ReadRegistryFile_returns. Qed.

Lemma load_returns_witness :
  ∃ st, KREG_ReadRegistryFile FS_DISABLED (Some capitals) 0 0 [] = Some st ∧
    (ld_ret st = KREG_OK ∨ ld_ret st = KREG_ERR_REG_OPEN ∨
     ld_ret st = KREG_KEY_EMPTY ∨ ld_ret st = KREG_KEY_INVALID ∨
     ld_ret st = KREG_KEY_TOO_LONG ∨ ld_ret st = KREG_VAL_TOO_LONG).
Proof.
  apply (load_returns FS_DISABLED (Some capitals) 0 0 []).
  intros content [= <-]. vm_compute. reflexivity.
Defined.

(** * Further properties of the dispatcher *)

(** Property X16.  Only a put changes the list: a message whose first
    three bytes are not [put] in any case is handled without a fault and
    leaves the list as it was. *)
Theorem only_put_changes_registry policy kvs data :
  Z.of_nat (length data) < 2 ^ 63 → command data ≠ Some cmd_put →
  keyValuePairs <$> processClientMessage policy kvs data = Some kvs.
Proof.
  intros Hsize Hcmd.
  destruct (process_is_Some policy kvs data Hsize) as [h Hh]. rewrite Hh.
  cbn [fmap option_fmap option_map]. f_equal.
  by destruct (process_kvs _ _ _ _ Hh) as [-> | [? _]].
Qed.

Lemma only_put_changes_registry_witness :
  keyValuePairs <$>
    processClientMessage FS_ENABLED
      [{| key := Char.bytes "japan"; value := Some (Char.bytes "Tokyo") |}]
      (Char.bytes "GET japan Kyoto" ++ [Char.LF])
  = Some [{| key := Char.bytes "japan"; value := Some (Char.bytes "Tokyo") |}].
Proof.
  apply (only_put_changes_registry FS_ENABLED
           [{| key := Char.bytes "japan"; value := Some (Char.bytes "Tokyo") |}]
           (Char.bytes "GET japan Kyoto" ++ [Char.LF])).
  - vm_compute. reflexivity.
  - vm_compute. discriminate.
Defined.

(** Property X18.  What the dispatcher does depends on the first three
    bytes of a message only through their lower-case form, and on nothing
    else but the bytes behind them: two messages with the same command and
    the same rest are handled alike. *)
Theorem reply_by_command_and_rest policy kvs data1 data2 :
  command data1 = command data2 → drop 3 data1 = drop 3 data2 →
  processClientMessage policy kvs data1 = processClientMessage policy kvs data2.
Proof. apply process_ext. Qed.

Lemma reply_by_command_and_rest_witness :
  processClientMessage FS_ENABLED [] (Char.bytes "PuT k v")
  = processClientMessage FS_ENABLED [] (Char.bytes "put k v").
Proof.
  apply (reply_by_command_and_rest FS_ENABLED [] (Char.bytes "PuT k v")
           (Char.bytes "put k v")).
  - vm_compute. reflexivity.
  - vm_compute. reflexivity.
Defined.

(** Property X22.  A get or a put with no key behind it (nothing, or
    spaces, with or without a line end) is answered with the line [Key has
    not been provided] and changes nothing. *)
Theorem command_without_key policy kvs data (s : nat) term :
  command data = Some cmd_put ∨ command data = Some cmd_get →
  drop 3 data = replicate s Char.SPACE ++ term →
  Forall eol term → (length term ≤ 2)%nat → Z.of_nat s < 2 ^ 62 →
  processClientMessage policy kvs data
  = Some {| written := Some (Char.bytes "Key has not been provided" ++ [Char.LF]);
            removed := false;
            keyValuePairs := kvs |}.
Proof. apply no_key. Qed.

Lemma command_without_key_witness :
  processClientMessage FS_ENABLED [] (Char.bytes "get" ++ [Char.LF])
  = Some {| written := Some (Char.bytes "Key has not been provided" ++ [Char.LF]);
            removed := false;
            keyValuePairs := [] |}.
Proof.
  apply (command_without_key FS_ENABLED [] (Char.bytes "get" ++ [Char.LF]) 0 [Char.LF]).
  - right. vm_compute. reflexivity.
  - vm_compute. reflexivity.
  - by_evaluation.
  - vm_compute. lia.
  - vm_compute. reflexivity.
Defined.

Import Daemon.

(** * Properties of the command line and of the sockets *)

(** Property X25.  Whatever the command line holds, the server listens on
    a port from 1024 to 65535 and has a registry file name when
    [processCmdLineOpts] returns. *)
Theorem port_in_range g opts :
  1024 ≤ listeningPort (processCmdLineOpts g opts) ≤ 65535 ∧
  is_Some (keyRegistryFileName (processCmdLineOpts g opts)).
Proof. apply processCmdLineOpts_range. Qed.

(** Property X26.  How the port is chosen.  The last [-p] decides, unless
    a [-p] without its argument follows it: the port is the number given
    when that is from 1024 to 65535, and 5555 when it is not.  Without a
    [-p] the port is 5555, and a [-p] that lacks its argument sets the port
    back to 5555, even behind a [-p] with a good number. *)
Theorem port_option_decides g before port after :
  Forall keepsPort after →
  listeningPort (processCmdLineOpts g (before ++ opt_p port :: after))
  = (if bool_decide (1024 ≤ port ≤ 65535) then port else DEFAULT_PORT)
  ∧ listeningPort (processCmdLineOpts g after) = DEFAULT_PORT
  ∧ listeningPort (processCmdLineOpts g (before ++ [opt_p port; opt_error (chr "p")]
                                           ++ after))
    = DEFAULT_PORT.
Proof.
  intros Hall. split; [by apply processCmdLineOpts_last_p|].
  split; [by apply processCmdLineOpts_no_p|].
  rewrite processCmdLineOpts_port. cbn zeta. rewrite !foldl_app.
  destruct (foldl_optStep_keepsPort
              (foldl optStep (foldl optStep (g, (false, false)) before)
                 [opt_p port; opt_error (chr "p")]) after Hall) as [-> ->].
  destruct (foldl optStep (g, (false, false)) before) as [g' [pFlag fFlag]].
  cbn [foldl optStep]. by destruct (_ || _).
Qed.

Lemma port_option_decides_witness :
  let g := {| listeningPort := 0; keyRegistryFileName := None |} in
  let after := [opt_f (Char.bytes "reg.txt")] in
  listeningPort (processCmdLineOpts g ([opt_p 80] ++ opt_p 8080 :: after))
  = (if bool_decide (1024 ≤ 8080 ≤ 65535) then 8080 else DEFAULT_PORT)
  ∧ listeningPort (processCmdLineOpts g after) = DEFAULT_PORT
  ∧ listeningPort (processCmdLineOpts g ([opt_p 80] ++ [opt_p 8080; opt_error (chr "p")]
                                           ++ after))
    = DEFAULT_PORT.
Proof.
  apply (port_option_decides {| listeningPort := 0; keyRegistryFileName := None |}
           [opt_p 80] 8080 [opt_f (Char.bytes "reg.txt")]).
  apply Forall_cons_2; [exact I | apply Forall_nil_2].
Defined.

(** Property X27.  What [accept] returns is added to the set of the active
    descriptors as it is.  A descriptor from 0 to [FD_SETSIZE - 1] is set in
    it, with no other descriptor and not the list changed, and nothing is
    written.  When [accept] fails and returns -1, [addClient] is called all
    the same and [FD_SET] indexes the set outside its bits, as it does for a
    descriptor of [FD_SETSIZE] or more. *)
Theorem accept_result_is_added policy sock new buffer r s :
  length (active_fd_set s) = Z.to_nat FD_SETSIZE →
  (serviceDescriptor policy sock sock new buffer r s = None
   ↔ new < 0 ∨ FD_SETSIZE ≤ new)
  ∧ (0 ≤ new < FD_SETSIZE →
     ∃ s', serviceDescriptor policy sock sock new buffer r s = Some (Returns (None, s')) ∧
       FD_ISSET new (active_fd_set s') = Some true ∧
       (∀ j, j ≠ new → FD_ISSET j (active_fd_set s') = FD_ISSET j (active_fd_set s)) ∧
       registry s' = registry s).
Proof.
  intros Hlen. unfold serviceDescriptor. rewrite bool_decide_true by done.
  unfold addClient, FD_SET. split.
  - unfold FD_write, FD_SETSIZE in *. rewrite Hlen.
    case_bool_decide as Hnew; cbn [mbind option_bind]; split; done || lia.
  - intros Hnew.
    destruct (FD_write_is_Some new true (active_fd_set s)) as [set' Hset].
    { unfold FD_SETSIZE in *. lia. }
    rewrite Hset. cbn [mbind option_bind].
    destruct (FD_write_Some _ _ _ _ Hset) as (_ & _ & Hon & Hother).
    eexists. split; [reflexivity|]. cbn [active_fd_set registry]. by repeat split.
Qed.

Lemma accept_result_is_added_witness :
  (serviceDescriptor FS_ENABLED 3 3 (-1) (replicate 256 0) read_error
     {| active_fd_set := replicate 1024 false; registry := [] |} = None
   ↔ -1 < 0 ∨ FD_SETSIZE ≤ -1)
  ∧ ∃ s', serviceDescriptor FS_ENABLED 3 3 5 (replicate 256 0) read_error
            {| active_fd_set := replicate 1024 false; registry := [] |}
          = Some (Returns (None, s')) ∧
      FD_ISSET 5 (active_fd_set s') = Some true ∧
      (∀ j, j ≠ 5 → FD_ISSET j (active_fd_set s')
                    = FD_ISSET j (replicate 1024 false)) ∧
      registry s' = [].
Proof.
  split.
  - apply (accept_result_is_added FS_ENABLED 3 (-1) (replicate 256 0) read_error
             {| active_fd_set := replicate 1024 false; registry := [] |}).
    vm_compute. reflexivity.
  - apply (accept_result_is_added FS_ENABLED 3 5 (replicate 256 0) read_error
             {| active_fd_set := replicate 1024 false; registry := [] |}).
    + vm_compute. reflexivity.
    + vm_compute. split; [discriminate | reflexivity].
Defined.

(** Property X28.  [readSocket] writes the terminator behind the bytes it
    has read.  For a request of 1 to 255 bytes that is inside its buffer:
    the request is handled by [processClientMessage], [readSocket] returns 0,
    what is written and the list are those of the dispatcher, and the client
    is taken from the set when the dispatcher has removed it.  When [read]
    fills the buffer, all 256 bytes of it, the terminator is written one byte
    behind the buffer. *)
Theorem full_read_overruns_buffer policy sock buffer data s :
  length buffer = Z.to_nat READ_BUF_SIZE →
  data ≠ [] → (length data ≤ Z.to_nat READ_BUF_SIZE)%nat →
  is_Some (FD_ISSET sock (active_fd_set s)) →
  (readSocket policy sock buffer (read_bytes data) s = None
   ↔ Z.of_nat (length data) = READ_BUF_SIZE)
  ∧ (Z.of_nat (length data) < READ_BUF_SIZE →
     ∃ h, processClientMessage policy (registry s) data = Some h ∧
       readSocket policy sock buffer (read_bytes data) s
       = Some (Returns (0, written h,
                        {| active_fd_set :=
                             if removed h
                             then <[Z.to_nat sock := false]> (active_fd_set s)
                             else active_fd_set s;
                           registry := keyValuePairs h |}))).
Proof.
  intros Hbuf Hne Hlen [b Hsock].
  assert (Z.of_nat (length data) < READ_BUF_SIZE →
     ∃ h, processClientMessage policy (registry s) data = Some h ∧
       readSocket policy sock buffer (read_bytes data) s
       = Some (Returns (0, written h,
                        {| active_fd_set :=
                             if removed h
                             then <[Z.to_nat sock := false]> (active_fd_set s)
                             else active_fd_set s;
                           registry := keyValuePairs h |}))) as Hgood.
  { intros Hless. rewrite readSocket_data by done.
    destruct (process_is_Some policy (registry s) data) as [h Hh].
    { unfold READ_BUF_SIZE in *. lia. }
    exists h. split; [done|]. rewrite Hh. cbn [mbind option_bind].
    destruct (removed h); [|done].
    unfold removeClient, FD_CLR, FD_write. cbn [active_fd_set registry].
    apply FD_ISSET_range in Hsock. by rewrite bool_decide_true. }
  split; [|done].
  destruct (decide (Z.of_nat (length data) = READ_BUF_SIZE)) as [Hfull | Hless].
  - split; [done | intros _]. cbn [readSocket].
    rewrite bool_decide_false by (unfold READ_BUF_SIZE in *; lia).
    destruct (Mem.store _ _ _) eqn:Hst; [|done].
    assert (Z.of_nat (length data) < READ_BUF_SIZE); [|lia].
    apply (buffer_store buffer data Hbuf Hlen). eauto.
  - split; [|done]. intros Hnone. exfalso.
    destruct Hgood as (h & _ & Hrs); [unfold READ_BUF_SIZE in *; lia|].
    congruence.
Qed.

Lemma full_read_overruns_buffer_witness :
  (readSocket FS_ENABLED 4 (replicate 256 0) (read_bytes (replicate 256 120))
     {| active_fd_set := replicate 1024 true; registry := [] |} = None
   ↔ Z.of_nat (length (replicate 256 120)) = READ_BUF_SIZE)
  ∧ ∃ h, processClientMessage FS_ENABLED [] (Char.bytes "bye") = Some h ∧
      readSocket FS_ENABLED 4 (replicate 256 0) (read_bytes (Char.bytes "bye"))
        {| active_fd_set := replicate 1024 true; registry := [] |}
      = Some (Returns (0, written h,
                       {| active_fd_set :=
                            if removed h
                            then <[Z.to_nat 4 := false]> (replicate 1024 true)
                            else replicate 1024 true;
                          registry := keyValuePairs h |})).
Proof.
  split.
  - apply (full_read_overruns_buffer FS_ENABLED 4 (replicate 256 0) (replicate 256 120)
             {| active_fd_set := replicate 1024 true; registry := [] |}).
    + vm_compute. reflexivity.
    + vm_compute. discriminate.
    + vm_compute. lia.
    + vm_compute. eauto.
  - apply (full_read_overruns_buffer FS_ENABLED 4 (replicate 256 0) (Char.bytes "bye")
             {| active_fd_set := replicate 1024 true; registry := [] |}).
    + vm_compute. reflexivity.
    + vm_compute. discriminate.
    + vm_compute. lia.
    + vm_compute. eauto.
    + vm_compute. reflexivity.
Defined.

(** Property X29.  A client leaves the set of the active descriptors
    exactly when it has closed the connection or has sent [bye]; the
    request of one client changes the descriptor of no other. *)
Theorem client_leaves_on_bye_or_eof policy sock i new buffer data s :
  i ≠ sock → FD_ISSET i (active_fd_set s) = Some true →
  length buffer = Z.to_nat READ_BUF_SIZE → Z.of_nat (length data) < READ_BUF_SIZE →
  ∃ w s', serviceDescriptor policy sock i new buffer (read_bytes data) s
          = Some (Returns (w, s')) ∧
    (FD_ISSET i (active_fd_set s') = Some false
     ↔ data = [] ∨ command data = Some cmd_bye) ∧
    (∀ j, j ≠ i → FD_ISSET j (active_fd_set s') = FD_ISSET j (active_fd_set s)).
Proof.
  intros Hi Hset Hbuf Hlen. unfold serviceDescriptor.
  rewrite bool_decide_false by done.
  pose proof (FD_ISSET_range _ _ _ Hset) as Hrange.
  destruct (FD_write_is_Some i false (active_fd_set s) Hrange) as [set' Hclr].
  destruct (FD_write_Some _ _ _ _ Hclr) as (_ & _ & Hoff & Hother).
  destruct data as [|c data].
  - cbn [readSocket length]. rewrite bool_decide_true by done.
    cbn [mbind option_bind]. rewrite bool_decide_true by lia.
    unfold removeClient, FD_CLR. rewrite Hclr. cbn [mbind option_bind].
    eexists _, _. split; [done|]. cbn [active_fd_set]. split; [|done].
    split; [by left | done].
  - rewrite readSocket_data by done.
    destruct (process_is_Some policy (registry s) (c :: data)) as [h Hh].
    { unfold READ_BUF_SIZE in *. lia. }
    rewrite Hh. cbn [mbind option_bind].
    pose proof (removed_bye _ _ _ _ Hh) as Hbye.
    destruct (removed h).
    + unfold removeClient, FD_CLR. cbn [active_fd_set]. rewrite Hclr.
      cbn [mbind option_bind]. rewrite bool_decide_false by lia.
      eexists _, _. split; [done|]. cbn [active_fd_set]. split; [|done].
      split; [intros _; right; by apply Hbye | done].
    + cbn [mbind option_bind]. rewrite bool_decide_false by lia.
      eexists _, _. split; [done|]. cbn [active_fd_set]. split; [|done].
      rewrite Hset. split; [done|]. intros [? | Hb]; [done|].
      apply Hbye in Hb. done.
Qed.

Lemma client_leaves_on_bye_or_eof_witness :
  ∃ w s', serviceDescriptor FS_ENABLED 3 4 (-1) (replicate 256 0)
            (read_bytes (Char.bytes "BYE"))
            {| active_fd_set := replicate 1024 true; registry := [] |}
          = Some (Returns (w, s')) ∧
    (FD_ISSET 4 (active_fd_set s') = Some false
     ↔ Char.bytes "BYE" = [] ∨ command (Char.bytes "BYE") = Some cmd_bye) ∧
    (∀ j, j ≠ 4 → FD_ISSET j (active_fd_set s')
                  = FD_ISSET j (replicate 1024 true)).
Proof.
  apply (client_leaves_on_bye_or_eof FS_ENABLED 3 4 (-1) (replicate 256 0)
           (Char.bytes "BYE")
           {| active_fd_set := replicate 1024 true; registry := [] |}).
  - lia.
  - vm_compute. reflexivity.
  - vm_compute. reflexivity.
  - vm_compute. reflexivity.
Defined.

(** Property X30.  The listening socket stays in the set of the active
    descriptors, and the set keeps its size, whatever is served and for
    whichever descriptor. *)
Theorem listening_socket_stays policy sock i new buffer r s w s' :
  FD_ISSET sock (active_fd_set s) = Some true →
  serviceDescriptor policy sock i new buffer r s = Some (Returns (w, s')) →
  FD_ISSET sock (active_fd_set s') = Some true
  ∧ length (active_fd_set s') = length (active_fd_set s).
Proof.
  intros Hset. unfold serviceDescriptor. case_bool_decide as Hi.
  - unfold addClient, FD_SET.
    destruct (FD_write new true (active_fd_set s)) as [set'|] eqn:Hadd; [|done].
    cbn [mbind option_bind]. intros [= <- <-]. cbn [active_fd_set].
    destruct (FD_write_Some _ _ _ _ Hadd) as (_ & Hlen & Hon & Hother).
    split; [|done]. destruct (decide (sock = new)) as [-> | Hne]; [done|].
    by rewrite Hother.
  - assert (∀ t t', removeClient i t = Some t' →
              FD_ISSET sock (active_fd_set t') = FD_ISSET sock (active_fd_set t)
              ∧ length (active_fd_set t') = length (active_fd_set t)) as Hrm.
    { intros t t'. unfold removeClient, FD_CLR.
      destruct (FD_write i false (active_fd_set t)) as [set'|] eqn:Hclr; [|done].
      cbn [mbind option_bind]. intros [= <-]. cbn [active_fd_set].
      destruct (FD_write_Some _ _ _ _ Hclr) as (_ & Hlen & _ & Hother).
      split; [|done]. apply Hother. congruence. }
    destruct r as [|data]; cbn [readSocket mbind option_bind]; [done|].
    case_bool_decide as Hn.
    + cbn [mbind option_bind]. rewrite bool_decide_true by lia.
      destruct (removeClient i s) as [t'|] eqn:Ht; [|done].
      cbn [mbind option_bind]. intros [= <- <-].
      destruct (Hrm _ _ Ht) as [-> ->]. done.
    + destruct (Mem.store _ _ _); [|done]. cbn [mbind option_bind].
      destruct (processClientMessage _ _ _) as [h|]; [|done].
      cbn [mbind option_bind].
      destruct (removed h).
      * destruct (removeClient i _) as [t'|] eqn:Ht; [|done].
        cbn [mbind option_bind]. rewrite bool_decide_false by lia.
        intros [= <- <-]. destruct (Hrm _ _ Ht) as [-> ->]. done.
      * cbn [mbind option_bind]. rewrite bool_decide_false by lia.
        intros [= <- <-]. done.
Qed.

Lemma listening_socket_stays_witness :
  FD_ISSET 3 (<[4%nat := false]> (replicate 1024 true)) = Some true
  ∧ length (<[4%nat := false]> (replicate 1024 true)) = length (replicate 1024 true).
Proof.
  apply (listening_socket_stays FS_ENABLED 3 4 (-1) (replicate 256 0) (read_bytes [])
           {| active_fd_set := replicate 1024 true; registry := [] |} None
           {| active_fd_set := <[4%nat := false]> (replicate 1024 true); registry := [] |}).
  - vm_compute. reflexivity.
  - vm_compute. reflexivity.
Defined.
